(** * songscrapper: the identity-resolution and consolidation engine

    A shallow embedding of [fullupdate.py]: the string utilities
    ([sanitize_filename], [validate_track_data]), the smart song manager
    ([SmartSongManager]), the playlist consolidator ([PlaylistConsolidator]),
    the per-playlist pipeline ([process_single_playlist]) and the batch
    controller ([PlaylistBatch], [run_batch_processing_mode]).

    Conventions.
    - A Python [str] is a Rocq [string] whose characters are read as the code
      points 0..255; the character classes ([str.isspace], the regular
      expression classes [\s] and [\w], [str.lower]) follow CPython's tables
      on that range.
    - A Python [dict] is an insertion-ordered association list ([dict]):
      assignment to an existing key keeps its position, a new key goes last.
    - Persisted JSON tables are modelled at the schema the program writes;
      writing a table and reading it back is the identity.
    - [datetime.now()] is a parameter [now] of the operations that stamp
      records.
    - The browser, the audio fetch tool and the console are the environment:
      their answers are inputs of the model ([env]). *)

From Stdlib Require Import List String Ascii Bool Arith NArith ZArith Lia.
Import ListNotations.

Open Scope string_scope.
Open Scope list_scope.

(** ** Python strings *)

Module PyStr.

Definition code (c : ascii) : nat := nat_of_ascii c.

Definition in_range (lo hi : nat) (c : ascii) : bool :=
  ((lo <=? code c) && (code c <=? hi))%nat.

Definition code_in (l : list nat) (c : ascii) : bool :=
  existsb (Nat.eqb (code c)) l.

(** [str.isspace] and the class [\s] *)
Definition isspace (c : ascii) : bool :=
  in_range 9 13 c || in_range 28 32 c || code_in [133; 160] c.

(** the class [\w]: [str.isalnum] or the underscore *)
Definition isword (c : ascii) : bool :=
  in_range 48 57 c || in_range 65 90 c || in_range 97 122 c
  || code_in [95; 170; 178; 179; 181; 185; 186; 188; 189; 190] c
  || in_range 192 214 c || in_range 216 246 c || in_range 248 255 c.

(** [str.lower] on one character *)
Definition lower_char (c : ascii) : ascii :=
  if in_range 65 90 c || in_range 192 214 c || in_range 216 222 c
  then ascii_of_nat (code c + 32) else c.

Definition chars (s : string) : list ascii := list_ascii_of_string s.
Definition of_chars (l : list ascii) : string := string_of_list_ascii l.

Fixpoint dropwhile (p : ascii -> bool) (l : list ascii) : list ascii :=
  match l with
  | [] => []
  | c :: l' => if p c then dropwhile p l' else l
  end.

Definition dropwhile_end (p : ascii -> bool) (l : list ascii) : list ascii :=
  rev (dropwhile p (rev l)).

Definition strip_by (p : ascii -> bool) (l : list ascii) : list ascii :=
  dropwhile_end p (dropwhile p l).

(** [s.strip()] *)
Definition strip (s : string) : string :=
  of_chars (strip_by isspace (chars s)).

(** [s.lower()] *)
Definition lower (s : string) : string :=
  of_chars (map lower_char (chars s)).

(** truth value of a string: [bool(s)] *)
Definition truthy (s : string) : bool :=
  match s with
  | EmptyString => false
  | String _ _ => true
  end.

(** [sep.join(l)] *)
Fixpoint join (sep : string) (l : list string) : string :=
  match l with
  | [] => ""
  | [s] => s
  | s :: l' => s ++ sep ++ join sep l'
  end.

(** [x in l] for a list of strings *)
Definition mem (x : string) (l : list string) : bool :=
  existsb (String.eqb x) l.

(** [re.sub(cls+, rep, s)] where [cls] is a character class: every maximal
    run of characters of the class becomes one [rep] *)
Fixpoint sub_runs (cls : ascii -> bool) (rep : ascii) (inrun : bool)
    (l : list ascii) : list ascii :=
  match l with
  | [] => []
  | c :: l' =>
      if cls c
      then if inrun then sub_runs cls rep true l'
           else rep :: sub_runs cls rep true l'
      else c :: sub_runs cls rep false l'
  end.

End PyStr.

(** ** hashlib.md5 (RFC 1321), on the bytes of the string *)

Module MD5.

Open Scope N_scope.

Definition w32 (x : N) : N := x mod 4294967296.

Definition rotl (x : N) (c : N) : N :=
  w32 (N.lor (N.shiftl x c) (N.shiftr x (32 - c))).

Definition not32 (x : N) : N := N.lxor x 4294967295.

Definition K : list N :=
  [0xd76aa478; 0xe8c7b756; 0x242070db; 0xc1bdceee;
   0xf57c0faf; 0x4787c62a; 0xa8304613; 0xfd469501;
   0x698098d8; 0x8b44f7af; 0xffff5bb1; 0x895cd7be;
   0x6b901122; 0xfd987193; 0xa679438e; 0x49b40821;
   0xf61e2562; 0xc040b340; 0x265e5a51; 0xe9b6c7aa;
   0xd62f105d; 0x02441453; 0xd8a1e681; 0xe7d3fbc8;
   0x21e1cde6; 0xc33707d6; 0xf4d50d87; 0x455a14ed;
   0xa9e3e905; 0xfcefa3f8; 0x676f02d9; 0x8d2a4c8a;
   0xfffa3942; 0x8771f681; 0x6d9d6122; 0xfde5380c;
   0xa4beea44; 0x4bdecfa9; 0xf6bb4b60; 0xbebfbc70;
   0x289b7ec6; 0xeaa127fa; 0xd4ef3085; 0x04881d05;
   0xd9d4d039; 0xe6db99e5; 0x1fa27cf8; 0xc4ac5665;
   0xf4292244; 0x432aff97; 0xab9423a7; 0xfc93a039;
   0x655b59c3; 0x8f0ccc92; 0xffeff47d; 0x85845dd1;
   0x6fa87e4f; 0xfe2ce6e0; 0xa3014314; 0x4e0811a1;
   0xf7537e82; 0xbd3af235; 0x2ad7d2bb; 0xeb86d391].

Definition shifts : list N :=
  [7; 12; 17; 22; 7; 12; 17; 22; 7; 12; 17; 22; 7; 12; 17; 22;
   5; 9; 14; 20; 5; 9; 14; 20; 5; 9; 14; 20; 5; 9; 14; 20;
   4; 11; 16; 23; 4; 11; 16; 23; 4; 11; 16; 23; 4; 11; 16; 23;
   6; 10; 15; 21; 6; 10; 15; 21; 6; 10; 15; 21; 6; 10; 15; 21].

Definition nthN (l : list N) (i : N) : N := nth (N.to_nat i) l 0.

(** little-endian bytes of a value, [n] of them *)
Fixpoint le_bytes (n : nat) (x : N) : list N :=
  match n with
  | O => []
  | S n' => (x mod 256) :: le_bytes n' (x / 256)
  end.

Fixpoint of_le_bytes (l : list N) : N :=
  match l with
  | [] => 0
  | b :: l' => b + 256 * of_le_bytes l'
  end.

(** the message followed by 0x80, zeros up to 56 mod 64, and the bit length *)
Definition pad (msg : list N) : list N :=
  let len := N.of_nat (List.length msg) in
  let zeros := (55 + 64 - len mod 64) mod 64 in
  (msg ++ [128] ++ repeat 0 (N.to_nat zeros) ++ le_bytes 8 (8 * len))%list.

Fixpoint words (n : nat) (l : list N) : list N :=
  match n with
  | O => []
  | S n' => of_le_bytes (firstn 4 l) :: words n' (skipn 4 l)
  end.

Definition round (M : list N) (st : N * N * N * N) (i : N)
    : N * N * N * N :=
  let '(A, B, C, D) := st in
  let '(F, g) :=
    if i <? 16 then (N.lor (N.land B C) (N.land (not32 B) D), i)
    else if i <? 32 then
      (N.lor (N.land D B) (N.land (not32 D) C), (5 * i + 1) mod 16)
    else if i <? 48 then (N.lxor B (N.lxor C D), (3 * i + 5) mod 16)
    else (N.lxor C (N.lor B (not32 D)), (7 * i) mod 16) in
  let F' := w32 (F + A + nthN K i + nthN M g) in
  (D, w32 (B + rotl F' (nthN shifts i)), B, C).

Definition block (st : N * N * N * N) (M : list N) : N * N * N * N :=
  let '(a0, b0, c0, d0) := st in
  let '(A, B, C, D) :=
    fold_left (round M) (map N.of_nat (seq 0 64)) st in
  (w32 (a0 + A), w32 (b0 + B), w32 (c0 + C), w32 (d0 + D)).

Fixpoint blocks (n : nat) (l : list N) (st : N * N * N * N)
    : N * N * N * N :=
  match n with
  | O => st
  | S n' => blocks n' (skipn 64 l) (block st (words 16 (firstn 64 l)))
  end.

Definition digest (msg : list N) : list N :=
  let p := pad msg in
  let '(A, B, C, D) :=
    blocks (List.length p / 64)%nat p (0x67452301, 0xefcdab89, 0x98badcfe, 0x10325476) in
  (le_bytes 4 A ++ le_bytes 4 B ++ le_bytes 4 C ++ le_bytes 4 D)%list.

Definition hex_digit (d : N) : ascii :=
  nth (N.to_nat d) (PyStr.chars "0123456789abcdef") "0"%char.

Definition hex_byte (b : N) : list ascii := [hex_digit (b / 16); hex_digit (b mod 16)].

(** [hashlib.md5(s.encode()).hexdigest()], for a string of 7-bit characters
    (whose UTF-8 encoding is the characters themselves) *)
Definition hexdigest (s : string) : string :=
  PyStr.of_chars (flat_map hex_byte (digest (map N_of_ascii (PyStr.chars s)))).

End MD5.



(** ** Python dicts: insertion-ordered association lists *)

Module Dict.

Section Ops.
Context {V : Type}.

Definition dict : Type := list (string * V).

(** [d.get(k)] *)
Fixpoint get (d : dict) (k : string) : option V :=
  match d with
  | [] => None
  | (k', v) :: d' => if String.eqb k' k then Some v else get d' k
  end.

(** [k in d] *)
Definition contains (d : dict) (k : string) : bool :=
  match get d k with
  | Some _ => true
  | None => false
  end.

(** [d[k] = v]: an existing key keeps its place, a new key goes last *)
Fixpoint set (d : dict) (k : string) (v : V) : dict :=
  match d with
  | [] => [(k, v)]
  | (k', v') :: d' =>
      if String.eqb k' k then (k, v) :: d' else (k', v') :: set d' k v
  end.

Definition keys (d : dict) : list string := map fst d.

(** [d.update(e)] *)
Definition update (d e : dict) : dict :=
  fold_left (fun acc kv => set acc (fst kv) (snd kv)) e d.

Fixpoint distinct (l : list string) : bool :=
  match l with
  | [] => true
  | k :: l' => negb (existsb (String.eqb k) l') && distinct l'
  end.

(** the keys of a dict are pairwise distinct *)
Definition uniq (d : dict) : bool := distinct (keys d).

End Ops.

Arguments dict V : clear implicits.

End Dict.

Abbreviation dict := Dict.dict.

(** ** Configuration ([class Config]) *)

Module Config.
Definition MAX_RETRIES : nat := 3.
Definition SKIP_INVALID_TRACKS : bool := true.
Definition MIN_TRACK_NAME_LENGTH : nat := 1.
Definition MIN_ARTIST_NAME_LENGTH : nat := 1.
Definition ENABLE_SMART_DEDUPLICATION : bool := true.
Definition PAUSE_BETWEEN_PLAYLISTS : bool := true.
Definition TARGET_API_URL : string :=
  "https://api-partner.spotify.com/pathfinder/v2/query".
End Config.

(** ** sanitize_filename *)

(** the characters removed first: less-than, greater-than, colon, double
    quote, slash, backslash, bar, question mark, star *)
Definition invalid_char (c : ascii) : bool :=
  PyStr.code_in [60; 62; 58; 34; 47; 92; 124; 63; 42] c.

Definition is_dash (c : ascii) : bool := Nat.eqb (PyStr.code c) 45.

Definition sanitize_chars (l : list ascii) : list ascii :=
  let l1 := PyStr.strip_by PyStr.isspace l in
  let l2 := filter (fun c => negb (invalid_char c)) l1 in
  let l3 := filter (fun c => PyStr.isword c || PyStr.isspace c || is_dash c) l2 in
  let l4 := PyStr.sub_runs (fun c => is_dash c || PyStr.isspace c) "-"%char false l3 in
  firstn 100 (PyStr.strip_by is_dash l4).

Definition sanitize_filename (filename : string) : string :=
  if negb (PyStr.truthy filename) || negb (PyStr.truthy (PyStr.strip filename))
  then "unknown_file"
  else
    let result := PyStr.of_chars (sanitize_chars (PyStr.chars filename)) in
    if PyStr.truthy result then result else "unknown_file".

(** ** Records of the catalog *)

(** the entries of [track_info] that the catalog reads; the cover art and
    avatar entries come from the image collaborator and are not modelled *)
Record track_info : Type := {
  track_name : string;
  track_uri : string;
  artists : list string;
  artist_uris : list string;
  artists_string : string;
  album_name : string;
  album_uri : string;
  duration_ms : N;
  added_at : string;
  processed_at : string;
  song_id : string;
  skip_download : bool;
  existing_song_found : bool
}.

Inductive download_status : Type :=
  | success | existing | skipped | cancelled | dl_failed | dl_error.

Record download_result : Type := {
  r_track_name : string;
  r_artists : string;
  r_search_query : string;
  r_status : download_status;
  r_error : option string;
  r_filename : option string;
  r_video_title : option string;
  r_metadata : track_info;
  r_song_id : string
}.

Record download_info : Type := {
  di_video_title : option string;
  di_search_query : string;
  di_download_status : download_status;
  di_downloaded_at : string
}.

Record song_info : Type := {
  si_song_id : string;
  si_filename : string;
  si_original_filename : option string;
  si_metadata : track_info;
  playlists : list string;
  si_added_at : string;
  si_last_updated : string;
  si_download_info : download_info
}.

Record playlist_metadata : Type := {
  pm_name : string;
  pm_total_tracks : nat;
  pm_successful_downloads : nat;
  pm_source_url : string;
  pm_songs : list string;
  pm_unique_song_count : nat;
  pm_created_at : string
}.

(** the three persisted tables; [None] is a file that does not exist *)
Record disk : Type := {
  songs_database : option (dict song_info);
  playlists_database : option (dict playlist_metadata);
  song_playlist_mapping : option (dict (list string))
}.

(** ** Exceptions *)

Inductive exn (A : Type) : Type :=
  | Ok (a : A)
  | Raise (msg : string).
Arguments Ok {A} a.
Arguments Raise {A} msg.

(** ** SmartSongManager *)

Record SmartSongManager : Type := {
  existing_songs : dict song_info;
  uri_to_song_id : dict string;
  name_artist_to_song_id : dict string
}.

Definition new_manager : SmartSongManager :=
  {| existing_songs := []; uri_to_song_id := []; name_artist_to_song_id := [] |}.

(** the lookup key [f"{track_name}|{artists}"] of a name and an artists
    string, both lower-cased and stripped; [None] when either is empty *)
Definition name_artist_key (name artists_str : string) : option string :=
  let name' := PyStr.strip (PyStr.lower name) in
  let artists' := PyStr.strip (PyStr.lower artists_str) in
  if PyStr.truthy name' && PyStr.truthy artists'
  then Some (name' ++ "|" ++ artists')%string
  else None.

(** [self.uri_to_song_id[track_uri] = song_id], under [if track_uri] *)
Definition register_uri (uris : dict string) (song_id : string) (t : track_info)
    : dict string :=
  if PyStr.truthy (track_uri t) then Dict.set uris (track_uri t) song_id
  else uris.

(** [self.name_artist_to_song_id[key] = song_id], under
    [if track_name and artists] *)
Definition register_name (names : dict string) (song_id : string)
    (t : track_info) : dict string :=
  match name_artist_key (track_name t) (artists_string t) with
  | Some key => Dict.set names key song_id
  | None => names
  end.

(** the update of the two lookup tables for a song and its metadata *)
Definition register_lookup (m : SmartSongManager) (song_id : string)
    (t : track_info) : SmartSongManager :=
  {| existing_songs := existing_songs m;
     uri_to_song_id := register_uri (uri_to_song_id m) song_id t;
     name_artist_to_song_id := register_name (name_artist_to_song_id m) song_id t |}.

(** one iteration of the loop of [load_existing_database] *)
Definition load_song (m : SmartSongManager) (entry : string * song_info)
    : SmartSongManager :=
  let '(song_id, info) := entry in
  register_lookup
    {| existing_songs := Dict.set (existing_songs m) song_id info;
       uri_to_song_id := uri_to_song_id m;
       name_artist_to_song_id := name_artist_to_song_id m |}
    song_id (si_metadata info).

Definition load_existing_database (d : disk) : SmartSongManager :=
  match songs_database d with
  | Some songs => fold_left load_song songs new_manager
  | None => new_manager
  end.

(** the class [[a-z0-9_]] *)
Definition id_char (c : ascii) : bool :=
  PyStr.in_range 97 122 c || PyStr.in_range 48 57 c || Nat.eqb (PyStr.code c) 95.

Definition generate_song_id (track_name artists : string) : string :=
  let clean_string := PyStr.lower (track_name ++ "_" ++ artists)%string in
  let clean_string := PyStr.of_chars (filter id_char (PyStr.chars clean_string)) in
  ("song_" ++ substring 0 12 (MD5.hexdigest clean_string))%string.

Arguments generate_song_id : simpl never.

(** [find_existing_song]; it reads the entries [track_uri], [track_name] and
    [artists_string] of its argument.  [self.existing_songs[song_id]] raises
    [KeyError] on an id that is not in the table. *)
Definition find_existing_song (m : SmartSongManager)
    (uri name artists_str : string) : exn (option (string * song_info)) :=
  let by_id (song_id : string) :=
    match Dict.get (existing_songs m) song_id with
    | Some info => Ok (Some (song_id, info))
    | None => Raise "KeyError"
    end in
  match (if PyStr.truthy uri then Dict.get (uri_to_song_id m) uri else None) with
  | Some song_id => by_id song_id
  | None =>
      match name_artist_key name artists_str with
      | Some key =>
          match Dict.get (name_artist_to_song_id m) key with
          | Some song_id => by_id song_id
          | None => Ok None
          end
      | None => Ok None
      end
  end.

(** ** validate_track_data *)

Definition validate_track_data (name artists_str : string) : bool * string :=
  let track_name := PyStr.strip name in
  let artists_string := PyStr.strip artists_str in
  if negb (PyStr.truthy track_name)
     || (String.length track_name <? Config.MIN_TRACK_NAME_LENGTH)%nat
  then (false, "Track name is empty or too short")
  else if negb (PyStr.truthy artists_string)
     || (String.length artists_string <? Config.MIN_ARTIST_NAME_LENGTH)%nat
  then (false, "Artist name is empty or too short")
  else if PyStr.mem (PyStr.lower track_name) ["unknown track"; "unknown"; ""]
  then (false, "Track name is placeholder value")
  else if PyStr.mem (PyStr.lower artists_string) ["unknown artist"; "unknown"; ""]
  then (false, "Artist name is placeholder value")
  else (true, "Valid").

(** ** Raw events and items (the consumed event shape) *)

Record raw_artist : Type := {
  artist_profile_name : option string;
  artist_uri : option string
}.

Record raw_track : Type := {
  rt_name : option string;
  rt_uri : option string;
  rt_artists : list raw_artist;
  rt_album_name : option string;
  rt_album_uri : option string;
  rt_total_milliseconds : N
}.

Inductive raw_item : Type :=
  | not_a_dict
  | item_v2 (typename : option string) (data : raw_track)
            (added_at_iso : option string).

(** a decoded and parsed response body, as [is_playlist_items_response] and
    [extract_items_from_response] see it *)
Inductive parsed_response : Type :=
  | other_response
  | PlaylistItemsPage (items : list raw_item).

Record raw_event : Type := {
  request_id : string;
  request_url : string;
  has_response : bool;
  response : parsed_response
}.

(** [p in s] for strings *)
Fixpoint is_substring (p s : string) : bool :=
  String.prefix p s ||
  match s with
  | EmptyString => false
  | String _ s' => is_substring p s'
  end.

(** the body of the loop of [capture_requests] over [driver.requests] *)
Definition capture_step (st : list string * list raw_item) (request : raw_event)
    : list string * list raw_item :=
  let '(seen_requests, all_playlist_items) := st in
  if has_response request
     && negb (PyStr.mem (request_id request) seen_requests)
     && is_substring Config.TARGET_API_URL (request_url request)
  then
    (request_id request :: seen_requests,
     match response request with
     | PlaylistItemsPage items => all_playlist_items ++ items
     | other_response => all_playlist_items
     end)
  else st.

Definition capture_requests (requests : list raw_event) : list raw_item :=
  snd (fold_left capture_step requests ([], [])).

(** ** extract_enhanced_track_info *)

(** [safe_get] on an entry that holds a string *)
Definition safe_get (v : option string) (default : string) : string :=
  match v with
  | Some s => if PyStr.truthy (PyStr.strip s) then s else default
  | None => default
  end.

Record skipped_track : Type := {
  sk_reason : string;
  sk_track_name : string;
  sk_artists : string;
  sk_album : string;
  sk_uri : string
}.

(** the loop over [artists_data] *)
Definition add_artist (acc : list string * list string) (artist : raw_artist)
    : list string * list string :=
  let '(artist_names, artist_uris) := acc in
  let artist_name := PyStr.strip (safe_get (artist_profile_name artist) "") in
  if PyStr.truthy artist_name && negb (PyStr.mem artist_name artist_names)
  then (artist_names ++ [artist_name],
        artist_uris ++ [safe_get (artist_uri artist) ""])
  else acc.

(** the Identity Resolver: the lookup and the minting of
    [extract_enhanced_track_info] *)
Definition resolve (m : SmartSongManager) (uri name artists_str : string)
    : exn (string * option song_info) :=
  match find_existing_song m uri name artists_str with
  | Raise e => Raise e
  | Ok existing_result =>
      let found :=
        match existing_result with
        | Some (id, _) => id
        | None => ""
        end in
      let id := if PyStr.truthy found then found
                else generate_song_id name artists_str in
      Ok (id, option_map snd existing_result)
  end.

Inductive extracted : Type :=
  | not_a_track
  | rejected (entry : skipped_track)
  | valid_track (t : track_info).

(** the extraction of one item up to the validation gate: the track before
    the Identity Resolver has given it an id *)
Definition candidate (now : string) (item : raw_item) : extracted :=
  match item with
  | not_a_dict => not_a_track
  | item_v2 typename track_data added =>
      if negb (String.eqb (safe_get typename "Unknown") "TrackResponseWrapper")
      then not_a_track
      else
        let name := PyStr.strip (safe_get (rt_name track_data) "") in
        let uri := safe_get (rt_uri track_data) "" in
        let '(artist_names, uris) :=
          fold_left add_artist (rt_artists track_data) ([], []) in
        let artists_str :=
          match artist_names with
          | [] => "Unknown Artist"
          | _ => PyStr.join ", " artist_names
          end in
        let album := PyStr.strip (safe_get (rt_album_name track_data) "Unknown Album") in
        let '(is_valid, validation_reason) := validate_track_data name artists_str in
        if negb is_valid && Config.SKIP_INVALID_TRACKS
        then rejected {| sk_reason := validation_reason; sk_track_name := name;
                         sk_artists := artists_str; sk_album := album;
                         sk_uri := uri |}
        else
          valid_track
            {| track_name := name;
               track_uri := uri;
               artists := artist_names;
               artist_uris := uris;
               artists_string := artists_str;
               album_name := album;
               album_uri := safe_get (rt_album_uri track_data) "";
               duration_ms := rt_total_milliseconds track_data;
               added_at := safe_get added "";
               processed_at := now;
               song_id := "";
               skip_download := false;
               existing_song_found := false |}
  end.

(** the entries [song_id], [skip_download] and [existing_song_found] *)
Definition with_identity (t : track_info) (id : string) (found : bool)
    : track_info :=
  {| track_name := track_name t;
     track_uri := track_uri t;
     artists := artists t;
     artist_uris := artist_uris t;
     artists_string := artists_string t;
     album_name := album_name t;
     album_uri := album_uri t;
     duration_ms := duration_ms t;
     added_at := added_at t;
     processed_at := processed_at t;
     song_id := id;
     skip_download := found;
     existing_song_found := found |}.

Definition processing_error (e : string) : skipped_track :=
  {| sk_reason := ("Processing error: " ++ e)%string;
     sk_track_name := "ERROR_PROCESSING";
     sk_artists := "ERROR_PROCESSING";
     sk_album := "ERROR_PROCESSING";
     sk_uri := "" |}.

(** the body of the loop of [extract_enhanced_track_info] *)
Definition extract_item (m : SmartSongManager) (now : string) (item : raw_item)
    : extracted :=
  match candidate now item with
  | valid_track t =>
      match resolve m (track_uri t) (track_name t) (artists_string t) with
      | Raise e => rejected (processing_error e)
      | Ok (id, existing_song_info) =>
          valid_track
            (with_identity t id
               match existing_song_info with Some _ => true | None => false end)
      end
  | other => other
  end.

(** the tracks returned and the entries appended to the skip log *)
Definition extract_enhanced_track_info (items : list raw_item)
    (m : SmartSongManager) (now : string)
    : list track_info * list skipped_track :=
  fold_left
    (fun acc item =>
       match extract_item m now item with
       | not_a_track => acc
       | rejected entry => (fst acc, snd acc ++ [entry])
       | valid_track t => (fst acc ++ [t], snd acc)
       end)
    items ([], []).

(** ** PlaylistConsolidator *)

Definition empty_metadata : playlist_metadata :=
  {| pm_name := ""; pm_total_tracks := 0; pm_successful_downloads := 0;
     pm_source_url := ""; pm_songs := []; pm_unique_song_count := 0;
     pm_created_at := "" |}.

Record PlaylistConsolidator : Type := {
  playlist_name : string;
  playlist_songs : list string;
  playlist_metadata_of : playlist_metadata
}.

Definition new_consolidator (name : string) : PlaylistConsolidator :=
  {| playlist_name := name; playlist_songs := [];
     playlist_metadata_of := empty_metadata |}.

Definition with_songs (m : SmartSongManager) (songs : dict song_info)
    : SmartSongManager :=
  {| existing_songs := songs;
     uri_to_song_id := uri_to_song_id m;
     name_artist_to_song_id := name_artist_to_song_id m |}.

Definition add_playlist_to_song (s : song_info) (name now : string) : song_info :=
  {| si_song_id := si_song_id s;
     si_filename := si_filename s;
     si_original_filename := si_original_filename s;
     si_metadata := si_metadata s;
     playlists := playlists s ++ [name];
     si_added_at := si_added_at s;
     si_last_updated := now;
     si_download_info := si_download_info s |}.

Definition new_song_info (name now id : string) (t : track_info)
    (r : download_result) : song_info :=
  {| si_song_id := id;
     si_filename := (id ++ ".mp3")%string;
     si_original_filename := r_filename r;
     si_metadata := t;
     playlists := [name];
     si_added_at := now;
     si_last_updated := now;
     si_download_info :=
       {| di_video_title := r_video_title r;
          di_search_query := r_search_query r;
          di_download_status := r_status r;
          di_downloaded_at := now |} |}.

Definition add_song_to_playlist (now : string) (m : SmartSongManager)
    (c : PlaylistConsolidator) (id : string) (t : track_info)
    (r : download_result) : SmartSongManager * PlaylistConsolidator :=
  let m' :=
    match Dict.get (existing_songs m) id with
    | Some existing_song =>
        if PyStr.mem (playlist_name c) (playlists existing_song) then m
        else with_songs m
               (Dict.set (existing_songs m) id
                  (add_playlist_to_song existing_song (playlist_name c) now))
    | None =>
        register_lookup
          (with_songs m
             (Dict.set (existing_songs m) id
                (new_song_info (playlist_name c) now id t r)))
          id t
    end in
  let c' :=
    if PyStr.mem id (playlist_songs c) then c
    else {| playlist_name := playlist_name c;
            playlist_songs := playlist_songs c ++ [id];
            playlist_metadata_of := playlist_metadata_of c |} in
  (m', c').

Arguments add_song_to_playlist : simpl never.

Definition set_playlist_metadata (now : string) (c : PlaylistConsolidator)
    (total_tracks successful_downloads : nat) (source_url : string)
    : PlaylistConsolidator :=
  {| playlist_name := playlist_name c;
     playlist_songs := playlist_songs c;
     playlist_metadata_of :=
       {| pm_name := playlist_name c;
          pm_total_tracks := total_tracks;
          pm_successful_downloads := successful_downloads;
          pm_source_url := source_url;
          pm_songs := playlist_songs c;
          pm_unique_song_count := List.length (playlist_songs c);
          pm_created_at := now |} |}.

Definition table {V : Type} (t : option (dict V)) : dict V :=
  match t with
  | Some d => d
  | None => []
  end.

(** the loop "update mappings for all songs" *)
Definition map_song (all_mappings : dict (list string))
    (entry : string * song_info) : dict (list string) :=
  match playlists (snd entry) with
  | [] => all_mappings
  | _ :: _ => Dict.set all_mappings (fst entry) (playlists (snd entry))
  end.

Definition save_consolidated_metadata (m : SmartSongManager)
    (c : PlaylistConsolidator) (d : disk) : disk :=
  let all_songs := Dict.update (table (songs_database d)) (existing_songs m) in
  let all_playlists :=
    Dict.set (table (playlists_database d)) (playlist_name c)
      (playlist_metadata_of c) in
  let all_mappings :=
    fold_left map_song all_songs (table (song_playlist_mapping d)) in
  {| songs_database := Some all_songs;
     playlists_database := Some all_playlists;
     song_playlist_mapping := Some all_mappings |}.

(** ** The environment and the download controller *)

(** what one attempt of the audio fetch tool does: the search
    ([extract_info]) and then the download *)
Inductive attempt : Type :=
  | search_raises (e : string)
  | no_search_results
  | download_raises (title e : string)
  | file_not_found (title : string)
  | downloaded (title : string).

Record env : Type := {
  now : string;
  (** the requests intercepted while the page at a URL is open, or the
      exception of the browser *)
  driver_requests : string -> exn (list raw_event);
  (** the fetch tool, by search query and attempt number *)
  ytdlp : string -> nat -> attempt;
  (** whether the consolidated audio file of a song id exists *)
  consolidated_song_exists : string -> bool;
  (** the answer typed at the prompt before the playlist at an index *)
  pause_prompt : nat -> string
}.

(** The flag [cancelled] is set by the command thread and never reset, so the
    successive reads of the main thread are [False] up to some read and
    [True] from it on: [cancelled_from] is that read ([None]: never
    cancelled), [reads] counts the reads made so far. *)
Record DownloadController : Type := {
  cancelled_from : option nat;
  reads : nat
}.

Definition is_cancelled (c : DownloadController) : bool * DownloadController :=
  (match cancelled_from c with
   | Some n => (n <=? reads c)%nat
   | None => false
   end,
   {| cancelled_from := cancelled_from c; reads := S (reads c) |}).

(** [check_pause] waits while paused and returns [not self.cancelled] *)
Definition check_pause (c : DownloadController) : bool * DownloadController :=
  let '(b, c') := is_cancelled c in (negb b, c').

Arguments is_cancelled : simpl never.
Arguments check_pause : simpl never.

(** ** search_and_download_audio_smart *)

Definition mk_result (t : track_info) (query : string) (st : download_status)
    (error filename title : option string) : download_result :=
  {| r_track_name := track_name t;
     r_artists := artists_string t;
     r_search_query := query;
     r_status := st;
     r_error := error;
     r_filename := filename;
     r_video_title := title;
     r_metadata := t;
     r_song_id := song_id t |}.

Definition cancelled_by_user : option string := Some "Download cancelled by user".

(** the loop [for attempt in range(Config.MAX_RETRIES)]: [n] attempts are
    left, [k] is the attempt number, [err] and [title] are the entries of
    [result] set so far *)
Fixpoint download_attempts (e : env) (t : track_info) (query base : string)
    (n k : nat) (err title : option string) (ctl : DownloadController)
    : download_result * DownloadController :=
  match n with
  | O => (mk_result t query dl_failed err None title, ctl)
  | S n' =>
      let '(go, ctl) := check_pause ctl in
      if negb go then (mk_result t query cancelled cancelled_by_user None title, ctl)
      else
        let before_download (ttl : string)
            (k' : DownloadController -> download_result * DownloadController) :=
          let '(go, ctl) := check_pause ctl in
          if negb go
          then (mk_result t query cancelled cancelled_by_user None (Some ttl), ctl)
          else k' ctl in
        match ytdlp e query k with
        | search_raises ex =>
            download_attempts e t query base n' (S k) (Some ex) title ctl
        | no_search_results =>
            download_attempts e t query base n' (S k)
              (Some "No search results found") title ctl
        | download_raises ttl ex =>
            before_download ttl
              (download_attempts e t query base n' (S k) (Some ex) (Some ttl))
        | file_not_found ttl =>
            before_download ttl
              (download_attempts e t query base n' (S k) err (Some ttl))
        | downloaded ttl =>
            before_download ttl
              (fun ctl =>
                 (mk_result t query success err (Some (base ++ ".mp3")%string)
                    (Some ttl), ctl))
        end
  end.

Definition search_and_download_audio_smart (e : env) (t : track_info)
    (ctl : DownloadController) : download_result * DownloadController :=
  let '(go, ctl) := check_pause ctl in
  if negb go then (mk_result t "" cancelled cancelled_by_user None None, ctl)
  else
    let query := PyStr.strip (track_name t ++ " " ++ artists_string t)%string in
    if skip_download t && consolidated_song_exists e (song_id t)
    then (mk_result t query existing None (Some (song_id t ++ ".mp3")%string)
            (Some "Using existing file"), ctl)
    else
      let '(is_valid, reason) := validate_track_data (track_name t) (artists_string t) in
      if negb is_valid
      then (mk_result t "" skipped (Some ("Invalid track data: " ++ reason)%string)
              None None, ctl)
      else
        let safe_filename :=
          sanitize_filename (track_name t ++ " - " ++ artists_string t)%string in
        if negb (PyStr.truthy safe_filename) || String.eqb safe_filename "unknown_file"
        then (mk_result t query dl_failed (Some "Could not create valid filename")
                None None, ctl)
        else
          let base :=
            if PyStr.truthy (song_id t) && negb (String.eqb (song_id t) "unknown_song")
            then song_id t else safe_filename in
          download_attempts e t query base Config.MAX_RETRIES 0 None None ctl.

(** ** process_single_playlist *)

Record loop_state : Type := {
  ls_manager : SmartSongManager;
  ls_consolidator : PlaylistConsolidator;
  ls_controller : DownloadController;
  successful_downloads : nat;
  failed_downloads : nat;
  skipped_downloads : nat;
  existing_reused : nat;
  cancelled_downloads : nat;
  download_log : list download_result
}.

(** one iteration of the loop over the tracks, after the two checks at its
    top; the boolean tells whether the loop goes on *)
Definition download_track (e : env) (batch_download_approved : bool)
    (track : track_info) (s : loop_state) (ctl : DownloadController)
    : loop_state * bool :=
  let query := (track_name track ++ " " ++ artists_string track)%string in
  let '(result, ctl, reused) :=
    if skip_download track
    then (mk_result track query existing None
            (Some (song_id track ++ ".mp3")%string) (Some "Using existing file"),
          ctl, S (existing_reused s))
    else if batch_download_approved
    then let '(r, ctl) := search_and_download_audio_smart e track ctl in
         (r, ctl, existing_reused s)
    else (mk_result track query skipped
            (Some "Download skipped by user for batch") None None,
          ctl, existing_reused s) in
  let '(m, c) :=
    add_song_to_playlist (now e) (ls_manager s) (ls_consolidator s)
      (song_id track) track result in
  let bump (st : download_status) (n : nat) :=
    match r_status result, st with
    | success, success | existing, existing | skipped, skipped
    | cancelled, cancelled => S n
    | dl_failed, dl_failed | dl_error, dl_failed => S n
    | _, _ => n
    end in
  ({| ls_manager := m;
      ls_consolidator := c;
      ls_controller := ctl;
      successful_downloads := bump success (successful_downloads s);
      failed_downloads := bump dl_failed (failed_downloads s);
      skipped_downloads := bump skipped (skipped_downloads s);
      existing_reused := bump existing reused;
      cancelled_downloads := bump cancelled (cancelled_downloads s);
      download_log := download_log s ++ [result] |},
   match r_status result with
   | cancelled => false
   | _ => true
   end).

Definition with_controller (s : loop_state) (ctl : DownloadController)
    : loop_state :=
  {| ls_manager := ls_manager s;
     ls_consolidator := ls_consolidator s;
     ls_controller := ctl;
     successful_downloads := successful_downloads s;
     failed_downloads := failed_downloads s;
     skipped_downloads := skipped_downloads s;
     existing_reused := existing_reused s;
     cancelled_downloads := cancelled_downloads s;
     download_log := download_log s |}.

(** the loop [for i, track in enumerate(tracks, 1)] *)
Fixpoint download_loop (e : env) (batch_download_approved : bool)
    (tracks : list track_info) (s : loop_state) : loop_state :=
  match tracks with
  | [] => s
  | track :: rest =>
      let '(stop, ctl) := is_cancelled (ls_controller s) in
      if stop then with_controller s ctl
      else
        let '(go, ctl) := check_pause ctl in
        if negb go then with_controller s ctl
        else
          let '(s', continue) :=
            download_track e batch_download_approved track s ctl in
          if continue then download_loop e batch_download_approved rest s'
          else s'
  end.

Record job_result : Type := {
  jr_error : option string;
  jr_tracks_count : nat;
  jr_success_count : nat;
  jr_failed_count : nat;
  jr_cancelled_count : nat
}.

Definition error_result (msg : string) : job_result :=
  {| jr_error := Some msg; jr_tracks_count := 0; jr_success_count := 0;
     jr_failed_count := 0; jr_cancelled_count := 0 |}.

Record job_outcome : Type := {
  jo_result : job_result;
  jo_manager : SmartSongManager;
  jo_disk : disk;
  jo_controller : DownloadController;
  jo_download_log : list download_result;
  jo_skip_log : list skipped_track
}.

Definition job_failed (msg : string) (m : SmartSongManager) (d : disk)
    (ctl : DownloadController) (skips : list skipped_track) : job_outcome :=
  {| jo_result := error_result msg; jo_manager := m; jo_disk := d;
     jo_controller := ctl; jo_download_log := []; jo_skip_log := skips |}.

(** [process_single_playlist] from the test [if not all_playlist_items] on *)
Definition process_items (e : env) (name url : string)
    (m : SmartSongManager) (d : disk) (batch_download_approved : bool)
    (ctl : DownloadController) (all_playlist_items : list raw_item)
    : job_outcome :=
  match all_playlist_items with
  | [] => job_failed "No playlist items captured" m d ctl []
  | _ :: _ =>
      let '(tracks, skips) :=
        extract_enhanced_track_info all_playlist_items m (now e) in
      match tracks with
      | [] => job_failed "No valid tracks extracted" m d ctl skips
      | _ :: _ =>
          let s :=
            download_loop e batch_download_approved tracks
              {| ls_manager := m;
                 ls_consolidator := new_consolidator name;
                 ls_controller := ctl;
                 successful_downloads := 0;
                 failed_downloads := 0;
                 skipped_downloads := 0;
                 existing_reused := 0;
                 cancelled_downloads := 0;
                 download_log := [] |} in
          let consolidator :=
            set_playlist_metadata (now e) (ls_consolidator s)
              (List.length tracks) (successful_downloads s) url in
          {| jo_result :=
               {| jr_error := None;
                  jr_tracks_count := List.length tracks;
                  jr_success_count :=
                    successful_downloads s + existing_reused s;
                  jr_failed_count := failed_downloads s;
                  jr_cancelled_count := cancelled_downloads s |};
             jo_manager := ls_manager s;
             jo_disk :=
               save_consolidated_metadata (ls_manager s) consolidator d;
             jo_controller := ls_controller s;
             jo_download_log := download_log s;
             jo_skip_log := skips |}
      end
  end.

Definition process_single_playlist (e : env) (name url : string)
    (m : SmartSongManager) (d : disk) (batch_download_approved : bool)
    (ctl : DownloadController) : job_outcome :=
  let '(stop, ctl) := is_cancelled ctl in
  if stop then job_failed "Batch process cancelled" m d ctl []
  else
    match driver_requests e url with
    | Raise ex =>
        job_failed ("Error processing playlist '" ++ name ++ "': " ++ ex)%string
          m d ctl []
    | Ok requests =>
        let all_playlist_items := capture_requests requests in
        let '(stop, ctl) := is_cancelled ctl in
        if stop then job_failed "Batch process cancelled" m d ctl []
        else process_items e name url m d batch_download_approved ctl
               all_playlist_items
    end.

(** ** PlaylistBatch *)

Inductive job_status : Type := pending | completed | failed.

Record CaptureJob : Type := {
  job_name : string;
  job_url : string;
  status : job_status;
  job_added_at : string;
  job_processed_at : option string;
  job_tracks_count : nat;
  job_success_count : nat;
  job_error : option string
}.

Record PlaylistBatch : Type := {
  batch_playlists : list CaptureJob;
  current_playlist_index : nat
}.

Definition is_pending (j : CaptureJob) : bool :=
  match status j with
  | pending => true
  | _ => false
  end.

Definition new_batch : PlaylistBatch :=
  {| batch_playlists := []; current_playlist_index := 0 |}.

Definition playlist_entry (now name url : string) : CaptureJob :=
  {| job_name := sanitize_filename name;
     job_url := PyStr.strip url;
     status := pending;
     job_added_at := now;
     job_processed_at := None;
     job_tracks_count := 0;
     job_success_count := 0;
     job_error := None |}.

Definition add_playlist (now : string) (b : PlaylistBatch) (name url : string)
    : PlaylistBatch :=
  {| batch_playlists := batch_playlists b ++ [playlist_entry now name url];
     current_playlist_index := current_playlist_index b |}.

Definition get_current_playlist (b : PlaylistBatch) : option CaptureJob :=
  nth_error (batch_playlists b) (current_playlist_index b).

(** [l[i].update(...)] *)
Fixpoint update_nth {A : Type} (i : nat) (f : A -> A) (l : list A) : list A :=
  match l, i with
  | [], _ => []
  | x :: l', O => f x :: l'
  | x :: l', S i' => x :: update_nth i' f l'
  end.

Definition completion_status (error : option string) : job_status :=
  match error with
  | None => completed
  | Some _ => failed
  end.

Definition complete_job (now : string) (tracks_count success_count : nat)
    (error : option string) (j : CaptureJob) : CaptureJob :=
  {| job_name := job_name j;
     job_url := job_url j;
     status := completion_status error;
     job_added_at := job_added_at j;
     job_processed_at := Some now;
     job_tracks_count := tracks_count;
     job_success_count := success_count;
     job_error := error |}.

(** the batch after [mark_playlist_completed], which is also the batch file
    it saves *)
Definition mark_playlist_completed (now : string) (b : PlaylistBatch)
    (tracks_count success_count : nat) (error : option string)
    : PlaylistBatch :=
  if (current_playlist_index b <? List.length (batch_playlists b))%nat
  then {| batch_playlists :=
            update_nth (current_playlist_index b)
              (complete_job now tracks_count success_count error)
              (batch_playlists b);
          current_playlist_index := S (current_playlist_index b) |}
  else b.

(** ** run_batch_processing_mode *)

(** what the loop over the jobs does, in order: [processed i] is a call of
    [process_single_playlist] on the job at index [i], [marked j st] is the
    update of the entry at index [j] to the status [st] by
    [mark_playlist_completed], followed by the save of the batch file *)
Inductive batch_event : Type :=
  | processed (i : nat)
  | marked (j : nat) (st : job_status).

Record batch_state : Type := {
  bs_batch : PlaylistBatch;
  bs_manager : SmartSongManager;
  bs_disk : disk;
  bs_controller : DownloadController;
  bs_events : list batch_event
}.

Definition mark (e : env) (s : batch_state) (tracks_count success_count : nat)
    (error : option string) (m : SmartSongManager) (d : disk)
    (ctl : DownloadController) (evs : list batch_event) : batch_state :=
  let b := bs_batch s in
  {| bs_batch := mark_playlist_completed (now e) b tracks_count success_count error;
     bs_manager := m;
     bs_disk := d;
     bs_controller := ctl;
     bs_events :=
       bs_events s ++ evs ++
       (if (current_playlist_index b <? List.length (batch_playlists b))%nat
        then [marked (current_playlist_index b) (completion_status error)]
        else []) |}.

Definition with_batch_controller (s : batch_state) (ctl : DownloadController)
    : batch_state :=
  {| bs_batch := bs_batch s; bs_manager := bs_manager s; bs_disk := bs_disk s;
     bs_controller := ctl; bs_events := bs_events s |}.

(** the body of the loop [for i in range(...)] from the call of
    [process_single_playlist] on; the boolean tells whether the loop goes on *)
Definition run_job (e : env) (download_approval : bool) (i : nat)
    (playlist : CaptureJob) (s : batch_state) (ctl : DownloadController)
    : batch_state * bool :=
  let o :=
    process_single_playlist e (job_name playlist) (job_url playlist)
      (bs_manager s) (bs_disk s) download_approval ctl in
  let result := jo_result o in
  let ctl := jo_controller o in
  match jr_error result with
  | Some (String c msg) =>
      (mark e s 0 0 (Some (String c msg)) (jo_manager o) (jo_disk o) ctl
         [processed i], true)
  | _ =>
      let '(stop, ctl) :=
        if (0 <? jr_cancelled_count result)%nat then (true, ctl)
        else is_cancelled ctl in
      if stop
      then (mark e s (jr_tracks_count result) (jr_success_count result)
              (Some "Cancelled by user") (jo_manager o) (jo_disk o) ctl
              [processed i], false)
      else (mark e s (jr_tracks_count result) (jr_success_count result)
              None (jo_manager o) (jo_disk o) ctl [processed i], true)
  end.

Fixpoint batch_loop (e : env) (download_approval : bool) (indices : list nat)
    (s : batch_state) : batch_state :=
  match indices with
  | [] => s
  | i :: rest =>
      let '(stop, ctl) := is_cancelled (bs_controller s) in
      if stop then with_batch_controller s ctl
      else
        match nth_error (batch_playlists (bs_batch s)) i with
        | None => with_batch_controller s ctl
        | Some playlist =>
            match status playlist with
            | pending =>
                let '(go, ctl) := check_pause ctl in
                if negb go then with_batch_controller s ctl
                else if Config.PAUSE_BETWEEN_PLAYLISTS
                        && (current_playlist_index (bs_batch s) <? i)%nat
                        && String.eqb
                             (PyStr.lower (PyStr.strip (pause_prompt e i))) "skip"
                then batch_loop e download_approval rest
                       (mark e s 0 0 (Some "Skipped by user") (bs_manager s)
                          (bs_disk s) ctl [])
                else
                  let '(s', continue) :=
                    run_job e download_approval i playlist s ctl in
                  if continue then batch_loop e download_approval rest s'
                  else s'
            | _ =>
                batch_loop e download_approval rest (with_batch_controller s ctl)
            end
        end
  end.

(** the loop of [run_batch_processing_mode] on a batch loaded from its file,
    with the song manager loaded from the songs database *)
Definition run_batch_processing_mode (e : env) (download_approval : bool)
    (b : PlaylistBatch) (d : disk) (ctl : DownloadController) : batch_state :=
  let n := List.length (batch_playlists b) in
  let s :=
    {| bs_batch := b;
       bs_manager := load_existing_database d;
       bs_disk := d;
       bs_controller := ctl;
       bs_events := [] |} in
  if existsb is_pending (batch_playlists b)
  then batch_loop e download_approval
         (seq (current_playlist_index b) (n - current_playlist_index b)) s
  else s.

(** a new [DownloadController()] that no command thread will cancel *)
Definition new_controller : DownloadController :=
  {| cancelled_from := None; reads := 0 |}.

(** the single playlist mode, after its prompts have given the playlist name
    and the URL: a new song manager loaded from the songs database, one
    playlist with downloads approved, and a new controller, which stays as it
    is since this mode starts no download command thread *)
Definition run_single_playlist_mode (e : env) (name url : string) (d : disk)
    : job_outcome :=
  process_single_playlist e name url (load_existing_database d) d true
    new_controller.

(** ** get_best_cover_art_url *)

(** one entry of [cover_sources]: the entries [width] (an integer) and [url]
    (a string) of the dict, [None] when the key is missing or holds [None];
    an entry that is not a dict, which both loops pass over, is the entry
    with neither key *)
Record image_source : Type := {
  src_width : option Z;
  src_url : option string
}.

(** truth value of [s.get('url')] *)
Definition has_url (s : image_source) : bool :=
  match src_url s with
  | Some u => PyStr.truthy u
  | None => false
  end.

(** truth value of [s.get('width')] *)
Definition has_width (s : image_source) : bool :=
  match src_width s with
  | Some w => negb (Z.eqb w 0)
  | None => false
  end.

(** [x.get('width', 0)] *)
Definition width_key (s : image_source) : Z :=
  match src_width s with
  | Some w => w
  | None => 0%Z
  end.

(** [max(l, key=...)] on a list that starts with [best]: the first of the
    entries with the largest key *)
Definition max_by_width (best : image_source) (l : list image_source)
    : image_source :=
  fold_left (fun best s => if (width_key best <? width_key s)%Z then s else best)
    l best.

Definition get_best_cover_art_url (cover_sources : list image_source)
    (preferred_size : Z) : option string :=
  match
    find (fun s =>
            match src_width s with
            | Some w => Z.eqb w preferred_size && has_url s
            | None => false
            end) cover_sources
  with
  | Some s => src_url s
  | None =>
      match filter (fun s => has_width s && has_url s) cover_sources with
      | [] => None
      | s :: valid_sources => src_url (max_by_width s valid_sources)
      end
  end.

(** ** PlaylistBatch.get_batch_summary *)

Record batch_summary : Type := {
  sum_total : nat;
  sum_completed : nat;
  sum_failed : nat;
  sum_pending : nat;
  sum_current_index : nat
}.

Definition has_status (st : job_status) (j : CaptureJob) : bool :=
  match status j, st with
  | pending, pending | completed, completed | failed, failed => true
  | _, _ => false
  end.

Definition get_batch_summary (b : PlaylistBatch) : batch_summary :=
  {| sum_total := List.length (batch_playlists b);
     sum_completed := List.length (filter (has_status completed) (batch_playlists b));
     sum_failed := List.length (filter (has_status failed) (batch_playlists b));
     sum_pending := List.length (filter (has_status pending) (batch_playlists b));
     sum_current_index := current_playlist_index b |}.

(** * Specification predicates *)

(** what [sanitize_filename] leaves: word characters and dashes, none of
    the characters removed first *)
Definition clean_char (c : ascii) : bool :=
  (PyStr.isword c || is_dash c) && negb (invalid_char c).

(** the tracks and the skip log entries of [extract_enhanced_track_info],
    item by item *)
Definition tracks_of (m : SmartSongManager) (now : string) (items : list raw_item)
    : list track_info :=
  flat_map (fun item =>
              match extract_item m now item with
              | valid_track t => [t]
              | _ => []
              end) items.

Definition skips_of (m : SmartSongManager) (now : string) (items : list raw_item)
    : list skipped_track :=
  flat_map (fun item =>
              match extract_item m now item with
              | rejected entry => [entry]
              | _ => []
              end) items.

(** one item through the Identity Resolver and [add_song_to_playlist], for a
    playlist of a given name; [r] gives the download result of a track *)
Definition ingest (r : track_info -> download_result) (m : SmartSongManager)
    (job : string * string) (item : raw_item) : SmartSongManager :=
  let '(playlist, now) := job in
  match extract_item m now item with
  | valid_track t =>
      fst (add_song_to_playlist now m (new_consolidator playlist) (song_id t) t (r t))
  | _ => m
  end.


(** a track item with one artist *)
Definition track_item (name uri artist : string) : raw_item :=
  item_v2 (Some "TrackResponseWrapper")
    {| rt_name := Some name; rt_uri := Some uri;
       rt_artists := [{| artist_profile_name := Some artist; artist_uri := None |}];
       rt_album_name := None; rt_album_uri := None;
       rt_total_milliseconds := 0%N |}
    None.

(** a download result for a track that was not fetched *)
Definition not_fetched (t : track_info) : download_result :=
  mk_result t (track_name t ++ " " ++ artists_string t)%string skipped
    (Some "Download skipped by user for batch") None None.

Definition empty_track : track_info :=
  {| track_name := ""; track_uri := ""; artists := []; artist_uris := [];
     artists_string := ""; album_name := ""; album_uri := ""; duration_ms := 0%N;
     added_at := ""; processed_at := ""; song_id := ""; skip_download := false;
     existing_song_found := false |}.

(** the track of an item on a manager, for items that give one *)
Definition track_of (m : SmartSongManager) (now : string) (item : raw_item)
    : track_info :=
  match extract_item m now item with
  | valid_track t => t
  | _ => empty_track
  end.

(** the membership list after one more upsert into a playlist *)
Definition joined (pls : list string) (p : string) : list string :=
  if PyStr.mem p pls then pls else pls ++ [p].

(** the manager holds one song, the one of the track [t0], in the playlists
    [pls], and its lookup tables are those of that song *)
Definition holds_one (t0 : track_info) (pls : list string)
    (m : SmartSongManager) : Prop :=
  let id0 := generate_song_id (track_name t0) (artists_string t0) in
  uri_to_song_id m = register_uri [] id0 t0 /\
  name_artist_to_song_id m = register_name [] id0 t0 /\
  exists info,
    existing_songs m = [(id0, info)] /\ si_metadata info = t0 /\
    playlists info = pls.

(** the mapping table of a disk agrees with its songs table, both ways *)
Definition mapping_consistent (d : disk) : Prop :=
  let songs := table (songs_database d) in
  let mapping := table (song_playlist_mapping d) in
  (forall id pls,
      Dict.get mapping id = Some pls ->
      exists info, Dict.get songs id = Some info /\ playlists info = pls) /\
  (forall id info,
      Dict.get songs id = Some info -> playlists info <> [] ->
      Dict.get mapping id = Some (playlists info)).

(** C5 as the specification states it: whatever the tables on disk hold,
    the mapping saved agrees with the songs saved *)
Definition mapping_rebuilt_on_save : Prop :=
  forall (m : SmartSongManager) (c : PlaylistConsolidator) (d : disk),
    mapping_consistent (save_consolidated_metadata m c d).

(** the batch files the program writes: a new batch, playlists added at the
    setup, jobs marked at the cursor *)
Inductive persisted : PlaylistBatch -> Prop :=
  | persisted_new : persisted new_batch
  | persisted_add (now name url : string) (b : PlaylistBatch) :
      persisted b -> persisted (add_playlist now b name url)
  | persisted_mark (now : string) (tracks_count success_count : nat)
      (error : option string) (b : PlaylistBatch) :
      persisted b ->
      persisted (mark_playlist_completed now b tracks_count success_count error).

(** the jobs before the cursor are done, the jobs from the cursor on are
    pending *)
Definition batch_wf (b : PlaylistBatch) : Prop :=
  current_playlist_index b <= List.length (batch_playlists b) /\
  forall i j,
    nth_error (batch_playlists b) i = Some j ->
    (status j = pending <-> current_playlist_index b <= i).

Fixpoint find_index {A : Type} (p : A -> bool) (l : list A) : option nat :=
  match l with
  | [] => None
  | x :: l' => if p x then Some 0 else option_map S (find_index p l')
  end.

(** the index of the first job whose status is pending *)
Definition first_pending (b : PlaylistBatch) : option nat :=
  find_index is_pending (batch_playlists b).

(** a run of the loop over the jobs that starts at the job [i]: each job is
    processed and then its own entry is marked, one job after the other *)
Fixpoint resumed_from (i : nat) (evs : list batch_event) : Prop :=
  match evs with
  | [] => True
  | processed i' :: marked j _ :: rest =>
      i' = i /\ j = i /\ resumed_from (S i) rest
  | _ => False
  end.

(** the cancellation is seen by a read made between two states of the
    controller *)
Definition cancelled_during (ctl ctl' : DownloadController) : Prop :=
  exists n, cancelled_from ctl = Some n /\ reads ctl <= n < reads ctl'.


(** C8 as the specification states it: the status recorded for a job
    cancelled while it is processed is neither completed nor failed *)
Definition cancellation_is_a_distinct_status : Prop :=
  forall (e : env) (approval : bool) (i : nat) (playlist : CaptureJob)
         (s : batch_state) (ctl : DownloadController) (j : nat) (st : job_status),
    let s' := fst (run_job e approval i playlist s ctl) in
    cancelled_during ctl (bs_controller s') ->
    bs_events s = [] ->
    In (marked j st) (bs_events s') ->
    st <> completed /\ st <> failed.

(** a page of two tracks, fetched by a tool that always succeeds *)
Definition two_tracks : list raw_event :=
  [{| request_id := "1";
      request_url := "https://api-partner.spotify.com/pathfinder/v2/query?op=fetchPlaylist";
      has_response := true;
      response :=
        PlaylistItemsPage
          [track_item "Song A" "spotify:track:1" "Artist X";
           track_item "Song B" "spotify:track:2" "Artist Y"] |}].

Definition two_tracks_env : env :=
  {| now := "t";
     driver_requests := fun _ => Ok two_tracks;
     ytdlp := fun _ _ => downloaded "video";
     consolidated_song_exists := fun _ => false;
     pause_prompt := fun _ => "" |}.

Definition empty_disk : disk :=
  {| songs_database := None; playlists_database := None;
     song_playlist_mapping := None |}.

(** the state of the batch loop on a batch of one pending job *)
Definition one_job_state : batch_state :=
  {| bs_batch := add_playlist "t" new_batch "P1" "https://open.spotify.com/playlist/1";
     bs_manager := new_manager;
     bs_disk := empty_disk;
     bs_controller := {| cancelled_from := None; reads := 0 |};
     bs_events := [] |}.

(** a later state of the same controller: the same cancellation, no fewer
    reads *)
Definition ctl_step (c c' : DownloadController) : Prop :=
  cancelled_from c' = cancelled_from c /\ reads c <= reads c'.

(** what a fetch of a track leaves: a later state of the controller and a
    result for that track, which is not a cancelled one when the controller
    is never cancelled *)
Definition fetch_ok (t : track_info) (ctl : DownloadController)
    (out : download_result * DownloadController) : Prop :=
  ctl_step ctl (snd out) /\ r_metadata (fst out) = t /\
  (cancelled_from ctl = None -> r_status (fst out) <> cancelled).

(** the upserts of a list of download results, in order *)
Definition upserts (now : string) (results : list download_result)
    (mc : SmartSongManager * PlaylistConsolidator)
    : SmartSongManager * PlaylistConsolidator :=
  fold_left
    (fun mc r =>
       add_song_to_playlist now (fst mc) (snd mc) (song_id (r_metadata r))
         (r_metadata r) r)
    results mc.

(** the state of the batch loop before the job [i], with [k] jobs left: the
    cursor is at [i] and the jobs from [i] on are pending *)
Definition ready (i k : nat) (s : batch_state) : Prop :=
  current_playlist_index (bs_batch s) = i /\
  i + k = List.length (batch_playlists (bs_batch s)) /\
  forall x job,
    i <= x -> nth_error (batch_playlists (bs_batch s)) x = Some job ->
    status job = pending.

(** the id and the metadata of an entry of the songs table: what the lookup
    tables are built from *)
Definition key_meta (entry : string * song_info) : string * track_info :=
  (fst entry, si_metadata (snd entry)).

Definition index_uri (uris : dict string) (km : string * track_info) : dict string :=
  register_uri uris (fst km) (snd km).

Definition index_name (names : dict string) (km : string * track_info)
    : dict string :=
  register_name names (fst km) (snd km).

(** the lookup tables of a manager are those built from its songs table, in
    the order of the table, and the table is a dict *)
Definition coherent (m : SmartSongManager) : Prop :=
  Dict.uniq (existing_songs m) = true /\
  uri_to_song_id m = fold_left index_uri (map key_meta (existing_songs m)) [] /\
  name_artist_to_song_id m =
    fold_left index_name (map key_meta (existing_songs m)) [].

(** every id in the lookup tables is the id of a song of the table *)
Definition index_sound (m : SmartSongManager) : Prop :=
  forall k X,
    Dict.get (uri_to_song_id m) k = Some X \/
    Dict.get (name_artist_to_song_id m) k = Some X ->
    Dict.contains (existing_songs m) X = true.

(** the song [X] of the manager is in the playlist [P] *)
Definition has_playlist (P : string) (m : SmartSongManager) (X : string) : Prop :=
  exists info,
    Dict.get (existing_songs m) X = Some info /\
    PyStr.mem P (playlists info) = true.

(** the song [X] is in the table of [m] and not in the table of [m0] *)
Definition added_since (m0 m : SmartSongManager) (X : string) : Prop :=
  Dict.contains (existing_songs m) X = true /\
  Dict.contains (existing_songs m0) X = false.

(** the manager [m] of a job on the playlist [P], started from [m0] *)
Record run_inv (m0 : SmartSongManager) (P : string) (m : SmartSongManager)
    : Prop := {
  inv_coherent : coherent m;
  inv_keys :
    exists extra,
      Dict.keys (existing_songs m) = Dict.keys (existing_songs m0) ++ extra;
  inv_added :
    forall X, added_since m0 m X -> has_playlist P m X /\ PyStr.truthy X = true;
  inv_uri :
    forall k X,
      Dict.get (uri_to_song_id m) k = Some X ->
      Dict.get (uri_to_song_id m0) k = Some X \/ added_since m0 m X;
  inv_name :
    forall k X,
      Dict.get (name_artist_to_song_id m) k = Some X ->
      Dict.get (name_artist_to_song_id m0) k = Some X \/ added_since m0 m X;
  inv_uri_none :
    forall k,
      Dict.get (uri_to_song_id m) k = None ->
      Dict.get (uri_to_song_id m0) k = None;
  inv_name_none :
    forall k,
      Dict.get (name_artist_to_song_id m) k = None ->
      Dict.get (name_artist_to_song_id m0) k = None
}.

(** the id that the lookup tables give for a record: by URI first, by name
    and artists second *)
Definition lookup_id (m : SmartSongManager) (uri name artists_str : string)
    : option string :=
  match (if PyStr.truthy uri then Dict.get (uri_to_song_id m) uri else None) with
  | Some X => Some X
  | None =>
      match name_artist_key name artists_str with
      | Some key => Dict.get (name_artist_to_song_id m) key
      | None => None
      end
  end.

(** the id that the resolver returns on what the lookup tables give *)
Definition resolved_id (found : option string) (name artists_str : string)
    : string :=
  match found with
  | Some X => if PyStr.truthy X then X else generate_song_id name artists_str
  | None => generate_song_id name artists_str
  end.

(** ** The capture loop *)

(** the requests the loop looks at: answered, and to the target API *)
Definition targeted (request : raw_event) : bool :=
  has_response request
  && is_substring Config.TARGET_API_URL (request_url request).

(** the items of a response *)
Definition page_items (request : raw_event) : list raw_item :=
  match response request with
  | PlaylistItemsPage items => items
  | other_response => []
  end.

(** ** Strings *)

(** no two neighbours of the list are both in the class *)
Fixpoint no_adjacent (p : ascii -> bool) (l : list ascii) : Prop :=
  match l with
  | [] => True
  | a :: l' =>
      (p a = true -> match l' with b :: _ => p b = false | [] => True end)
      /\ no_adjacent p l'
  end.

(** the first character of the list, if any, is not in the class *)
Definition head_out (p : ascii -> bool) (l : list ascii) : Prop :=
  match l with
  | c :: _ => p c = false
  | [] => True
  end.

(** ** Song ids *)

(** the characters of a string that [generate_song_id] hashes: those of the
    lower-cased string in the class [[a-z0-9_]] *)
Definition id_chars (s : string) : list ascii :=
  filter id_char (PyStr.chars (PyStr.lower s)).

Definition is_hex (c : ascii) : bool :=
  PyStr.in_range 48 57 c || PyStr.in_range 97 102 c.

(** ** The catalog across the jobs of a run *)

(** the managers of a run on the catalog [d]: the one loaded from it, and
    what the upserts of the jobs make of it *)
Inductive managed (d : disk) : SmartSongManager -> Prop :=
  | managed_load : managed d (load_existing_database d)
  | managed_add (now : string) (m : SmartSongManager) (c : PlaylistConsolidator)
      (id : string) (t : track_info) (r : download_result) :
      managed d m -> managed d (fst (add_song_to_playlist now m c id t r)).

(** the manager holds the songs of the catalog, in the order of the catalog,
    and maybe more after them *)
Definition in_sync (m : SmartSongManager) (d : disk) : Prop :=
  coherent m /\
  exists extra,
    Dict.keys (existing_songs m) = Dict.keys (table (songs_database d)) ++ extra.

(** no song is twice in the same playlist *)
Definition memberships_distinct (songs : dict song_info) : Prop :=
  forall id info, In (id, info) songs -> NoDup (playlists info).

Definition validation_reasons : list string :=
  ["Track name is empty or too short"; "Artist name is empty or too short";
   "Track name is placeholder value"; "Artist name is placeholder value"].

(** ** Downloads *)

Definition is_downloaded (a : attempt) : bool :=
  match a with
  | downloaded _ => true
  | _ => false
  end.

Definition same_status (a b : download_status) : bool :=
  match a, b with
  | success, success | existing, existing | skipped, skipped
  | cancelled, cancelled | dl_failed, dl_failed | dl_error, dl_error => true
  | _, _ => false
  end.

(** the results of a download log that have a given status *)
Definition count_status (st : download_status) (log : list download_result) : nat :=
  List.length (filter (fun r => same_status (r_status r) st) log).

(** a fetch tool that finds nothing at the first attempt *)
Definition flaky_env : env :=
  {| now := "t";
     driver_requests := fun _ => Ok two_tracks;
     ytdlp := fun _ k => match k with
                         | O => no_search_results
                         | S _ => downloaded "video"
                         end;
     consolidated_song_exists := fun _ => false;
     pause_prompt := fun _ => "" |}.

Definition sample_track : track_info :=
  {| track_name := "Song A"; track_uri := "spotify:track:1";
     artists := ["Artist X"]; artist_uris := [""];
     artists_string := "Artist X"; album_name := "Unknown Album";
     album_uri := ""; duration_ms := 0%N; added_at := "";
     processed_at := "t"; song_id := "song_0123456789ab";
     skip_download := false; existing_song_found := false |}.

(** a browser that fails to open the page *)
Definition broken_env : env :=
  {| now := "t";
     driver_requests := fun _ => Raise "no browser";
     ytdlp := fun _ _ => no_search_results;
     consolidated_song_exists := fun _ => false;
     pause_prompt := fun _ => "" |}.

(** ** The jobs of a batch *)

(** from [b] to [b'] the jobs keep their names and URLs, the cursor does not
    go back, and the entries before the old cursor and from the new cursor on
    are the same *)
Definition batch_advanced (b b' : PlaylistBatch) : Prop :=
  map job_name (batch_playlists b') = map job_name (batch_playlists b) /\
  map job_url (batch_playlists b') = map job_url (batch_playlists b) /\
  current_playlist_index b <= current_playlist_index b' /\
  (forall x, x < current_playlist_index b ->
             nth_error (batch_playlists b') x = nth_error (batch_playlists b) x) /\
  (forall x, current_playlist_index b' <= x ->
             nth_error (batch_playlists b') x = nth_error (batch_playlists b) x).

(** a fetch tool that never finds anything *)
Definition broken_fetch_env : env :=
  {| now := "t";
     driver_requests := fun _ => Ok two_tracks;
     ytdlp := fun _ _ => no_search_results;
     consolidated_song_exists := fun _ => false;
     pause_prompt := fun _ => "" |}.

(** * Properties *)

(** ** hashlib.md5: the digests of CPython on some messages, among them
    messages at the padding boundaries of 55, 56 and 64 bytes *)

Example md5_empty : MD5.hexdigest "" = "d41d8cd98f00b204e9800998ecf8427e".
Proof. vm_compute. reflexivity. Qed.

Example md5_abc : MD5.hexdigest "abc" = "900150983cd24fb0d6963f7d28e17f72".
Proof. vm_compute. reflexivity. Qed.

Example md5_55 :
  MD5.hexdigest "bbbbbbbbbbbbbbbbbbbbbbbbbbbbbbbbbbbbbbbbbbbbbbbbbbbbbbb"
  = "73979428bc0de15c39d14ae331b35295".
Proof. vm_compute. reflexivity. Qed.

Example md5_56 :
  MD5.hexdigest "cccccccccccccccccccccccccccccccccccccccccccccccccccccccc"
  = "228784bce59b932df9388be833d9fe5c".
Proof. vm_compute. reflexivity. Qed.

Example md5_64 :
  MD5.hexdigest "dddddddddddddddddddddddddddddddddddddddddddddddddddddddddddddddd"
  = "e987c862fbd2f2f0ca859cb8d7806bf3".
Proof. vm_compute. reflexivity. Qed.

Example md5_70 :
  MD5.hexdigest "aaaaaaaaaaaaaaaaaaaaaaaaaaaaaaaaaaaaaaaaaaaaaaaaaaaaaaaaaaaaaaaaaaaaaa"
  = "0f5c6c4e740bfcc08c3c26ccb2673d46".
Proof. vm_compute. reflexivity. Qed.

Example generate_song_id_song_a :
  generate_song_id "Song A" "Artist X" = "song_945458a55977".
Proof. vm_compute. reflexivity. Qed.

Example sanitize_filename_example :
  sanitize_filename "  My: Play/list -- 2024!  " = "My-Playlist-2024".
Proof. vm_compute. reflexivity. Qed.

(** ** Dicts *)

Module DictFacts.

Section Facts.
Context {V : Type}.
Implicit Types (d e : dict V) (k : string) (v : V).

Lemma get_set_eq d k v : Dict.get (Dict.set d k v) k = Some v.
Proof.
  induction d as [|[k' v'] d IH]; simpl.
  - now rewrite String.eqb_refl.
  - destruct (String.eqb_spec k' k) as [->|Hne]; simpl.
    + now rewrite String.eqb_refl.
    + destruct (String.eqb_spec k' k); [contradiction|exact IH].
Qed.

Lemma get_set_neq d k k' v :
  k <> k' -> Dict.get (Dict.set d k v) k' = Dict.get d k'.
Proof.
  intros Hne. induction d as [|[k0 v0] d IH]; simpl.
  - destruct (String.eqb_spec k k'); [contradiction|reflexivity].
  - destruct (String.eqb_spec k0 k) as [->|Hk]; simpl.
    + destruct (String.eqb_spec k k'); [contradiction|reflexivity].
    + now rewrite IH.
Qed.

Lemma get_set d k k' v :
  Dict.get (Dict.set d k v) k' =
  if String.eqb k k' then Some v else Dict.get d k'.
Proof.
  destruct (String.eqb_spec k k') as [->|Hne].
  - apply get_set_eq.
  - now apply get_set_neq.
Qed.

Lemma get_In d k v : Dict.get d k = Some v -> In (k, v) d.
Proof.
  induction d as [|[k' v'] d IH]; simpl; [discriminate|].
  destruct (String.eqb_spec k' k) as [->|Hne].
  - intros [= ->]. now left.
  - intros H. right. now apply IH.
Qed.

Lemma get_None d k : Dict.get d k = None <-> ~ In k (Dict.keys d).
Proof.
  induction d as [|[k' v'] d IH]; simpl.
  - tauto.
  - destruct (String.eqb_spec k' k) as [->|Hne].
    + split; [discriminate|]. intros H. exfalso. apply H. now left.
    + rewrite IH. split; [intros H [H'|H']; tauto|tauto].
Qed.

Lemma contains_In d k : Dict.contains d k = true <-> In k (Dict.keys d).
Proof.
  unfold Dict.contains. destruct (Dict.get d k) eqn:E.
  - split; [intros _|reflexivity].
    apply get_In in E. now apply (in_map fst) in E.
  - apply get_None in E. split; [discriminate|contradiction].
Qed.

Lemma contains_false d k : Dict.contains d k = false <-> ~ In k (Dict.keys d).
Proof.
  rewrite <- contains_In. destruct (Dict.contains d k); split; congruence.
Qed.

Lemma contains_set d k k' v :
  Dict.contains (Dict.set d k v) k' = String.eqb k k' || Dict.contains d k'.
Proof.
  unfold Dict.contains. rewrite get_set.
  now destruct (String.eqb k k').
Qed.

Lemma set_notin d k v : ~ In k (Dict.keys d) -> Dict.set d k v = d ++ [(k, v)].
Proof.
  induction d as [|[k' v'] d IH]; simpl; intros H; [reflexivity|].
  destruct (String.eqb_spec k' k) as [->|Hne]; [tauto|].
  rewrite IH; tauto.
Qed.

Lemma keys_set_in d k v :
  In k (Dict.keys d) -> Dict.keys (Dict.set d k v) = Dict.keys d.
Proof.
  induction d as [|[k' v'] d IH]; simpl; intros H; [contradiction|].
  destruct (String.eqb_spec k' k) as [->|Hne]; simpl; [reflexivity|].
  f_equal. apply IH. destruct H; congruence.
Qed.

Lemma keys_set d k v :
  Dict.keys (Dict.set d k v) =
  if Dict.contains d k then Dict.keys d else Dict.keys d ++ [k].
Proof.
  destruct (Dict.contains d k) eqn:E.
  - apply keys_set_in. now apply contains_In.
  - apply contains_false in E. rewrite set_notin by assumption.
    unfold Dict.keys. now rewrite map_app.
Qed.

Lemma set_app_in d e k v :
  In k (Dict.keys d) -> Dict.set (d ++ e) k v = Dict.set d k v ++ e.
Proof.
  induction d as [|[k' v'] d IH]; simpl; intros H; [contradiction|].
  destruct (String.eqb_spec k' k) as [->|Hne]; [reflexivity|].
  simpl. f_equal. apply IH. destruct H; congruence.
Qed.

Lemma set_app_notin d e k v :
  ~ In k (Dict.keys d) -> Dict.set (d ++ e) k v = d ++ Dict.set e k v.
Proof.
  induction d as [|[k' v'] d IH]; simpl; intros H; [reflexivity|].
  destruct (String.eqb_spec k' k) as [->|Hne]; [tauto|].
  f_equal. apply IH. tauto.
Qed.

Lemma distinct_NoDup (l : list string) : Dict.distinct l = true <-> NoDup l.
Proof.
  induction l as [|k l IH]; simpl.
  - split; [constructor|reflexivity].
  - rewrite andb_true_iff, negb_true_iff, IH. split.
    + intros [Hn Hd]. constructor; [|assumption].
      intros Hin. assert (existsb (String.eqb k) l = true); [|congruence].
      apply existsb_exists. exists k. split; [assumption|apply String.eqb_refl].
    + intros H. inversion H as [|? ? Hn Hd]; subst. split; [|assumption].
      destruct (existsb (String.eqb k) l) eqn:E; [|reflexivity].
      apply existsb_exists in E as (x & Hx & Heq).
      apply String.eqb_eq in Heq. subst. contradiction.
Qed.

Lemma uniq_NoDup d : Dict.uniq d = true <-> NoDup (Dict.keys d).
Proof. apply distinct_NoDup. Qed.

Lemma uniq_set d k v : Dict.uniq d = true -> Dict.uniq (Dict.set d k v) = true.
Proof.
  rewrite !uniq_NoDup, keys_set. intros H.
  destruct (Dict.contains d k) eqn:E; [assumption|].
  apply contains_false in E.
  apply NoDup_app; [assumption|repeat constructor; simpl; tauto|].
  intros x Hx [<-|[]]. contradiction.
Qed.

(** updating with entries under new, distinct keys appends them *)
Lemma update_fresh e : forall d,
  NoDup (Dict.keys d ++ Dict.keys e) -> Dict.update d e = d ++ e.
Proof.
  unfold Dict.update.
  induction e as [|[k v] e IH]; simpl; intros d H.
  - now rewrite app_nil_r.
  - rewrite set_notin.
    + rewrite IH.
      * now rewrite <- app_assoc.
      * unfold Dict.keys. rewrite map_app. simpl.
        rewrite <- app_assoc. exact H.
    + apply NoDup_remove_2 in H. intros Hin. apply H.
      apply in_or_app. now left.
Qed.

(** updating with entries under the same keys, in the same order, replaces
    the values *)
Lemma update_same_keys e : forall a d,
  Dict.keys d = Dict.keys e -> NoDup (Dict.keys a ++ Dict.keys e) ->
  Dict.update (a ++ d) e = a ++ e.
Proof.
  unfold Dict.update.
  induction e as [|[k v] e IH]; intros a d Hk Hnd.
  - destruct d; [reflexivity|discriminate].
  - destruct d as [|[k' v'] d]; [discriminate|].
    simpl in Hk. injection Hk as -> Hk. simpl.
    rewrite set_app_notin.
    + simpl. rewrite String.eqb_refl.
      change (a ++ (k, v) :: d) with (a ++ [(k, v)] ++ d).
      rewrite app_assoc, IH.
      * now rewrite <- app_assoc.
      * assumption.
      * unfold Dict.keys. rewrite map_app. simpl.
        rewrite <- app_assoc. exact Hnd.
    + apply NoDup_remove_2 in Hnd. intros Hin. apply Hnd.
      apply in_or_app. now left.
Qed.

Lemma update_split d e1 e2 :
  Dict.keys e1 = Dict.keys d -> NoDup (Dict.keys e1 ++ Dict.keys e2) ->
  Dict.update d (e1 ++ e2) = e1 ++ e2.
Proof.
  intros Hk Hnd. unfold Dict.update. rewrite fold_left_app.
  change (fold_left (fun acc kv => Dict.set acc (fst kv) (snd kv)) e1 d)
    with (Dict.update ([] ++ d) e1).
  rewrite update_same_keys.
  - apply update_fresh. exact Hnd.
  - now symmetry.
  - simpl. now apply NoDup_app_remove_r in Hnd.
Qed.

(** the merge of [save_consolidated_metadata]: when the in-memory table
    extends the table on disk, the merged table is the in-memory one *)
Lemma update_extends d e extra :
  Dict.keys e = Dict.keys d ++ extra -> Dict.uniq e = true ->
  Dict.update d e = e.
Proof.
  intros Hk Hu. apply uniq_NoDup in Hu.
  assert (H1 : Dict.keys (firstn (List.length d) e) = Dict.keys d).
  { unfold Dict.keys in *. rewrite <- firstn_map, Hk.
    rewrite <- (length_map fst d).
    now rewrite firstn_app, Nat.sub_diag, firstn_all, app_nil_r. }
  rewrite <- (firstn_skipn (List.length d) e) at 1 2.
  apply update_split; [assumption|].
  unfold Dict.keys in *. rewrite <- map_app, firstn_skipn. exact Hu.
Qed.

Lemma update_self d : Dict.uniq d = true -> Dict.update d d = d.
Proof.
  intros H. apply (update_extends d d []); [|assumption].
  now rewrite app_nil_r.
Qed.

Lemma update_nil d : Dict.uniq d = true -> Dict.update [] d = d.
Proof.
  intros H. apply (update_extends [] d (Dict.keys d)); [reflexivity|assumption].
Qed.

End Facts.

End DictFacts.

(** ** sanitize_filename *)

Lemma chars_of_chars l : PyStr.chars (PyStr.of_chars l) = l.
Proof. apply list_ascii_of_string_of_list_ascii. Qed.

Lemma of_chars_chars s : PyStr.of_chars (PyStr.chars s) = s.
Proof. apply string_of_list_ascii_of_string. Qed.

Lemma length_of_chars l : String.length (PyStr.of_chars l) = List.length l.
Proof. induction l; simpl; congruence. Qed.

Lemma truthy_of_chars l : PyStr.truthy (PyStr.of_chars l) = false -> l = [].
Proof. destruct l; simpl; [reflexivity|discriminate]. Qed.

Lemma truthy_false s : PyStr.truthy s = false <-> s = "".
Proof. destruct s; simpl; split; congruence. Qed.

Lemma truthy_true s : PyStr.truthy s = true <-> s <> "".
Proof. destruct s; simpl; split; congruence. Qed.

Section Forall_chars.
Variable P : ascii -> Prop.

Lemma Forall_dropwhile p l : Forall P l -> Forall P (PyStr.dropwhile p l).
Proof.
  induction 1 as [|c l Hc Hl IH]; simpl; [constructor|].
  destruct (p c); [assumption|now constructor].
Qed.

Lemma Forall_firstn n : forall l, Forall P l -> Forall P (firstn n l).
Proof.
  induction n as [|n IH]; intros l H; simpl; [constructor|].
  destruct H; constructor; [assumption|now apply IH].
Qed.

Lemma Forall_strip_by p l : Forall P l -> Forall P (PyStr.strip_by p l).
Proof.
  intros H. unfold PyStr.strip_by, PyStr.dropwhile_end.
  apply Forall_rev, Forall_dropwhile, Forall_rev, Forall_dropwhile, H.
Qed.

Lemma Forall_sub_runs cls rep l : forall inrun,
  P rep -> Forall (fun c => cls c = false -> P c) l ->
  Forall P (PyStr.sub_runs cls rep inrun l).
Proof.
  induction l as [|c l IH]; simpl; intros inrun Hrep H; [constructor|].
  inversion H as [|? ? Hc Hl]; subst.
  destruct (cls c) eqn:E.
  - destruct inrun; [|constructor; [assumption|]]; now apply IH.
  - constructor; [now apply Hc|now apply IH].
Qed.

End Forall_chars.

Lemma clean_word c :
  negb (invalid_char c) = true ->
  (PyStr.isword c || PyStr.isspace c || is_dash c) = true ->
  (is_dash c || PyStr.isspace c) = false -> clean_char c = true.
Proof.
  unfold clean_char. intros H1 H2 H3.
  apply orb_false_iff in H3 as [Hd Hs]. rewrite Hd, Hs, !orb_false_r in *.
  now rewrite H1, H2.
Qed.

Lemma sanitize_chars_clean l : Forall (fun c => clean_char c = true) (sanitize_chars l).
Proof.
  unfold sanitize_chars.
  apply Forall_firstn, Forall_strip_by, Forall_sub_runs; [reflexivity|].
  apply Forall_forall. intros c Hc Hcls.
  apply filter_In in Hc as [Hc Hw]. apply filter_In in Hc as [_ Hi].
  now apply clean_word.
Qed.

Lemma sanitize_chars_length l : List.length (sanitize_chars l) <= 100.
Proof. unfold sanitize_chars. apply firstn_le_length. Qed.

Lemma sanitize_filename_cases name :
  sanitize_filename name = "unknown_file" \/
  (sanitize_filename name = PyStr.of_chars (sanitize_chars (PyStr.chars name)) /\
   sanitize_chars (PyStr.chars name) <> []).
Proof.
  unfold sanitize_filename.
  destruct (negb (PyStr.truthy name) || negb (PyStr.truthy (PyStr.strip name)));
    [now left|].
  destruct (PyStr.truthy (PyStr.of_chars (sanitize_chars (PyStr.chars name)))) eqn:E;
    [right|now left].
  split; [reflexivity|]. intros H. now rewrite H in E.
Qed.

Lemma sanitize_filename_nothing_remains name :
  sanitize_chars (PyStr.chars name) = [] -> sanitize_filename name = "unknown_file".
Proof.
  intros H. destruct (sanitize_filename_cases name) as [|[_ Hne]]; [assumption|].
  contradiction.
Qed.

Lemma sanitize_filename_spec name :
  sanitize_filename name <> "" /\
  String.length (sanitize_filename name) <= 100 /\
  Forall (fun c => clean_char c = true) (PyStr.chars (sanitize_filename name)).
Proof.
  destruct (sanitize_filename_cases name) as [->|[-> Hne]].
  - split; [discriminate|]. split; [simpl; lia|].
    repeat constructor.
  - rewrite length_of_chars, chars_of_chars.
    split; [|split; [apply sanitize_chars_length|apply sanitize_chars_clean]].
    intros H. apply Hne. apply truthy_of_chars. now rewrite H.
Qed.

Lemma save_playlists m c d :
  table (playlists_database (save_consolidated_metadata m c d)) =
  Dict.set (table (playlists_database d)) (playlist_name c) (playlist_metadata_of c).
Proof. reflexivity. Qed.



(** ** extract_enhanced_track_info *)

Lemma extract_fold m now items : forall tracks skips,
  fold_left
    (fun acc item =>
       match extract_item m now item with
       | not_a_track => acc
       | rejected entry => (fst acc, snd acc ++ [entry])
       | valid_track t => (fst acc ++ [t], snd acc)
       end)
    items (tracks, skips) =
  (tracks ++ tracks_of m now items, skips ++ skips_of m now items).
Proof.
  induction items as [|item items IH]; intros tracks skips; simpl.
  - now rewrite !app_nil_r.
  - destruct (extract_item m now item); simpl; rewrite IH; simpl;
      now rewrite <- ?app_assoc.
Qed.

Lemma extract_enhanced_track_info_eq items m now :
  extract_enhanced_track_info items m now =
  (tracks_of m now items, skips_of m now items).
Proof. unfold extract_enhanced_track_info. now rewrite extract_fold. Qed.

Lemma tracks_of_app m now l1 l2 :
  tracks_of m now (l1 ++ l2) = tracks_of m now l1 ++ tracks_of m now l2.
Proof. apply flat_map_app. Qed.

Lemma skips_of_app m now l1 l2 :
  skips_of m now (l1 ++ l2) = skips_of m now l1 ++ skips_of m now l2.
Proof. apply flat_map_app. Qed.

Lemma tracks_of_cons m now item items :
  tracks_of m now (item :: items) =
  match extract_item m now item with
  | valid_track t => [t]
  | _ => []
  end ++ tracks_of m now items.
Proof. reflexivity. Qed.

Lemma skips_of_cons m now item items :
  skips_of m now (item :: items) =
  match extract_item m now item with
  | rejected entry => [entry]
  | _ => []
  end ++ skips_of m now items.
Proof. reflexivity. Qed.

Lemma in_tracks_of m now items t :
  In t (tracks_of m now items) <->
  exists item, In item items /\ extract_item m now item = valid_track t.
Proof.
  unfold tracks_of. rewrite in_flat_map. split.
  - intros (item & Hin & Ht). exists item. split; [assumption|].
    destruct (extract_item m now item); simpl in Ht; try contradiction.
    destruct Ht as [->|[]]. reflexivity.
  - intros (item & Hin & Ht). exists item. split; [assumption|].
    rewrite Ht. now left.
Qed.

Lemma validate_empty_name artists_str :
  validate_track_data "" artists_str = (false, "Track name is empty or too short").
Proof. reflexivity. Qed.

Lemma extract_item_empty_name m now typename data added :
  safe_get typename "Unknown" = "TrackResponseWrapper" ->
  PyStr.strip (safe_get (rt_name data) "") = "" ->
  exists entry,
    extract_item m now (item_v2 typename data added) = rejected entry /\
    sk_reason entry = "Track name is empty or too short" /\
    sk_track_name entry = "" /\
    sk_uri entry = safe_get (rt_uri data) "".
Proof.
  intros Htn Hname. unfold extract_item, candidate. rewrite Htn, Hname. simpl.
  destruct (fold_left add_artist (rt_artists data) ([], [])) as [names uris].
  eexists. repeat split.
Qed.

Lemma process_items_same_tracks e name url m d approved ctl items items' :
  tracks_of m (now e) items = tracks_of m (now e) items' ->
  let o := process_items e name url m d approved ctl items in
  let o' := process_items e name url m d approved ctl items' in
  jo_manager o = jo_manager o' /\ jo_disk o = jo_disk o' /\
  jo_controller o = jo_controller o' /\
  jo_download_log o = jo_download_log o'.
Proof.
  intros Heq. unfold process_items.
  rewrite !extract_enhanced_track_info_eq, <- Heq.
  destruct items as [|i1 items], items' as [|i2 items'];
    destruct (tracks_of m (now e) _) eqn:E; simpl in *;
    try (rewrite <- Heq); try discriminate; repeat split; reflexivity.
Qed.

(** C9: a raw track item whose extracted name is empty is rejected by the
    validation gate: the skip log receives an entry for it with the reason
    "Track name is empty or too short", and the song manager, the three
    persisted tables (songs, playlists, mapping) and the download results
    are those of the same job without the item, so it gives no song and
    is in no playlist. *)
Theorem empty_name_is_rejected :
  forall (e : env) (name url : string) (m : SmartSongManager) (d : disk)
         (approved : bool) (ctl : DownloadController)
         (pre post : list raw_item) (typename : option string)
         (data : raw_track) (added : option string),
    safe_get typename "Unknown" = "TrackResponseWrapper" ->
    PyStr.strip (safe_get (rt_name data) "") = "" ->
    let item := item_v2 typename data added in
    let o := process_items e name url m d approved ctl (pre ++ item :: post) in
    let o' := process_items e name url m d approved ctl (pre ++ post) in
    (exists entry,
        extract_item m (now e) item = rejected entry /\
        sk_reason entry = "Track name is empty or too short" /\
        In entry (jo_skip_log o)) /\
    jo_manager o = jo_manager o' /\
    jo_disk o = jo_disk o' /\
    jo_download_log o = jo_download_log o'.
Proof.
  intros e name url m d approved ctl pre post typename data added Htn Hname
    item o o'.
  destruct (extract_item_empty_name m (now e) typename data added Htn Hname)
    as (entry & Hex & Hreason & _).
  assert (Htracks : tracks_of m (now e) (pre ++ item :: post) =
                    tracks_of m (now e) (pre ++ post)).
  { rewrite !tracks_of_app. f_equal. unfold item.
    now rewrite tracks_of_cons, Hex. }
  split.
  - exists entry. split; [assumption|]. split; [assumption|].
    assert (Hin : In entry (skips_of m (now e) (pre ++ item :: post))).
    { rewrite skips_of_app. apply in_or_app. right. unfold item.
      rewrite skips_of_cons, Hex. now left. }
    unfold o, process_items. rewrite extract_enhanced_track_info_eq.
    destruct (pre ++ item :: post) eqn:E; [now destruct pre|].
    destruct (tracks_of m (now e) (r :: l)); exact Hin.
  - destruct (process_items_same_tracks e name url m d approved ctl _ _ Htracks)
      as (H1 & H2 & _ & H4).
    now repeat split.
Qed.

Lemma empty_name_is_rejected_witness :
  let e := {| now := "t"; driver_requests := fun _ => Ok [];
              ytdlp := fun _ _ => no_search_results;
              consolidated_song_exists := fun _ => false;
              pause_prompt := fun _ => "" |} in
  let data := {| rt_name := Some "  "; rt_uri := Some "spotify:track:1";
                 rt_artists := [{| artist_profile_name := Some "Artist X";
                                   artist_uri := None |}];
                 rt_album_name := None; rt_album_uri := None;
                 rt_total_milliseconds := 0%N |} in
  let d := {| songs_database := None; playlists_database := None;
              song_playlist_mapping := None |} in
  let o := process_items e "P1" "u" new_manager d true
             {| cancelled_from := None; reads := 0 |}
             [item_v2 (Some "TrackResponseWrapper") data None] in
  jo_disk o = d /\
  map sk_reason (jo_skip_log o) = ["Track name is empty or too short"].
Proof.
  split; [|reflexivity].
  apply (empty_name_is_rejected
           {| now := "t"; driver_requests := fun _ => Ok [];
              ytdlp := fun _ _ => no_search_results;
              consolidated_song_exists := fun _ => false;
              pause_prompt := fun _ => "" |}
           "P1" "u" new_manager
           {| songs_database := None; playlists_database := None;
              song_playlist_mapping := None |}
           true {| cancelled_from := None; reads := 0 |} [] []
           (Some "TrackResponseWrapper")
           {| rt_name := Some "  "; rt_uri := Some "spotify:track:1";
              rt_artists := [{| artist_profile_name := Some "Artist X";
                                artist_uri := None |}];
              rt_album_name := None; rt_album_uri := None;
              rt_total_milliseconds := 0%N |}
           None); reflexivity.
Defined.

(** ** The Identity Resolver and the upsert *)

Lemma truthy_generate_song_id name artists_str :
  PyStr.truthy (generate_song_id name artists_str) = true.
Proof. reflexivity. Qed.

Lemma resolve_by_uri m uri name artists_str X info :
  PyStr.truthy uri = true ->
  Dict.get (uri_to_song_id m) uri = Some X ->
  Dict.get (existing_songs m) X = Some info ->
  X <> "" ->
  resolve m uri name artists_str = Ok (X, Some info).
Proof.
  intros Hu Hx Hi Hne. unfold resolve, find_existing_song.
  rewrite Hu, Hx, Hi. simpl.
  apply truthy_true in Hne. now rewrite Hne.
Qed.

Lemma add_song_existing now m c id t r info :
  Dict.get (existing_songs m) id = Some info ->
  fst (add_song_to_playlist now m c id t r) =
  if PyStr.mem (playlist_name c) (playlists info) then m
  else with_songs m
         (Dict.set (existing_songs m) id
            (add_playlist_to_song info (playlist_name c) now)).
Proof. intros H. unfold add_song_to_playlist. now rewrite H. Qed.

Lemma add_song_new now m c id t r :
  Dict.get (existing_songs m) id = None ->
  fst (add_song_to_playlist now m c id t r) =
  register_lookup
    (with_songs m
       (Dict.set (existing_songs m) id (new_song_info (playlist_name c) now id t r)))
    id t.
Proof. intros H. unfold add_song_to_playlist. now rewrite H. Qed.

(** C2: when the URI of a record is registered under the id [X] of a stored
    song, the resolver returns [X] (it mints nothing), whatever the name and
    the artists of the record; the upsert that follows keeps the metadata
    snapshot of [X] and every other entry of the song but its playlists (and
    the stamp [last_updated] of that change), adds the playlist to them if it
    is not there, and leaves the other songs, the keys of the table and the
    two lookup tables as they are. *)
Theorem uri_match_returns_registered_id :
  forall (m : SmartSongManager) (c : PlaylistConsolidator) (now : string)
         (uri name artists_str X : string) (info : song_info)
         (t : track_info) (r : download_result),
    PyStr.truthy uri = true ->
    Dict.get (uri_to_song_id m) uri = Some X ->
    Dict.get (existing_songs m) X = Some info ->
    X <> "" ->
    resolve m uri name artists_str = Ok (X, Some info) /\
    let m' := fst (add_song_to_playlist now m c X t r) in
    (exists info',
        Dict.get (existing_songs m') X = Some info' /\
        si_metadata info' = si_metadata info /\
        si_song_id info' = si_song_id info /\
        si_filename info' = si_filename info /\
        si_original_filename info' = si_original_filename info /\
        si_added_at info' = si_added_at info /\
        si_download_info info' = si_download_info info /\
        playlists info' =
          if PyStr.mem (playlist_name c) (playlists info) then playlists info
          else playlists info ++ [playlist_name c]) /\
    (forall id, id <> X ->
        Dict.get (existing_songs m') id = Dict.get (existing_songs m) id) /\
    Dict.keys (existing_songs m') = Dict.keys (existing_songs m) /\
    uri_to_song_id m' = uri_to_song_id m /\
    name_artist_to_song_id m' = name_artist_to_song_id m.
Proof.
  intros m c now uri name artists_str X info t r Hu Hx Hi Hne.
  split; [now apply resolve_by_uri|].
  cbv zeta. rewrite (add_song_existing now m c X t r info Hi).
  destruct (PyStr.mem (playlist_name c) (playlists info)) eqn:E.
  - split; [|now repeat split]. exists info. now repeat split.
  - simpl. split; [|split; [|split; [|split]]]; try reflexivity.
    + eexists. split; [apply DictFacts.get_set_eq|]. now repeat split.
    + intros id Hid. apply DictFacts.get_set_neq. congruence.
    + apply DictFacts.keys_set_in, DictFacts.contains_In.
      unfold Dict.contains. now rewrite Hi.
Qed.

Lemma extract_item_valid m now item t :
  extract_item m now item = valid_track t ->
  exists tc existing,
    candidate now item = valid_track tc /\
    resolve m (track_uri tc) (track_name tc) (artists_string tc)
      = Ok (song_id t, existing) /\
    t = with_identity tc (song_id t)
          match existing with Some _ => true | None => false end.
Proof.
  unfold extract_item. destruct (candidate now item) as [|entry|tc]; try discriminate.
  destruct (resolve m (track_uri tc) (track_name tc) (artists_string tc))
    as [[id existing]|msg] eqn:E; [|discriminate].
  intros [= <-]. exists tc, existing. now repeat split.
Qed.

(** the candidate of an item depends on the time only in [processed_at] *)
Lemma candidate_any_time now now' item tc :
  candidate now item = valid_track tc ->
  exists tc',
    candidate now' item = valid_track tc' /\
    track_uri tc' = track_uri tc /\ track_name tc' = track_name tc /\
    artists_string tc' = artists_string tc.
Proof.
  unfold candidate. destruct item as [|typename data added]; [discriminate|].
  destruct (negb _); [discriminate|].
  destruct (fold_left add_artist (rt_artists data) ([], [])) as [names uris].
  destruct (validate_track_data _ _) as [is_valid reason].
  destruct (negb is_valid && Config.SKIP_INVALID_TRACKS); [discriminate|].
  intros [= <-]. eexists. now repeat split.
Qed.

Lemma resolve_new_manager uri name artists_str :
  resolve new_manager uri name artists_str =
  Ok (generate_song_id name artists_str, None).
Proof.
  unfold resolve, find_existing_song. simpl.
  destruct (PyStr.truthy uri), (name_artist_key name artists_str); reflexivity.
Qed.

Lemma get_singleton {V : Type} (k : string) (v : V) : Dict.get [(k, v)] k = Some v.
Proof. simpl. now rewrite String.eqb_refl. Qed.

Lemma set_singleton {V : Type} (k : string) (v v' : V) :
  Dict.set [(k, v)] k v' = [(k, v')].
Proof. simpl. now rewrite String.eqb_refl. Qed.

Lemma resolve_found m uri name artists_str id info :
  find_existing_song m uri name artists_str = Ok (Some (id, info)) ->
  PyStr.truthy id = true ->
  resolve m uri name artists_str = Ok (id, Some info).
Proof. intros H Ht. unfold resolve. rewrite H. cbn. now rewrite Ht. Qed.

Lemma resolve_not_found m uri name artists_str :
  find_existing_song m uri name artists_str = Ok None ->
  resolve m uri name artists_str = Ok (generate_song_id name artists_str, None).
Proof. intros H. unfold resolve. now rewrite H. Qed.

Lemma resolve_holds_one t0 pls m :
  holds_one t0 pls m ->
  exists existing,
    resolve m (track_uri t0) (track_name t0) (artists_string t0) =
    Ok (generate_song_id (track_name t0) (artists_string t0), existing).
Proof.
  intros (Hu & Hn & info & Hs & _ & _).
  assert (H : find_existing_song m (track_uri t0) (track_name t0) (artists_string t0)
              = Ok (Some (generate_song_id (track_name t0) (artists_string t0), info))
           \/ find_existing_song m (track_uri t0) (track_name t0) (artists_string t0)
              = Ok None).
  { unfold find_existing_song. rewrite Hu, Hn, Hs.
    unfold register_uri, register_name.
    destruct (PyStr.truthy (track_uri t0)).
    - rewrite DictFacts.get_set_eq, get_singleton. now left.
    - destruct (name_artist_key (track_name t0) (artists_string t0)).
      + rewrite DictFacts.get_set_eq, get_singleton. now left.
      + now right. }
  destruct H as [H|H].
  - eexists. apply resolve_found; [exact H|apply truthy_generate_song_id].
  - eexists. apply resolve_not_found, H.
Qed.

Lemma ingest_first r now item t0 p :
  extract_item new_manager now item = valid_track t0 ->
  song_id t0 = generate_song_id (track_name t0) (artists_string t0) /\
  holds_one t0 [p] (ingest r new_manager (p, now) item).
Proof.
  intros H. unfold ingest. rewrite H.
  apply extract_item_valid in H as (tc & existing & Hc & Hr & Ht).
  rewrite resolve_new_manager in Hr. injection Hr as Hid <-.
  assert (Hid' : song_id t0 = generate_song_id (track_name t0) (artists_string t0)).
  { rewrite Ht at 2 3. cbn [with_identity track_name artists_string]. now symmetry. }
  split; [assumption|].
  rewrite add_song_new by reflexivity. unfold holds_one. rewrite <- Hid'.
  cbn [register_lookup with_songs uri_to_song_id name_artist_to_song_id
       existing_songs new_manager Dict.set new_consolidator playlist_name].
  repeat split. eexists. now repeat split.
Qed.

Lemma ingest_again r now item t0 pls p m tc :
  holds_one t0 pls m ->
  candidate now item = valid_track tc ->
  track_uri tc = track_uri t0 -> track_name tc = track_name t0 ->
  artists_string tc = artists_string t0 ->
  holds_one t0 (joined pls p) (ingest r m (p, now) item).
Proof.
  intros Hm Hc Hu Hn Ha.
  destruct (resolve_holds_one t0 pls m Hm) as (existing & Hr).
  destruct Hm as (Hmu & Hmn & info & Hs & Hmeta & Hpls).
  unfold ingest, extract_item. rewrite Hc, Hu, Hn, Ha, Hr.
  cbn [with_identity song_id].
  rewrite (add_song_existing _ _ _ _ _ _ info)
    by (rewrite Hs; apply get_singleton).
  cbn [new_consolidator playlist_name]. unfold joined. rewrite Hpls.
  destruct (PyStr.mem p pls) eqn:E.
  - unfold holds_one. repeat split; try assumption. now exists info.
  - unfold holds_one.
    cbn [with_songs uri_to_song_id name_artist_to_song_id existing_songs].
    repeat split; try assumption.
    rewrite Hs, set_singleton.
    eexists. split; [reflexivity|]. cbn [add_playlist_to_song si_metadata playlists].
    now rewrite Hpls.
Qed.

Lemma joined_two P1 P2 (ps : list string) :
  P1 <> P2 -> Forall (fun p => p = P1 \/ p = P2) ps ->
  fold_left joined ps [P1] = (if PyStr.mem P2 ps then [P1; P2] else [P1]) /\
  fold_left joined ps [P1; P2] = [P1; P2].
Proof.
  intros Hne. induction 1 as [|p ps Hp Hps IH]; simpl; [now split|].
  destruct IH as [IH1 IH2].
  assert (E12 : String.eqb P1 P2 = false) by now apply String.eqb_neq.
  assert (E21 : String.eqb P2 P1 = false) by (apply String.eqb_neq; congruence).
  destruct Hp as [->| ->]; unfold joined at 2 4, PyStr.mem; simpl;
    rewrite ?String.eqb_refl, ?E12, ?E21; simpl; auto.
Qed.

(** C3: from an empty songs table, a track ingested into the playlist [P1]
    and then ingested again any number of times into [P1] and [P2] has one
    entry in the table, the one made from its first ingestion, whose
    playlists are [P1] and, once it has gone into [P2], [P2], each once. *)
Theorem upsert_is_idempotent_and_accumulates :
  forall (r : track_info -> download_result) (item : raw_item)
         (t0 : track_info) (P1 P2 now0 : string) (jobs : list (string * string)),
    extract_item new_manager now0 item = valid_track t0 ->
    P1 <> P2 ->
    Forall (fun job => fst job = P1 \/ fst job = P2) jobs ->
    let m := fold_left (fun m job => ingest r m job item) ((P1, now0) :: jobs)
               new_manager in
    exists info,
      existing_songs m = [(song_id t0, info)] /\
      si_metadata info = t0 /\
      playlists info = if PyStr.mem P2 (map fst jobs) then [P1; P2] else [P1].
Proof.
  intros r item t0 P1 P2 now0 jobs H0 Hne Hjobs. simpl.
  destruct (ingest_first r now0 item t0 P1 H0) as [Hid Hone].
  destruct (extract_item_valid _ _ _ _ H0) as (tc0 & ex0 & Hc0 & _ & Ht0).
  assert (Hall : forall pls m,
             holds_one t0 pls m ->
             holds_one t0 (fold_left joined (map fst jobs) pls)
               (fold_left (fun m job => ingest r m job item) jobs m)).
  { clear Hjobs Hone. induction jobs as [|[p now] jobs IH]; intros pls m Hm;
      simpl; [assumption|].
    apply IH.
    destruct (candidate_any_time now0 now item tc0 Hc0) as (tc & Hc & Hu & Hn & Ha).
    apply (ingest_again r now item t0 pls p m tc Hm Hc).
    - rewrite Hu, Ht0. reflexivity.
    - rewrite Hn, Ht0. reflexivity.
    - rewrite Ha, Ht0. reflexivity. }
  specialize (Hall _ _ Hone).
  destruct (joined_two P1 P2 (map fst jobs) Hne) as [Hj _].
  { apply Forall_map. exact Hjobs. }
  rewrite Hj in Hall. destruct Hall as (_ & _ & info & Hs & Hmeta & Hpls).
  exists info. rewrite Hid. now repeat split.
Qed.

Lemma upsert_is_idempotent_and_accumulates_witness :
  let item := track_item "Song A" "spotify:track:1" "Artist X" in
  let m := fold_left (fun m job => ingest not_fetched m job item)
             [("P1", "t0"); ("P1", "t1"); ("P2", "t2"); ("P2", "t3"); ("P1", "t4")]
             new_manager in
  exists info,
    existing_songs m = [("song_945458a55977", info)] /\
    playlists info = ["P1"; "P2"].
Proof.
  destruct (upsert_is_idempotent_and_accumulates not_fetched
              (track_item "Song A" "spotify:track:1" "Artist X")
              (track_of new_manager "t0"
                 (track_item "Song A" "spotify:track:1" "Artist X"))
              "P1" "P2" "t0" [("P1", "t1"); ("P2", "t2"); ("P2", "t3"); ("P1", "t4")])
    as (info & Hs & _ & Hp).
  - reflexivity.
  - discriminate.
  - repeat (apply Forall_cons; [simpl; auto|]). apply Forall_nil.
  - exists info. split; [exact Hs|exact Hp].
Defined.

Lemma uri_match_returns_registered_id_witness :
  let m := ingest not_fetched new_manager ("P1", "t0")
             (track_item "Song A" "spotify:track:1" "Artist X") in
  exists info,
    resolve m "spotify:track:1" "Song A - Remastered" "Somebody Else"
      = Ok ("song_945458a55977", Some info) /\
    track_name (si_metadata info) = "Song A".
Proof.
  set (m := ingest not_fetched new_manager ("P1", "t0")
              (track_item "Song A" "spotify:track:1" "Artist X")).
  assert (E : exists info,
             Dict.get (existing_songs m) "song_945458a55977" = Some info /\
             track_name (si_metadata info) = "Song A").
  { vm_compute. eexists. split; reflexivity. }
  destruct E as (info & E & Hname). exists info. split; [|exact Hname].
  apply (uri_match_returns_registered_id m (new_consolidator "P2") "t1"
           "spotify:track:1" "Song A - Remastered" "Somebody Else"
           "song_945458a55977" info empty_track (not_fetched empty_track)).
  - reflexivity.
  - vm_compute. reflexivity.
  - exact E.
  - discriminate.
Defined.




(** ** save_consolidated_metadata *)

Lemma uniq_update {V : Type} (e : dict V) : forall d,
  Dict.uniq d = true -> Dict.uniq (Dict.update d e) = true.
Proof.
  unfold Dict.update. induction e as [|[k v] e IH]; intros d H; simpl;
    [assumption|].
  apply IH. now apply DictFacts.uniq_set.
Qed.

Lemma get_map_song acc entry id :
  Dict.get (map_song acc entry) id =
  if String.eqb (fst entry) id
  then match playlists (snd entry) with
       | [] => Dict.get acc id
       | _ :: _ => Some (playlists (snd entry))
       end
  else Dict.get acc id.
Proof.
  unfold map_song. destruct (playlists (snd entry)) eqn:E.
  - now destruct (String.eqb (fst entry) id).
  - now rewrite DictFacts.get_set.
Qed.

Lemma get_fold_map_song (songs : dict song_info) : forall acc id,
  NoDup (Dict.keys songs) ->
  Dict.get (fold_left map_song songs acc) id =
  match Dict.get songs id with
  | Some info =>
      match playlists info with
      | [] => Dict.get acc id
      | _ :: _ => Some (playlists info)
      end
  | None => Dict.get acc id
  end.
Proof.
  induction songs as [|[k v] songs IH]; intros acc id Hnd; simpl; [reflexivity|].
  inversion Hnd as [|? ? Hk Hnd']; subst.
  rewrite IH by assumption. rewrite get_map_song. simpl.
  destruct (String.eqb_spec k id) as [->|Hne]; [|reflexivity].
  apply DictFacts.get_None in Hk. now rewrite Hk.
Qed.

(** C5, as the specification states it, fails: an entry of the mapping file
    for an id that is no song stays in the mapping that is saved. *)
Lemma mapping_rebuilt_on_save_fails : ~ mapping_rebuilt_on_save.
Proof.
  intros H.
  destruct (H new_manager (new_consolidator "P1")
              {| songs_database := None; playlists_database := None;
                 song_playlist_mapping := Some [("song_0123456789ab", ["Old"])] |})
    as [H1 _].
  destruct (H1 "song_0123456789ab" ["Old"] eq_refl) as (info & Hget & _).
  discriminate Hget.
Qed.

(** C5, amended: after a save, every saved song with playlists has its
    playlists as its entry in the saved mapping; every entry of the saved
    mapping is the list of playlists of a saved song, or is an entry of the
    mapping file read by the save, kept as it was, for an id that is no saved
    song with playlists; when the save finds no mapping file, the saved
    mapping agrees with the saved songs both ways. *)
Theorem mapping_follows_songs_on_save :
  forall (m : SmartSongManager) (c : PlaylistConsolidator) (d : disk),
    Dict.uniq (table (songs_database d)) = true ->
    let d' := save_consolidated_metadata m c d in
    let songs := table (songs_database d') in
    let mapping := table (song_playlist_mapping d') in
    (forall id info,
        Dict.get songs id = Some info -> playlists info <> [] ->
        Dict.get mapping id = Some (playlists info)) /\
    (forall id pls,
        Dict.get mapping id = Some pls ->
        (exists info,
            Dict.get songs id = Some info /\ playlists info = pls /\ pls <> []) \/
        ((forall info, Dict.get songs id = Some info -> playlists info = []) /\
         Dict.get (table (song_playlist_mapping d)) id = Some pls)) /\
    (song_playlist_mapping d = None -> mapping_consistent d').
Proof.
  intros m c d Hu d' songs mapping.
  assert (Hnd : NoDup (Dict.keys songs)).
  { apply DictFacts.uniq_NoDup. unfold songs, d'. simpl. now apply uniq_update. }
  assert (Hget : forall id,
             Dict.get mapping id =
             match Dict.get songs id with
             | Some info =>
                 match playlists info with
                 | [] => Dict.get (table (song_playlist_mapping d)) id
                 | _ :: _ => Some (playlists info)
                 end
             | None => Dict.get (table (song_playlist_mapping d)) id
             end).
  { intros id. unfold mapping, d'. simpl. now apply get_fold_map_song. }
  assert (H1 : forall id info,
             Dict.get songs id = Some info -> playlists info <> [] ->
             Dict.get mapping id = Some (playlists info)).
  { intros id info Hs Hp. rewrite Hget, Hs.
    destruct (playlists info); [contradiction|reflexivity]. }
  assert (H2 : forall id pls,
             Dict.get mapping id = Some pls ->
             (exists info,
                 Dict.get songs id = Some info /\ playlists info = pls /\ pls <> []) \/
             ((forall info, Dict.get songs id = Some info -> playlists info = []) /\
              Dict.get (table (song_playlist_mapping d)) id = Some pls)).
  { intros id pls Hm. rewrite Hget in Hm.
    destruct (Dict.get songs id) as [info|] eqn:Hs.
    - destruct (playlists info) as [|p ps] eqn:Hp.
      + right. split; [|assumption]. intros info' [= <-]. assumption.
      + left. exists info. injection Hm as <-. rewrite Hp.
        repeat split. discriminate.
    - right. split; [|assumption]. discriminate. }
  split; [exact H1|]. split; [exact H2|].
  intros Hnone. split.
  - intros id pls Hm. destruct (H2 id pls Hm) as [(info & Hs & Hp & _)|[_ Hold]].
    + now exists info.
    + rewrite Hnone in Hold. discriminate Hold.
  - exact H1.
Qed.

Lemma mapping_follows_songs_on_save_witness :
  let m := ingest not_fetched new_manager ("P1", "t0")
             (track_item "Song A" "spotify:track:1" "Artist X") in
  let d := {| songs_database := None; playlists_database := None;
              song_playlist_mapping := Some [("song_0123456789ab", ["Old"])] |} in
  let d' := save_consolidated_metadata m (new_consolidator "P1") d in
  Dict.get (table (song_playlist_mapping d')) "song_945458a55977" = Some ["P1"].
Proof.
  cbv zeta.
  set (m := ingest not_fetched new_manager ("P1", "t0")
              (track_item "Song A" "spotify:track:1" "Artist X")).
  set (d := {| songs_database := None; playlists_database := None;
               song_playlist_mapping := Some [("song_0123456789ab", ["Old"])] |}).
  assert (E : exists info,
             Dict.get (table (songs_database
                                (save_consolidated_metadata m (new_consolidator "P1") d)))
               "song_945458a55977" = Some info /\
             playlists info = ["P1"]).
  { vm_compute. eexists. split; reflexivity. }
  destruct E as (info & E & Hp). rewrite <- Hp.
  apply (proj1 (mapping_follows_songs_on_save m (new_consolidator "P1") d eq_refl)
           "song_945458a55977" info E).
  rewrite Hp. discriminate.
Defined.

(** ** The download controller *)

Lemma ctl_step_refl c : ctl_step c c.
Proof. split; [reflexivity|lia]. Qed.

Lemma ctl_step_trans c1 c2 c3 : ctl_step c1 c2 -> ctl_step c2 c3 -> ctl_step c1 c3.
Proof. intros [H1 H2] [H3 H4]. split; [congruence|lia]. Qed.

Lemma is_cancelled_inv c stop c' :
  is_cancelled c = (stop, c') ->
  ctl_step c c' /\ reads c' = S (reads c) /\
  (cancelled_from c = None -> stop = false) /\
  (stop = true <-> exists n, cancelled_from c = Some n /\ n <= reads c).
Proof.
  unfold is_cancelled. intros [= <- <-]. simpl.
  split; [split; [reflexivity|simpl; lia]|]. split; [reflexivity|].
  destruct (cancelled_from c) as [n|].
  - split; [discriminate|]. rewrite Nat.leb_le. split.
    + intros H. now exists n.
    + now intros (n' & [= <-] & H).
  - split; [reflexivity|]. split; [discriminate|]. now intros (n & [=] & _).
Qed.

Lemma check_pause_inv c go c' :
  check_pause c = (go, c') ->
  ctl_step c c' /\ reads c' = S (reads c) /\
  (cancelled_from c = None -> go = true) /\
  (go = false <-> exists n, cancelled_from c = Some n /\ n <= reads c).
Proof.
  unfold check_pause. destruct (is_cancelled c) as [stop c1] eqn:E.
  intros [= <- <-]. apply is_cancelled_inv in E as (H1 & H2 & H3 & H4).
  repeat split; try apply H1; try assumption.
  - intros H. now rewrite H3.
  - intros H. apply H4. now destruct stop.
  - intros H. apply H4 in H. now rewrite H.
Qed.

Ltac step_check E :=
  match goal with
  | |- context [check_pause ?c] =>
      let go := fresh "go" in let c' := fresh "c" in
      destruct (check_pause c) as [go c'] eqn:E;
      pose proof (check_pause_inv _ _ _ E) as (? & ? & ? & ?)
  | |- context [is_cancelled ?c] =>
      let stop := fresh "stop" in let c' := fresh "c" in
      destruct (is_cancelled c) as [stop c'] eqn:E;
      pose proof (is_cancelled_inv _ _ _ E) as (? & ? & ? & ?)
  end.

Lemma fetch_ok_here t ctl c query st error filename title :
  ctl_step ctl c -> (cancelled_from ctl = None -> st <> cancelled) ->
  fetch_ok t ctl (mk_result t query st error filename title, c).
Proof. intros H1 H2. now repeat split; try apply H1. Qed.

Lemma fetch_ok_later t ctl c out :
  ctl_step ctl c -> fetch_ok t c out -> fetch_ok t ctl out.
Proof.
  intros H (H1 & H2 & H3). split; [now apply (ctl_step_trans _ c)|].
  split; [assumption|]. intros Hn. apply H3. destruct H as [-> _]. exact Hn.
Qed.

Lemma download_attempts_ok e t query base n : forall k err title ctl,
  fetch_ok t ctl (download_attempts e t query base n k err title ctl).
Proof.
  induction n as [|n IH]; intros k err title ctl; cbn [download_attempts].
  - apply fetch_ok_here; [apply ctl_step_refl|discriminate].
  - step_check E1. destruct go; cbn [negb].
    + apply (fetch_ok_later _ _ c); [assumption|].
      destruct (ytdlp e query k); try apply IH;
        step_check E2; destruct go; cbn [negb];
        try (apply (fetch_ok_later _ _ c0); [assumption|apply IH]);
        try (apply fetch_ok_here; [assumption|]);
        try discriminate;
        intros Hn; match goal with H : _ -> false = true |- _ =>
                     specialize (H Hn); discriminate H end.
    + apply fetch_ok_here; [assumption|].
      intros Hn. match goal with H : _ -> false = true |- _ =>
                     specialize (H Hn); discriminate H end.
Qed.

Lemma search_and_download_ok e t ctl :
  fetch_ok t ctl (search_and_download_audio_smart e t ctl).
Proof.
  unfold search_and_download_audio_smart.
  step_check E1. destruct go; cbn [negb].
  - apply (fetch_ok_later _ _ c); [assumption|].
    destruct (skip_download t && consolidated_song_exists e (song_id t)).
    { apply fetch_ok_here; [apply ctl_step_refl|discriminate]. }
    destruct (validate_track_data (track_name t) (artists_string t)) as [v reason].
    destruct (negb v).
    { apply fetch_ok_here; [apply ctl_step_refl|discriminate]. }
    destruct (negb _ || _).
    { apply fetch_ok_here; [apply ctl_step_refl|discriminate]. }
    apply download_attempts_ok.
  - apply fetch_ok_here; [assumption|].
    intros Hn. match goal with H : _ -> false = true |- _ =>
                     specialize (H Hn); discriminate H end.
Qed.

(** ** The loop over the tracks *)

Lemma download_track_spec e approved track s ctl :
  exists r,
    download_log (fst (download_track e approved track s ctl)) = download_log s ++ [r] /\
    r_metadata r = track /\
    (snd (download_track e approved track s ctl) = false <-> r_status r = cancelled) /\
    ctl_step ctl (ls_controller (fst (download_track e approved track s ctl))) /\
    (cancelled_from ctl = None -> r_status r <> cancelled) /\
    (r_status r = cancelled ->
     0 < cancelled_downloads (fst (download_track e approved track s ctl))) /\
    (ls_manager (fst (download_track e approved track s ctl)),
     ls_consolidator (fst (download_track e approved track s ctl))) =
    add_song_to_playlist (now e) (ls_manager s) (ls_consolidator s)
      (song_id track) track r.
Proof.
  unfold download_track.
  destruct (skip_download track).
  - eexists. cbn. destruct (add_song_to_playlist _ _ _ _ _ _) eqn:E. cbn.
    repeat split; try reflexivity; try apply ctl_step_refl;
      try (intros H; discriminate H); try discriminate; try (symmetry; exact E).
  - destruct approved.
    + pose proof (search_and_download_ok e track ctl) as (H1 & H2 & H3).
      destruct (search_and_download_audio_smart e track ctl) as [r c]. cbn in *.
      exists r. destruct (add_song_to_playlist _ _ _ _ _ _) eqn:E. cbn.
      repeat split; try assumption; try apply H1; try (symmetry; exact E).
      * destruct (r_status r); congruence.
      * destruct (r_status r); congruence.
      * intros ->. lia.
    + eexists. cbn. destruct (add_song_to_playlist _ _ _ _ _ _) eqn:E. cbn.
      repeat split; try reflexivity; try apply ctl_step_refl;
      try (intros H; discriminate H); try discriminate; try (symmetry; exact E).
Qed.

Lemma download_loop_spec e approved tracks : forall s,
  let s' := download_loop e approved tracks s in
  exists new,
    download_log s' = download_log s ++ new /\
    map r_metadata new = firstn (List.length new) tracks /\
    (forall before r after,
        new = before ++ r :: after -> r_status r = cancelled ->
        after = [] /\ 0 < cancelled_downloads s') /\
    ctl_step (ls_controller s) (ls_controller s') /\
    (cancelled_from (ls_controller s) = None ->
     List.length new = List.length tracks) /\
    (ls_manager s', ls_consolidator s') =
      upserts (now e) new (ls_manager s, ls_consolidator s).
Proof.
  induction tracks as [|track rest IH]; intros s; cbn [download_loop].
  - exists []. rewrite app_nil_r.
    split; [reflexivity|]. split; [reflexivity|].
    split; [intros before r after H; now destruct before|].
    split; [apply ctl_step_refl|]. now split.
  - assert (Hstop : forall c, ctl_step (ls_controller s) c ->
              exists new : list download_result,
                download_log (with_controller s c) = download_log s ++ new /\
                map r_metadata new = firstn (List.length new) (track :: rest) /\
                (forall before r after,
                    new = before ++ r :: after -> r_status r = cancelled ->
                    after = [] /\ 0 < cancelled_downloads (with_controller s c)) /\
                ctl_step (ls_controller s) (ls_controller (with_controller s c)) /\
                (cancelled_from (ls_controller s) = None -> False ->
                 List.length new = List.length (track :: rest)) /\
                (ls_manager (with_controller s c),
                 ls_consolidator (with_controller s c)) =
                  upserts (now e) new (ls_manager s, ls_consolidator s)).
    { intros c Hc. exists []. cbn. rewrite app_nil_r.
      split; [reflexivity|]. split; [reflexivity|].
      split; [intros before r after H; now destruct before|].
      split; [exact Hc|]. split; [contradiction|reflexivity]. }
    step_check E1. destruct stop.
    { destruct (Hstop c) as (new & H3 & H4 & H5 & H6 & H7 & H8); [assumption|].
      exists new. split; [assumption|]. split; [assumption|].
      split; [assumption|]. split; [assumption|]. split; [|assumption].
      intros Hn. match goal with H : _ -> true = false |- _ =>
                   specialize (H Hn); discriminate H end. }
    step_check E2. destruct go; cbn [negb].
    2:{ destruct (Hstop c0) as (new & H7 & H8 & H9 & H10 & H11 & H12).
        { now apply (ctl_step_trans _ c). }
        exists new. split; [assumption|]. split; [assumption|].
        split; [assumption|]. split; [assumption|]. split; [|assumption].
        intros Hn.
        assert (Hc : cancelled_from c = None).
        { match goal with H : ctl_step (ls_controller s) c |- _ =>
            destruct H as [-> _] end. exact Hn. }
        match goal with H : cancelled_from c = None -> false = true |- _ =>
          specialize (H Hc); discriminate H end. }
    destruct (download_track_spec e approved track s c0)
      as (r & Hlog & Hmeta & Hcont & Hctl & Hnc & Hcount & Hmc).
    destruct (download_track e approved track s c0) as [s1 continue].
    cbn [fst snd] in *.
    assert (Hc0 : ctl_step (ls_controller s) c0) by now apply (ctl_step_trans _ c).
    destruct continue.
    + destruct (IH s1) as (new & H7 & H8 & H9 & H10 & H11 & H12).
      exists (r :: new). cbn [List.length firstn map].
      split; [rewrite H7, Hlog, <- app_assoc; reflexivity|].
      split; [now rewrite Hmeta, H8|].
      split.
      { intros before r' after Heq Hr'. destruct before as [|r0 before].
        - injection Heq as <- <-. apply Hcont in Hr'. discriminate Hr'.
        - injection Heq as <- Heq. now apply (H9 before r' after). }
      split; [apply (ctl_step_trans _ c0); [assumption|];
              now apply (ctl_step_trans _ (ls_controller s1))|].
      split.
      { intros Hn. f_equal. apply H11.
        destruct Hctl as [-> _]. destruct Hc0 as [-> _]. exact Hn. }
      rewrite H12. unfold upserts. cbn [fold_left fst snd].
      rewrite Hmeta, <- Hmc. reflexivity.
    + exists [r]. cbn [List.length firstn map].
      split; [assumption|]. split; [now rewrite Hmeta|].
      split.
      { intros before r' after Heq Hr'. destruct before as [|r0 before].
        - injection Heq as <- <-. split; [reflexivity|]. now apply Hcount.
        - injection Heq as _ Heq. now destruct before. }
      split; [now apply (ctl_step_trans _ c0)|].
      split.
      { intros Hn. exfalso. apply Hnc.
        - destruct Hc0 as [-> _]. exact Hn.
        - now apply Hcont. }
      unfold upserts. cbn [fold_left fst snd]. rewrite Hmeta, <- Hmc. reflexivity.
Qed.

(** ** process_single_playlist *)

Lemma process_items_spec e name url m d approved ctl items :
  let o := process_items e name url m d approved ctl items in
  let tracks := tracks_of m (now e) items in
  (tracks = [] /\
   exists msg,
     msg <> "" /\ jo_result o = error_result msg /\ jo_download_log o = [] /\
     jo_manager o = m /\ jo_disk o = d /\ jo_controller o = ctl) \/
  (tracks <> [] /\
   exists c' n,
     jr_error (jo_result o) = None /\
     jr_tracks_count (jo_result o) = List.length tracks /\
     map r_metadata (jo_download_log o) =
       firstn (List.length (jo_download_log o)) tracks /\
     (forall before r after,
         jo_download_log o = before ++ r :: after -> r_status r = cancelled ->
         after = [] /\ 0 < jr_cancelled_count (jo_result o)) /\
     ctl_step ctl (jo_controller o) /\
     (cancelled_from ctl = None ->
      List.length (jo_download_log o) = List.length tracks) /\
     (jo_manager o, c') =
       upserts (now e) (jo_download_log o) (m, new_consolidator name) /\
     jo_disk o =
       save_consolidated_metadata (jo_manager o)
         (set_playlist_metadata (now e) c' (List.length tracks) n url) d).
Proof.
  cbv zeta. unfold process_items. rewrite extract_enhanced_track_info_eq.
  destruct items as [|item items].
  { left. split; [reflexivity|]. eexists. cbn.
    repeat split; try reflexivity. discriminate. }
  destruct (tracks_of m (now e) (item :: items)) as [|t tracks] eqn:Et.
  { left. split; [reflexivity|]. eexists. cbn.
    repeat split; try reflexivity. discriminate. }
  right. split; [discriminate|].
  match goal with |- context [download_loop e approved (t :: tracks) ?s0] =>
    destruct (download_loop_spec e approved (t :: tracks) s0)
      as (new & H1 & H2 & H3 & H4 & H5 & H6);
    set (s' := download_loop e approved (t :: tracks) s0) in *
  end.
  cbn [download_log ls_controller ls_manager ls_consolidator app] in *.
  exists (ls_consolidator s'), (successful_downloads s').
  cbn [jo_result jr_error jr_tracks_count jo_download_log jr_cancelled_count
       jo_controller jo_manager jo_disk].
  rewrite H1.
  split; [reflexivity|]. split; [reflexivity|]. split; [assumption|].
  split; [assumption|]. split; [assumption|]. split; [assumption|].
  split; [assumption|reflexivity].
Qed.

Lemma job_failed_spec msg m d ctl c skips :
  msg <> "" -> ctl_step ctl c ->
  exists msg',
    msg' <> "" /\ jo_result (job_failed msg m d c skips) = error_result msg' /\
    jo_download_log (job_failed msg m d c skips) = [] /\
    jo_manager (job_failed msg m d c skips) = m /\
    jo_disk (job_failed msg m d c skips) = d /\
    ctl_step ctl (jo_controller (job_failed msg m d c skips)).
Proof. intros H1 H2. exists msg. now repeat split; try apply H2. Qed.

Lemma process_single_playlist_spec e name url m d approved ctl :
  let o := process_single_playlist e name url m d approved ctl in
  (exists msg,
      msg <> "" /\ jo_result o = error_result msg /\ jo_download_log o = [] /\
      jo_manager o = m /\ jo_disk o = d /\ ctl_step ctl (jo_controller o)) \/
  (exists requests ctl2,
      driver_requests e url = Ok requests /\ ctl_step ctl ctl2 /\
      o = process_items e name url m d approved ctl2 (capture_requests requests)).
Proof.
  cbv zeta. unfold process_single_playlist.
  step_check E1. destruct stop.
  { left. apply job_failed_spec; [discriminate|assumption]. }
  destruct (driver_requests e url) as [requests|ex].
  2:{ left. apply job_failed_spec; [discriminate|assumption]. }
  step_check E2. destruct stop.
  { left. apply job_failed_spec; [discriminate|].
    now apply (ctl_step_trans _ c). }
  right. exists requests, c0. split; [reflexivity|].
  split; [now apply (ctl_step_trans _ c)|reflexivity].
Qed.

Lemma process_single_playlist_full e name url m d approved ctl requests :
  cancelled_from ctl = None ->
  driver_requests e url = Ok requests ->
  exists ctl2,
    cancelled_from ctl2 = None /\
    process_single_playlist e name url m d approved ctl =
    process_items e name url m d approved ctl2 (capture_requests requests).
Proof.
  intros Hn Hr. unfold process_single_playlist. rewrite Hr.
  step_check E1. rewrite (H1 Hn).
  assert (Hc : cancelled_from c = None) by (destruct H as [-> _]; exact Hn).
  step_check E2. rewrite (H5 Hc). exists c0. split; [|reflexivity].
  destruct H3 as [-> _]. exact Hc.
Qed.

Lemma process_single_playlist_ctl e name url m d approved ctl :
  ctl_step ctl (jo_controller (process_single_playlist e name url m d approved ctl)).
Proof.
  destruct (process_single_playlist_spec e name url m d approved ctl)
    as [(msg & _ & _ & _ & _ & _ & H)|(requests & ctl2 & _ & H & ->)];
    [assumption|].
  apply (ctl_step_trans _ ctl2); [assumption|].
  destruct (process_items_spec e name url m d approved ctl2 (capture_requests requests))
    as [(_ & msg & _ & _ & _ & _ & _ & ->)|(_ & c' & n & _ & _ & _ & _ & H' & _)];
    [apply ctl_step_refl|assumption].
Qed.

Lemma process_single_playlist_error e name url m d approved ctl :
  let o := process_single_playlist e name url m d approved ctl in
  (exists msg, msg <> "" /\ jr_error (jo_result o) = Some msg /\
               jo_download_log o = []) \/
  jr_error (jo_result o) = None.
Proof.
  cbv zeta.
  destruct (process_single_playlist_spec e name url m d approved ctl)
    as [(msg & Hm & -> & Hl & _)|(requests & ctl2 & _ & _ & ->)].
  { left. now exists msg. }
  destruct (process_items_spec e name url m d approved ctl2 (capture_requests requests))
    as [(_ & msg & Hm & -> & Hl & _)|(_ & c' & n & H & _)].
  - left. now exists msg.
  - now right.
Qed.

(** ** run_batch_processing_mode *)

Lemma run_job_spec e approval i playlist s ctl :
  let o := process_single_playlist e (job_name playlist) (job_url playlist)
             (bs_manager s) (bs_disk s) approval ctl in
  let s' := fst (run_job e approval i playlist s ctl) in
  let b := bs_batch s in
  exists tracks_count success_count err,
    bs_batch s' =
      mark_playlist_completed (now e) b tracks_count success_count err /\
    bs_events s' =
      bs_events s ++ processed i ::
      (if (current_playlist_index b <? List.length (batch_playlists b))%nat
       then [marked (current_playlist_index b) (completion_status err)]
       else []) /\
    ctl_step (jo_controller o) (bs_controller s') /\
    bs_manager s' = jo_manager o /\ bs_disk s' = jo_disk o /\
    ((exists msg, msg <> "" /\ jr_error (jo_result o) = Some msg /\ err = Some msg /\
                  snd (run_job e approval i playlist s ctl) = true) \/
     (jr_error (jo_result o) = None /\
      ((0 < jr_cancelled_count (jo_result o) /\ err = Some "Cancelled by user" /\
        snd (run_job e approval i playlist s ctl) = false) \/
       (jr_cancelled_count (jo_result o) = 0 /\
        is_cancelled (jo_controller o) = (true, bs_controller s') /\
        err = Some "Cancelled by user" /\
        snd (run_job e approval i playlist s ctl) = false) \/
       (jr_cancelled_count (jo_result o) = 0 /\
        is_cancelled (jo_controller o) = (false, bs_controller s') /\
        err = None /\
        snd (run_job e approval i playlist s ctl) = true)))).
Proof.
  cbv zeta. unfold run_job.
  destruct (process_single_playlist_error e (job_name playlist) (job_url playlist)
              (bs_manager s) (bs_disk s) approval ctl) as [(msg & Hm & He & _)|He];
    rewrite He.
  - destruct msg as [|ch msg]; [contradiction|]. exists 0, 0, (Some (String ch msg)).
    cbn. split; [reflexivity|]. split; [reflexivity|].
    split; [apply ctl_step_refl|]. split; [reflexivity|]. split; [reflexivity|].
    left. exists (String ch msg). now repeat split.
  - destruct (0 <? jr_cancelled_count _)%nat eqn:Ec.
    + eexists _, _, (Some "Cancelled by user"). cbn.
      split; [reflexivity|]. split; [reflexivity|].
      split; [apply ctl_step_refl|]. split; [reflexivity|]. split; [reflexivity|].
      right. split; [reflexivity|]. left. apply Nat.ltb_lt in Ec. now repeat split.
    + apply Nat.ltb_ge in Ec.
      assert (Ec' : jr_cancelled_count
                (jo_result (process_single_playlist e (job_name playlist)
                   (job_url playlist) (bs_manager s) (bs_disk s) approval ctl)) = 0)
        by lia.
      step_check E. destruct stop.
      * eexists _, _, (Some "Cancelled by user"). cbn.
        split; [reflexivity|]. split; [reflexivity|]. split; [assumption|].
        split; [reflexivity|]. split; [reflexivity|].
        right. split; [reflexivity|]. right. left. now repeat split.
      * eexists _, _, None. cbn.
        split; [reflexivity|]. split; [reflexivity|]. split; [assumption|].
        split; [reflexivity|]. split; [reflexivity|].
        right. split; [reflexivity|]. right. right. now repeat split.
Qed.

Lemma nth_error_update_nth {A : Type} (f : A -> A) (l : list A) : forall i x,
  nth_error l i = Some x -> nth_error (update_nth i f l) i = Some (f x).
Proof.
  induction l as [|y l IH]; intros [|i] x H; simpl in *; try discriminate.
  - now injection H as ->.
  - now apply IH.
Qed.

Lemma nth_error_update_nth_other {A : Type} (f : A -> A) (l : list A) : forall i k,
  i <> k -> nth_error (update_nth i f l) k = nth_error l k.
Proof.
  induction l as [|y l IH]; intros [|i] [|k] H; simpl; try reflexivity.
  - contradiction.
  - apply IH. congruence.
Qed.

Lemma length_update_nth {A : Type} (f : A -> A) (l : list A) : forall i,
  List.length (update_nth i f l) = List.length l.
Proof. induction l as [|y l IH]; intros [|i]; simpl; congruence. Qed.




(** C8, as the specification states it, fails: the job cancelled during the
    fetch of its first track is recorded with the status failed. *)
Lemma cancellation_is_a_distinct_status_fails : ~ cancellation_is_a_distinct_status.
Proof.
  intros H.
  pose (ctl := {| cancelled_from := Some 4; reads := 2 |}).
  pose (playlist := playlist_entry "t" "P1" "https://open.spotify.com/playlist/1").
  assert (Hc : cancelled_during ctl
                 (bs_controller (fst (run_job two_tracks_env true 0 playlist
                                        one_job_state ctl)))).
  { exists 4. split; [reflexivity|]. vm_compute. lia. }
  assert (Hin : In (marked 0 failed)
                  (bs_events (fst (run_job two_tracks_env true 0 playlist
                                     one_job_state ctl)))).
  { vm_compute. right. now left. }
  destruct (H two_tracks_env true 0 playlist one_job_state ctl 0 failed Hc
              eq_refl Hin) as [_ Habs].
  exact (Habs eq_refl).
Qed.

(** C8, amended: a job during whose processing the cancellation is seen is
    recorded with the status failed, never completed; its error text is the
    error of its processing when there is one ("Batch process cancelled"
    when the cancellation is seen around the capture) and "Cancelled by
    user" otherwise, and there is no status of its own for a cancellation. *)
Theorem cancelled_job_is_marked_failed :
  forall (e : env) (approval : bool) (i : nat) (playlist : CaptureJob)
         (s : batch_state) (ctl : DownloadController),
    let o := process_single_playlist e (job_name playlist) (job_url playlist)
               (bs_manager s) (bs_disk s) approval ctl in
    let s' := fst (run_job e approval i playlist s ctl) in
    let b := bs_batch s in
    cancelled_during ctl (bs_controller s') ->
    (exists tracks_count success_count err,
        bs_batch s' =
          mark_playlist_completed (now e) b tracks_count success_count (Some err) /\
        (jr_error (jo_result o) = Some err \/
         (jr_error (jo_result o) = None /\ err = "Cancelled by user"))) /\
    (forall j st,
        In (marked j st) (bs_events s') ->
        In (marked j st) (bs_events s) \/ st = failed) /\
    (forall job,
        nth_error (batch_playlists b) (current_playlist_index b) = Some job ->
        exists job',
          nth_error (batch_playlists (bs_batch s')) (current_playlist_index b)
            = Some job' /\
          status job' = failed /\ job_name job' = job_name job).
Proof.
  intros e approval i playlist s ctl o s' b Hc. subst o s' b.
  destruct (run_job_spec e approval i playlist s ctl)
    as (tc & sc & err & Hb & Hev & Hctl & _ & _ & Hcases).
  set (o := process_single_playlist e (job_name playlist) (job_url playlist)
              (bs_manager s) (bs_disk s) approval ctl) in *.
  set (s' := fst (run_job e approval i playlist s ctl)) in *.
  set (b := bs_batch s) in *.
  assert (Herr : exists msg, err = Some msg /\
                   (jr_error (jo_result o) = Some msg \/
                    (jr_error (jo_result o) = None /\ msg = "Cancelled by user"))).
  { destruct Hcases as [(msg & _ & He & -> & _)
                       |(He & [(_ & -> & _)|[(_ & _ & -> & _)|(_ & Hr & _ & _)]])].
    - exists msg. split; [reflexivity|now left].
    - eexists. split; [reflexivity|now right].
    - eexists. split; [reflexivity|now right].
    - exfalso. destruct Hc as (n & Hn & Hlo & Hhi).
      apply is_cancelled_inv in Hr as (_ & Hreads & _ & Hstop).
      assert (Hjo : ctl_step ctl (jo_controller o))
        by apply process_single_playlist_ctl.
      assert (true = false); [|discriminate].
      symmetry. apply Hstop. exists n. destruct Hjo as [-> _]. split; [assumption|lia]. }
  destruct Herr as (msg & -> & Hmsg).
  split; [now exists tc, sc, msg|]. split.
  - intros j st Hin. rewrite Hev in Hin. apply in_app_or in Hin as [Hin|Hin];
      [now left|right].
    destruct Hin as [Hin|Hin]; [discriminate|].
    destruct (_ <? _)%nat; [|contradiction].
    destruct Hin as [[= _ <-]|[]]. reflexivity.
  - intros job Hjob. rewrite Hb. unfold mark_playlist_completed.
    assert (Hlt : (current_playlist_index b <? List.length (batch_playlists b))%nat = true).
    { apply Nat.ltb_lt. apply nth_error_Some. congruence. }
    rewrite Hlt. cbn [batch_playlists].
    eexists. split; [apply nth_error_update_nth; exact Hjob|]. now split.
Qed.

Lemma cancelled_job_is_marked_failed_witness :
  let ctl := {| cancelled_from := Some 4; reads := 2 |} in
  let playlist := playlist_entry "t" "P1" "https://open.spotify.com/playlist/1" in
  let s' := fst (run_job two_tracks_env true 0 playlist one_job_state ctl) in
  map job_error (batch_playlists (bs_batch s')) = [Some "Cancelled by user"] /\
  exists job',
    nth_error (batch_playlists (bs_batch s')) 0 = Some job' /\
    status job' = failed /\ job_name job' = "P1".
Proof.
  split; [reflexivity|].
  pose (ctl := {| cancelled_from := Some 4; reads := 2 |}).
  pose (playlist := playlist_entry "t" "P1" "https://open.spotify.com/playlist/1").
  assert (Hc : cancelled_during ctl
                 (bs_controller (fst (run_job two_tracks_env true 0 playlist
                                        one_job_state ctl)))).
  { exists 4. split; [reflexivity|]. vm_compute. lia. }
  destruct (cancelled_job_is_marked_failed two_tracks_env true 0 playlist
              one_job_state ctl Hc) as (_ & _ & H).
  exact (H playlist eq_refl).
Defined.

(** ** PlaylistBatch: the batch files and the resumption *)

Lemma persisted_wf b : persisted b -> batch_wf b.
Proof.
  induction 1 as [|now name url b Hb [Hle IH]|now tc sc err b Hb [Hle IH]].
  - split; [apply Nat.le_refl|]. intros [|i] j H; discriminate H.
  - unfold batch_wf, add_playlist. cbn [batch_playlists current_playlist_index].
    rewrite length_app. cbn [List.length]. split; [lia|].
    intros i j Hnth.
    destruct (Nat.lt_ge_cases i (List.length (batch_playlists b))) as [Hi|Hi].
    + rewrite nth_error_app1 in Hnth by assumption. now apply IH.
    + rewrite nth_error_app2 in Hnth by assumption.
      destruct (i - List.length (batch_playlists b)) as [|n] eqn:E.
      * injection Hnth as <-. cbn. split; [lia|reflexivity].
      * destruct n; discriminate Hnth.
  - unfold batch_wf, mark_playlist_completed.
    destruct (_ <? _)%nat eqn:E; [|now split].
    apply Nat.ltb_lt in E. cbn [batch_playlists current_playlist_index].
    rewrite length_update_nth. split; [lia|].
    intros i j Hnth.
    destruct (Nat.eq_dec (current_playlist_index b) i) as [<-|Hne].
    + destruct (nth_error (batch_playlists b) (current_playlist_index b))
        as [j0|] eqn:E0; [|apply nth_error_None in E0; lia].
      rewrite (nth_error_update_nth _ _ _ _ E0) in Hnth. injection Hnth as <-.
      cbn. split; [|lia]. destruct err; discriminate.
    + rewrite nth_error_update_nth_other in Hnth by assumption.
      rewrite (IH i j Hnth). lia.
Qed.

Lemma find_index_spec {A : Type} (p : A -> bool) (l : list A) :
  match find_index p l with
  | Some i =>
      (exists x, nth_error l i = Some x /\ p x = true) /\
      forall k x, k < i -> nth_error l k = Some x -> p x = false
  | None => forall k x, nth_error l k = Some x -> p x = false
  end.
Proof.
  induction l as [|y l IH]; cbn [find_index].
  - intros [|k] x H; discriminate H.
  - destruct (p y) eqn:E.
    + split; [now exists y|]. intros k x Hk. lia.
    + destruct (find_index p l) as [i|]; cbn [option_map].
      * destruct IH as [(x & Hx & Hp) IH]. split; [now exists x|].
        intros [|k] x' Hk Hnth; cbn in Hnth.
        -- now injection Hnth as <-.
        -- apply (IH k); [lia|assumption].
      * intros [|k] x Hnth; cbn in Hnth.
        -- now injection Hnth as <-.
        -- now apply (IH k).
Qed.

Lemma is_pending_true j : is_pending j = true <-> status j = pending.
Proof. unfold is_pending. destruct (status j); split; congruence. Qed.

Lemma first_pending_wf b i0 :
  batch_wf b -> first_pending b = Some i0 ->
  i0 = current_playlist_index b /\ i0 < List.length (batch_playlists b).
Proof.
  intros [Hle Hwf] Hf. unfold first_pending in Hf.
  pose proof (find_index_spec is_pending (batch_playlists b)) as Hs.
  rewrite Hf in Hs. destruct Hs as [(x & Hx & Hp) Hbefore].
  assert (Hlt : i0 < List.length (batch_playlists b))
    by (apply nth_error_Some; congruence).
  split; [|assumption].
  apply is_pending_true in Hp. apply (Hwf i0 x Hx) in Hp.
  destruct (Nat.eq_dec i0 (current_playlist_index b)) as [|Hne]; [assumption|].
  exfalso.
  destruct (nth_error (batch_playlists b) (current_playlist_index b))
    as [y|] eqn:Ey; [|apply nth_error_None in Ey; lia].
  assert (Hy : is_pending y = false)
    by (apply (Hbefore (current_playlist_index b) y); [lia|assumption]).
  assert (Hy' : status y = pending)
    by (apply (Hwf (current_playlist_index b) y Ey); lia).
  apply is_pending_true in Hy'. congruence.
Qed.

Lemma no_pending_wf b :
  batch_wf b -> existsb is_pending (batch_playlists b) = true ->
  current_playlist_index b < List.length (batch_playlists b).
Proof.
  intros [Hle Hwf] He. apply existsb_exists in He as (j & Hin & Hp).
  apply In_nth_error in Hin as (i & Hi).
  apply is_pending_true in Hp. apply (Hwf i j Hi) in Hp.
  assert (i < List.length (batch_playlists b)) by (apply nth_error_Some; congruence).
  lia.
Qed.

Lemma batch_loop_resumes e approval : forall k i s,
  ready i k s ->
  exists evs,
    bs_events (batch_loop e approval (seq i k) s) = bs_events s ++ evs /\
    resumed_from i evs /\
    (forall x, In (processed x) evs -> i <= x < i + k) /\
    (cancelled_from (bs_controller s) = None -> 0 < k -> evs <> []).
Proof.
  induction k as [|k IH]; intros i s (Hcur & Hlen & Hpend).
  { exists []. cbn. rewrite app_nil_r. split; [reflexivity|]. split; [exact I|].
    split; [intros x []|]. intros _ H. inversion H. }
  assert (Hnone : forall c,
             (cancelled_from (bs_controller s) = None -> False) ->
             exists evs,
               bs_events (with_batch_controller s c) = bs_events s ++ evs /\
               resumed_from i evs /\
               (forall x, In (processed x) evs -> i <= x < i + S k) /\
               (cancelled_from (bs_controller s) = None -> 0 < S k -> evs <> [])).
  { intros c Hc. exists []. cbn. rewrite app_nil_r.
    split; [reflexivity|]. split; [exact I|]. split; [intros x []|].
    intros Hn. now destruct (Hc Hn). }
  cbn [seq batch_loop].
  step_check E1. destruct stop.
  { apply Hnone. intros Hn.
    match goal with H : _ -> true = false |- _ => specialize (H Hn); discriminate H end. }
  destruct (nth_error (batch_playlists (bs_batch s)) i) as [playlist|] eqn:En;
    [|apply nth_error_None in En; lia].
  rewrite (Hpend i playlist (Nat.le_refl i) En).
  step_check E2. destruct go; cbn [negb].
  2:{ apply Hnone. intros Hn.
      assert (Hc : cancelled_from c = None).
      { match goal with H : ctl_step (bs_controller s) c |- _ =>
          destruct H as [-> _] end. exact Hn. }
      match goal with H : cancelled_from c = None -> false = true |- _ =>
        specialize (H Hc); discriminate H end. }
  rewrite Hcur, Nat.ltb_irrefl, andb_false_r. cbn [andb].
  destruct (run_job_spec e approval i playlist s c0)
    as (tc & sc & err & Hb & Hev & _ & _ & _ & _).
  destruct (run_job e approval i playlist s c0) as [s1 continue].
  cbn [fst snd] in Hb, Hev.
  assert (Hlt : (i <? List.length (batch_playlists (bs_batch s)))%nat = true)
    by (apply Nat.ltb_lt; lia).
  rewrite Hcur, Hlt in Hev.
  assert (Hready : ready (S i) k s1).
  { unfold ready. rewrite Hb. unfold mark_playlist_completed.
    rewrite Hcur, Hlt. cbn [batch_playlists current_playlist_index].
    rewrite length_update_nth. split; [reflexivity|]. split; [lia|].
    intros x job Hx Hnth.
    rewrite nth_error_update_nth_other in Hnth by lia.
    apply (Hpend x job); [lia|assumption]. }
  destruct continue.
  - destruct (IH (S i) s1 Hready) as (evs & Hevs & Hres & Hbound & _).
    exists (processed i :: marked i (completion_status err) :: evs).
    split; [rewrite Hevs, Hev, <- app_assoc; reflexivity|].
    split; [cbn; auto|]. split; [|discriminate].
    intros x [[= <-]|[Hx|Hx]]; [lia|discriminate|].
    apply Hbound in Hx. lia.
  - exists [processed i; marked i (completion_status err)].
    split; [assumption|]. split; [cbn; auto|]. split; [|discriminate].
    intros x [[= <-]|[Hx|[]]]; [lia|discriminate].
Qed.

(** C6: on every batch file the program has written, the loop over the jobs
    calls [process_single_playlist] only on jobs whose status in the file is
    pending, never on a completed or failed one; when it processes anything,
    the first job it processes is the first pending job of the file, and the
    entry it then marks is the entry of that job; and it does process that
    job when the cancellation is never seen. *)
Theorem resume_at_first_pending :
  forall (e : env) (approval : bool) (b : PlaylistBatch) (d : disk)
         (ctl : DownloadController),
    persisted b ->
    let s := run_batch_processing_mode e approval b d ctl in
    (forall i,
        In (processed i) (bs_events s) ->
        exists job,
          nth_error (batch_playlists b) i = Some job /\ status job = pending) /\
    (bs_events s = [] \/
     exists i0 st rest,
       first_pending b = Some i0 /\
       bs_events s = processed i0 :: marked i0 st :: rest /\
       resumed_from (S i0) rest) /\
    (forall i0,
        cancelled_from ctl = None -> first_pending b = Some i0 ->
        bs_events s <> []).
Proof.
  intros e approval b d ctl Hp s. subst s.
  pose proof (persisted_wf b Hp) as Hwf.
  unfold run_batch_processing_mode.
  destruct (existsb is_pending (batch_playlists b)) eqn:Hex.
  2:{ cbn [bs_events]. split; [intros i []|]. split; [now left|].
      intros i0 _ Hf. exfalso.
      pose proof (find_index_spec is_pending (batch_playlists b)) as Hs.
      unfold first_pending in Hf. rewrite Hf in Hs.
      destruct Hs as [(x & Hx & Hpx) _].
      assert (existsb is_pending (batch_playlists b) = true); [|congruence].
      apply existsb_exists. exists x. split; [|assumption].
      now apply nth_error_In in Hx. }
  pose proof (no_pending_wf b Hwf Hex) as Hlt.
  set (c := current_playlist_index b) in *.
  set (s0 := {| bs_batch := b; bs_manager := load_existing_database d;
                bs_disk := d; bs_controller := ctl; bs_events := [] |}).
  assert (Hready : ready c (List.length (batch_playlists b) - c) s0).
  { unfold ready, s0. cbn [bs_batch]. split; [reflexivity|]. split; [lia|].
    intros x job Hx Hnth. destruct Hwf as [_ Hwf]. now apply (Hwf x job). }
  destruct (batch_loop_resumes e approval _ _ _ Hready) as (evs & H1 & H2 & H3 & H4).
  cbn [bs_events app] in H1. rewrite H1.
  assert (Hfirst : first_pending b = Some c).
  { destruct (first_pending b) as [i0|] eqn:Hf.
    - destruct (first_pending_wf b i0 Hwf Hf) as [-> _]. reflexivity.
    - exfalso. pose proof (find_index_spec is_pending (batch_playlists b)) as Hs.
      unfold first_pending in Hf. rewrite Hf in Hs.
      apply existsb_exists in Hex as (j & Hin & Hj).
      apply In_nth_error in Hin as (i & Hi). rewrite (Hs i j Hi) in Hj.
      discriminate Hj. }
  split; [|split].
  - intros i Hin. apply H3 in Hin.
    destruct (nth_error (batch_playlists b) i) as [job|] eqn:En;
      [|apply nth_error_None in En; lia].
    exists job. split; [reflexivity|]. destruct Hwf as [_ Hwf].
    apply (Hwf i job En). fold c. lia.
  - destruct evs as [|ev1 evs]; [now left|right].
    destruct ev1 as [i1|]; [|contradiction].
    destruct evs as [|[|j1 st] rest]; try contradiction.
    destruct H2 as (-> & -> & Hrest). now exists c, st, rest.
  - intros i0 Hn _. apply H4; [exact Hn|lia].
Qed.

Lemma resume_at_first_pending_witness :
  let b := add_playlist "t2"
             (mark_playlist_completed "t1"
                (add_playlist "t0" new_batch "Done already" "u1") 3 3 None)
             "Next one" "u2" in
  let s := run_batch_processing_mode two_tracks_env false b empty_disk
             new_controller in
  map status (batch_playlists b) = [completed; pending] /\
  bs_events s = [processed 1; marked 1 completed] /\
  exists job, nth_error (batch_playlists b) 1 = Some job /\ status job = pending.
Proof.
  split; [reflexivity|]. split; [vm_compute; reflexivity|].
  apply (proj1 (resume_at_first_pending two_tracks_env false
           (add_playlist "t2"
              (mark_playlist_completed "t1"
                 (add_playlist "t0" new_batch "Done already" "u1") 3 3 None)
              "Next one" "u2")
           empty_disk new_controller
           (persisted_add _ _ _ _
              (persisted_mark _ _ _ _ _
                 (persisted_add _ _ _ _ persisted_new)))) 1).
  vm_compute. now left.
Defined.

(** ** The song manager across load, upsert and save *)

Lemma load_fold (songs : dict song_info) : forall m,
  fold_left load_song songs m =
  {| existing_songs := Dict.update (existing_songs m) songs;
     uri_to_song_id := fold_left index_uri (map key_meta songs) (uri_to_song_id m);
     name_artist_to_song_id :=
       fold_left index_name (map key_meta songs) (name_artist_to_song_id m) |}.
Proof.
  induction songs as [|[k v] songs IH]; intros m.
  - now destruct m.
  - cbn [fold_left map]. rewrite IH. reflexivity.
Qed.

Lemma load_coherent (songs : dict song_info) :
  Dict.uniq songs = true ->
  existing_songs (fold_left load_song songs new_manager) = songs /\
  coherent (fold_left load_song songs new_manager).
Proof.
  intros Hu. rewrite load_fold. cbn [existing_songs new_manager].
  rewrite DictFacts.update_nil by assumption.
  split; [reflexivity|]. unfold coherent.
  cbn [existing_songs uri_to_song_id name_artist_to_song_id].
  now repeat split.
Qed.

Lemma coherent_load m :
  coherent m -> fold_left load_song (existing_songs m) new_manager = m.
Proof.
  intros (Hu & Hi & Hn). rewrite load_fold. cbn [existing_songs new_manager
    uri_to_song_id name_artist_to_song_id].
  rewrite DictFacts.update_nil by assumption. rewrite <- Hi, <- Hn.
  now destruct m.
Qed.

Lemma key_meta_set (songs : dict song_info) id info info' :
  Dict.get songs id = Some info -> si_metadata info' = si_metadata info ->
  map key_meta (Dict.set songs id info') = map key_meta songs.
Proof.
  intros Hget Hmeta. induction songs as [|[k v] songs IH]; [discriminate|].
  cbn in Hget |- *. destruct (String.eqb_spec k id) as [->|Hne].
  - injection Hget as ->. cbn. unfold key_meta. cbn. now rewrite Hmeta.
  - cbn. now rewrite IH.
Qed.

Lemma add_song_coherent now m c id t r :
  coherent m -> coherent (fst (add_song_to_playlist now m c id t r)).
Proof.
  intros (Hu & Hi & Hn).
  destruct (Dict.get (existing_songs m) id) as [info|] eqn:E.
  - rewrite (add_song_existing now m c id t r info E).
    destruct (PyStr.mem (playlist_name c) (playlists info)); [now repeat split|].
    unfold coherent. cbn [with_songs existing_songs uri_to_song_id
                           name_artist_to_song_id].
    rewrite (key_meta_set _ id info) by (assumption || reflexivity).
    split; [now apply DictFacts.uniq_set|now split].
  - rewrite (add_song_new now m c id t r E).
    unfold coherent. cbn [register_lookup with_songs existing_songs
                           uri_to_song_id name_artist_to_song_id].
    split; [now apply DictFacts.uniq_set|].
    apply DictFacts.get_None in E. rewrite DictFacts.set_notin by assumption.
    rewrite map_app, !fold_left_app. cbn [map fold_left].
    rewrite <- Hi, <- Hn. now split.
Qed.

Lemma load_index_sound (songs : dict song_info) : forall m,
  index_sound m -> index_sound (fold_left load_song songs m).
Proof.
  induction songs as [|[k v] songs IH]; intros m Hm; [assumption|].
  cbn [fold_left]. apply IH. intros key X.
  unfold load_song, register_lookup, register_uri, register_name.
  cbn [existing_songs uri_to_song_id name_artist_to_song_id].
  rewrite DictFacts.contains_set. intros [H|H].
  - destruct (PyStr.truthy (track_uri (si_metadata v))).
    + rewrite DictFacts.get_set in H.
      destruct (String.eqb_spec (track_uri (si_metadata v)) key).
      * injection H as <-. now rewrite String.eqb_refl.
      * rewrite (Hm key X) by now left. apply orb_true_r.
    + rewrite (Hm key X) by now left. apply orb_true_r.
  - destruct (name_artist_key _ _) as [nk|].
    + rewrite DictFacts.get_set in H.
      destruct (String.eqb_spec nk key).
      * injection H as <-. now rewrite String.eqb_refl.
      * rewrite (Hm key X) by now right. apply orb_true_r.
    + rewrite (Hm key X) by now right. apply orb_true_r.
Qed.

Lemma load_existing_database_spec d :
  Dict.uniq (table (songs_database d)) = true ->
  existing_songs (load_existing_database d) = table (songs_database d) /\
  coherent (load_existing_database d) /\
  index_sound (load_existing_database d).
Proof.
  intros Hu. unfold load_existing_database.
  destruct (songs_database d) as [songs|]; cbn [table] in *.
  - destruct (load_coherent songs Hu) as [H1 H2]. split; [assumption|].
    split; [assumption|]. apply load_index_sound. intros k X [H|H]; discriminate H.
  - split; [reflexivity|]. split; [now repeat split|].
    intros k X [H|H]; discriminate H.
Qed.

Lemma mem_app x l l' : PyStr.mem x (l ++ l') = PyStr.mem x l || PyStr.mem x l'.
Proof. apply existsb_app. Qed.

Lemma mem_last x l : PyStr.mem x (l ++ [x]) = true.
Proof. rewrite mem_app. cbn. rewrite String.eqb_refl. apply orb_true_r. Qed.

Lemma add_song_playlist_name now m c id t r :
  playlist_name (snd (add_song_to_playlist now m c id t r)) = playlist_name c.
Proof.
  unfold add_song_to_playlist. cbn [snd].
  now destruct (PyStr.mem id (playlist_songs c)).
Qed.

Lemma add_song_noop now m c id t r :
  has_playlist (playlist_name c) m id ->
  fst (add_song_to_playlist now m c id t r) = m.
Proof.
  intros (info & Hget & Hmem).
  now rewrite (add_song_existing now m c id t r info Hget), Hmem.
Qed.

Lemma add_song_has_playlist now m c id t r :
  has_playlist (playlist_name c) (fst (add_song_to_playlist now m c id t r)) id.
Proof.
  destruct (Dict.get (existing_songs m) id) as [info|] eqn:E.
  - rewrite (add_song_existing now m c id t r info E).
    destruct (PyStr.mem (playlist_name c) (playlists info)) eqn:Hm.
    + now exists info.
    + eexists. cbn [with_songs existing_songs].
      split; [apply DictFacts.get_set_eq|]. cbn [add_playlist_to_song playlists].
      apply mem_last.
  - rewrite (add_song_new now m c id t r E). eexists.
    cbn [register_lookup with_songs existing_songs].
    split; [apply DictFacts.get_set_eq|]. cbn [new_song_info playlists].
    unfold PyStr.mem. cbn. now rewrite String.eqb_refl.
Qed.

Lemma add_song_keeps_playlist now m c id t r P X :
  has_playlist P m X ->
  has_playlist P (fst (add_song_to_playlist now m c id t r)) X.
Proof.
  intros (info & Hget & Hmem).
  destruct (Dict.get (existing_songs m) id) as [info'|] eqn:E.
  - rewrite (add_song_existing now m c id t r info' E).
    destruct (PyStr.mem (playlist_name c) (playlists info')); [now exists info|].
    destruct (String.eqb_spec id X) as [->|Hne].
    + eexists. cbn [with_songs existing_songs].
      split; [apply DictFacts.get_set_eq|]. cbn [add_playlist_to_song playlists].
      rewrite mem_app. rewrite Hget in E. injection E as <-. now rewrite Hmem.
    + exists info. cbn [with_songs existing_songs].
      now rewrite DictFacts.get_set_neq.
  - rewrite (add_song_new now m c id t r E).
    destruct (String.eqb_spec id X) as [->|Hne]; [congruence|].
    exists info. cbn [register_lookup with_songs existing_songs].
    now rewrite DictFacts.get_set_neq.
Qed.

Lemma add_song_contains now m c id t r X :
  Dict.contains (existing_songs (fst (add_song_to_playlist now m c id t r))) X =
  String.eqb id X || Dict.contains (existing_songs m) X.
Proof.
  destruct (Dict.get (existing_songs m) id) as [info|] eqn:E.
  - rewrite (add_song_existing now m c id t r info E).
    assert (Hid : Dict.contains (existing_songs m) id = true)
      by (unfold Dict.contains; now rewrite E).
    destruct (PyStr.mem (playlist_name c) (playlists info)).
    + destruct (String.eqb_spec id X) as [<-|]; [now rewrite Hid|reflexivity].
    + cbn [with_songs existing_songs]. apply DictFacts.contains_set.
  - rewrite (add_song_new now m c id t r E).
    cbn [register_lookup with_songs existing_songs]. apply DictFacts.contains_set.
Qed.

Lemma add_song_keys now m c id t r :
  exists extra,
    Dict.keys (existing_songs (fst (add_song_to_playlist now m c id t r))) =
    Dict.keys (existing_songs m) ++ extra.
Proof.
  destruct (Dict.get (existing_songs m) id) as [info|] eqn:E.
  - rewrite (add_song_existing now m c id t r info E). exists [].
    rewrite app_nil_r.
    destruct (PyStr.mem (playlist_name c) (playlists info)); [reflexivity|].
    cbn [with_songs existing_songs]. apply DictFacts.keys_set_in.
    apply DictFacts.contains_In. unfold Dict.contains. now rewrite E.
  - rewrite (add_song_new now m c id t r E). exists [id].
    cbn [register_lookup with_songs existing_songs].
    rewrite DictFacts.keys_set. unfold Dict.contains. now rewrite E.
Qed.

(** the lookup tables after an upsert: unchanged, or with the entries of the
    new song *)
Lemma add_song_index now m c id t r :
  (Dict.get (existing_songs m) id <> None /\
   uri_to_song_id (fst (add_song_to_playlist now m c id t r)) = uri_to_song_id m /\
   name_artist_to_song_id (fst (add_song_to_playlist now m c id t r)) =
     name_artist_to_song_id m) \/
  (Dict.get (existing_songs m) id = None /\
   uri_to_song_id (fst (add_song_to_playlist now m c id t r)) =
     register_uri (uri_to_song_id m) id t /\
   name_artist_to_song_id (fst (add_song_to_playlist now m c id t r)) =
     register_name (name_artist_to_song_id m) id t).
Proof.
  destruct (Dict.get (existing_songs m) id) as [info|] eqn:E.
  - left. rewrite (add_song_existing now m c id t r info E).
    split; [discriminate|].
    now destruct (PyStr.mem (playlist_name c) (playlists info)).
  - right. rewrite (add_song_new now m c id t r E). now repeat split.
Qed.

Lemma run_inv_refl m0 P : coherent m0 -> run_inv m0 P m0.
Proof.
  intros Hc. constructor; auto.
  - exists []. now rewrite app_nil_r.
  - intros X [H1 H2]. congruence.
Qed.

Lemma added_since_step now m0 m c id t r X :
  added_since m0 m X ->
  added_since m0 (fst (add_song_to_playlist now m c id t r)) X.
Proof.
  intros [H1 H2]. split; [|assumption].
  rewrite add_song_contains, H1. apply orb_true_r.
Qed.

Lemma run_inv_step now m0 P m c id t r :
  run_inv m0 P m -> playlist_name c = P -> PyStr.truthy id = true ->
  run_inv m0 P (fst (add_song_to_playlist now m c id t r)).
Proof.
  intros [Hco Hkeys Hadd Huri Hname Hun Hnn] HP Hid.
  set (m' := fst (add_song_to_playlist now m c id t r)).
  assert (Hnew : Dict.get (existing_songs m) id = None -> added_since m0 m' id).
  { intros E. split.
    - unfold m'. rewrite add_song_contains, String.eqb_refl. reflexivity.
    - apply DictFacts.contains_false. intros Hin.
      apply DictFacts.get_None in E. apply E.
      destruct Hkeys as [extra ->]. apply in_or_app. now left. }
  constructor.
  - now apply add_song_coherent.
  - destruct Hkeys as [extra Hk].
    destruct (add_song_keys now m c id t r) as [extra' Hk'].
    exists (extra ++ extra'). fold m' in Hk'. rewrite Hk', Hk. symmetry. apply app_assoc.
  - intros X [H1 H2]. unfold m' in H1. rewrite add_song_contains in H1.
    destruct (Dict.contains (existing_songs m) X) eqn:EX.
    + destruct (Hadd X (conj EX H2)) as [Hp Ht]. split; [|assumption].
      now apply add_song_keeps_playlist.
    + rewrite orb_false_r in H1. apply String.eqb_eq in H1. subst X.
      split; [|assumption]. rewrite <- HP. apply add_song_has_playlist.
  - intros k X Hget.
    destruct (add_song_index now m c id t r) as [(_ & Hu & _)|(E & Hu & _)];
      fold m' in Hu; rewrite Hu in Hget.
    + destruct (Huri k X Hget) as [H|H]; [now left|right].
      now apply added_since_step.
    + unfold register_uri in Hget.
      destruct (PyStr.truthy (track_uri t)).
      * rewrite DictFacts.get_set in Hget.
        destruct (String.eqb (track_uri t) k).
        -- injection Hget as <-. right. now apply Hnew.
        -- destruct (Huri k X Hget) as [H|H]; [now left|right].
           now apply added_since_step.
      * destruct (Huri k X Hget) as [H|H]; [now left|right].
        now apply added_since_step.
  - intros k X Hget.
    destruct (add_song_index now m c id t r) as [(_ & _ & Hn)|(E & _ & Hn)];
      fold m' in Hn; rewrite Hn in Hget.
    + destruct (Hname k X Hget) as [H|H]; [now left|right].
      now apply added_since_step.
    + unfold register_name in Hget.
      destruct (name_artist_key (track_name t) (artists_string t)) as [nk|].
      * rewrite DictFacts.get_set in Hget.
        destruct (String.eqb nk k).
        -- injection Hget as <-. right. now apply Hnew.
        -- destruct (Hname k X Hget) as [H|H]; [now left|right].
           now apply added_since_step.
      * destruct (Hname k X Hget) as [H|H]; [now left|right].
        now apply added_since_step.
  - intros k Hget. apply Hun.
    destruct (add_song_index now m c id t r) as [(_ & Hu & _)|(E & Hu & _)];
      fold m' in Hu; rewrite Hu in Hget; [assumption|].
    unfold register_uri in Hget.
    destruct (PyStr.truthy (track_uri t)); [|assumption].
    rewrite DictFacts.get_set in Hget.
    now destruct (String.eqb (track_uri t) k).
  - intros k Hget. apply Hnn.
    destruct (add_song_index now m c id t r) as [(_ & _ & Hn)|(E & _ & Hn)];
      fold m' in Hn; rewrite Hn in Hget; [assumption|].
    unfold register_name in Hget.
    destruct (name_artist_key (track_name t) (artists_string t)) as [nk|];
      [|assumption].
    rewrite DictFacts.get_set in Hget.
    now destruct (String.eqb nk k).
Qed.

Lemma upserts_cons now r results mc :
  upserts now (r :: results) mc =
  upserts now results
    (add_song_to_playlist now (fst mc) (snd mc) (song_id (r_metadata r))
       (r_metadata r) r).
Proof. reflexivity. Qed.

Lemma upserts_inv now m0 P results : forall m c,
  run_inv m0 P m -> playlist_name c = P ->
  Forall (fun r => PyStr.truthy (song_id (r_metadata r)) = true) results ->
  run_inv m0 P (fst (upserts now results (m, c))) /\
  (forall X, has_playlist P m X ->
             has_playlist P (fst (upserts now results (m, c))) X) /\
  (forall r, In r results ->
             has_playlist P (fst (upserts now results (m, c)))
               (song_id (r_metadata r))).
Proof.
  induction results as [|r results IH]; intros m c Hinv HP Hall.
  - cbn. split; [assumption|]. split; [auto|]. intros r [].
  - apply Forall_cons_iff in Hall as [Hr Hrest].
    rewrite upserts_cons. cbn [fst snd].
    destruct (add_song_to_playlist now m c (song_id (r_metadata r)) (r_metadata r) r)
      as [m1 c1] eqn:E.
    assert (Hm1 : m1 = fst (add_song_to_playlist now m c (song_id (r_metadata r))
                              (r_metadata r) r)) by now rewrite E.
    assert (Hc1 : playlist_name c1 = playlist_name c).
    { replace c1 with (snd (add_song_to_playlist now m c (song_id (r_metadata r))
                              (r_metadata r) r)) by now rewrite E.
      apply add_song_playlist_name. }
    destruct (IH m1 c1) as (H1 & H2 & H3).
    + rewrite Hm1. now apply run_inv_step.
    + congruence.
    + assumption.
    + split; [assumption|]. split.
      * intros X HX. apply H2. rewrite Hm1. now apply add_song_keeps_playlist.
      * intros r' [<-|Hin]; [|now apply H3].
        apply H2. rewrite Hm1, <- HP. apply add_song_has_playlist.
Qed.

Lemma upserts_noop now P results : forall m c,
  playlist_name c = P ->
  (forall r, In r results -> has_playlist P m (song_id (r_metadata r))) ->
  fst (upserts now results (m, c)) = m.
Proof.
  induction results as [|r results IH]; intros m c HP Hall; [reflexivity|].
  rewrite upserts_cons. cbn [fst snd].
  destruct (add_song_to_playlist now m c (song_id (r_metadata r)) (r_metadata r) r)
    as [m1 c1] eqn:E.
  assert (Hm1 : m1 = m).
  { replace m1 with (fst (add_song_to_playlist now m c (song_id (r_metadata r))
                            (r_metadata r) r)) by now rewrite E.
    apply add_song_noop. rewrite HP. apply Hall. now left. }
  assert (Hc1 : playlist_name c1 = P).
  { replace c1 with (snd (add_song_to_playlist now m c (song_id (r_metadata r))
                            (r_metadata r) r)) by now rewrite E.
    now rewrite add_song_playlist_name. }
  subst m1. apply IH; [assumption|]. intros r' Hin. apply Hall. now right.
Qed.

Lemma find_existing_song_lookup m uri name artists_str :
  find_existing_song m uri name artists_str =
  match lookup_id m uri name artists_str with
  | Some X =>
      match Dict.get (existing_songs m) X with
      | Some info => Ok (Some (X, info))
      | None => Raise "KeyError"
      end
  | None => Ok None
  end.
Proof.
  unfold find_existing_song, lookup_id.
  destruct (if PyStr.truthy uri then Dict.get (uri_to_song_id m) uri else None);
    [reflexivity|].
  destruct (name_artist_key name artists_str) as [key|]; [|reflexivity].
  now destruct (Dict.get (name_artist_to_song_id m) key).
Qed.

Lemma resolve_ok_inv m uri name artists_str id existing :
  resolve m uri name artists_str = Ok (id, existing) ->
  id = resolved_id (lookup_id m uri name artists_str) name artists_str.
Proof.
  unfold resolve. rewrite find_existing_song_lookup.
  destruct (lookup_id m uri name artists_str) as [X|]; cbn [resolved_id].
  - destruct (Dict.get (existing_songs m) X); [|discriminate].
    cbn. now intros [= <- _].
  - cbn. now intros [= <- _].
Qed.

Lemma resolve_sound m uri name artists_str :
  index_sound m ->
  exists existing,
    resolve m uri name artists_str =
    Ok (resolved_id (lookup_id m uri name artists_str) name artists_str, existing).
Proof.
  intros Hs. unfold resolve. rewrite find_existing_song_lookup.
  destruct (lookup_id m uri name artists_str) as [X|] eqn:E; cbn [resolved_id].
  - assert (Hc : Dict.contains (existing_songs m) X = true).
    { apply (Hs (if PyStr.truthy uri
                 then match Dict.get (uri_to_song_id m) uri with
                      | Some _ => uri
                      | None => match name_artist_key name artists_str with
                                | Some key => key
                                | None => ""
                                end
                      end
                 else match name_artist_key name artists_str with
                      | Some key => key
                      | None => ""
                      end)).
      unfold lookup_id in E.
      destruct (PyStr.truthy uri).
      - destruct (Dict.get (uri_to_song_id m) uri) eqn:Eu.
        + left. congruence.
        + destruct (name_artist_key name artists_str); [now right|discriminate].
      - destruct (name_artist_key name artists_str); [now right|discriminate]. }
    unfold Dict.contains in Hc.
    destruct (Dict.get (existing_songs m) X); [|discriminate].
    eexists. reflexivity.
  - eexists. reflexivity.
Qed.

Lemma resolved_id_truthy found name artists_str :
  PyStr.truthy (resolved_id found name artists_str) = true.
Proof.
  destruct found as [X|]; cbn [resolved_id]; [|apply truthy_generate_song_id].
  destruct (PyStr.truthy X) eqn:E; [assumption|apply truthy_generate_song_id].
Qed.

Lemma lookup_run_inv m0 P m uri name artists_str :
  run_inv m0 P m ->
  match lookup_id m uri name artists_str with
  | Some X =>
      lookup_id m0 uri name artists_str = Some X \/ added_since m0 m X
  | None => lookup_id m0 uri name artists_str = None
  end.
Proof.
  intros [_ _ _ Huri Hname Hun Hnn]. unfold lookup_id.
  assert (Hnames :
            match
              match name_artist_key name artists_str with
              | Some key => Dict.get (name_artist_to_song_id m) key
              | None => None
              end
            with
            | Some X =>
                match name_artist_key name artists_str with
                | Some key => Dict.get (name_artist_to_song_id m0) key
                | None => None
                end = Some X \/ added_since m0 m X
            | None =>
                match name_artist_key name artists_str with
                | Some key => Dict.get (name_artist_to_song_id m0) key
                | None => None
                end = None
            end).
  { destruct (name_artist_key name artists_str) as [key|]; [|reflexivity].
    destruct (Dict.get (name_artist_to_song_id m) key) as [X|] eqn:E.
    - now apply Hname.
    - now apply Hnn. }
  destruct (PyStr.truthy uri); [|exact Hnames].
  destruct (Dict.get (uri_to_song_id m) uri) as [X|] eqn:E.
  - destruct (Huri uri X E) as [H|H]; [left; now rewrite H|now right].
  - rewrite (Hun uri E). exact Hnames.
Qed.

(** the key lemma of the idempotence: what a record resolves to on the
    manager at the end of a job is what it resolved to at the start of the
    job, or a song that the job has added *)
Lemma resolve_rerun m0 P m uri name artists_str id2 existing2 :
  run_inv m0 P m -> index_sound m0 ->
  resolve m uri name artists_str = Ok (id2, existing2) ->
  exists id1 existing1,
    resolve m0 uri name artists_str = Ok (id1, existing1) /\
    (id2 = id1 \/ added_since m0 m id2).
Proof.
  intros Hinv Hsound Hres.
  destruct (resolve_sound m0 uri name artists_str Hsound) as [existing1 H1].
  eexists _, existing1. split; [exact H1|].
  apply resolve_ok_inv in Hres. subst id2.
  pose proof (lookup_run_inv m0 P m uri name artists_str Hinv) as Hl.
  destruct (lookup_id m uri name artists_str) as [X|].
  - destruct Hl as [->|Hadd]; [now left|right].
    cbn [resolved_id]. destruct Hinv as [_ _ Hadded _ _ _ _].
    destruct (Hadded X Hadd) as [_ ->]. exact Hadd.
  - rewrite Hl. now left.
Qed.

Lemma extract_item_of_candidate m now item tc :
  candidate now item = valid_track tc ->
  extract_item m now item =
  match resolve m (track_uri tc) (track_name tc) (artists_string tc) with
  | Raise e => rejected (processing_error e)
  | Ok (id, existing_song_info) =>
      valid_track
        (with_identity tc id
           match existing_song_info with Some _ => true | None => false end)
  end.
Proof. intros H. unfold extract_item. now rewrite H. Qed.

Lemma extract_item_rerun m0 P m now1 now2 item t2 :
  run_inv m0 P m -> index_sound m0 ->
  extract_item m now2 item = valid_track t2 ->
  exists t1,
    extract_item m0 now1 item = valid_track t1 /\
    (song_id t2 = song_id t1 \/ added_since m0 m (song_id t2)).
Proof.
  intros Hinv Hsound H2.
  apply extract_item_valid in H2 as (tc2 & ex2 & Hc2 & Hr2 & _).
  destruct (candidate_any_time now2 now1 item tc2 Hc2) as (tc1 & Hc1 & Hu & Hn & Ha).
  destruct (resolve_rerun m0 P m _ _ _ _ _ Hinv Hsound Hr2)
    as (id1 & ex1 & Hr1 & Hids).
  rewrite (extract_item_of_candidate m0 now1 item tc1 Hc1), Hu, Hn, Ha, Hr1.
  eexists. split; [reflexivity|]. exact Hids.
Qed.

Lemma extract_item_any_time m now now' item t :
  extract_item m now item = valid_track t ->
  exists t', extract_item m now' item = valid_track t'.
Proof.
  intros H. apply extract_item_valid in H as (tc & ex & Hc & Hr & _).
  destruct (candidate_any_time now now' item tc Hc) as (tc' & Hc' & Hu & Hn & Ha).
  rewrite (extract_item_of_candidate m now' item tc' Hc'), Hu, Hn, Ha, Hr.
  eexists. reflexivity.
Qed.

Lemma tracks_of_nil_any_time m now now' items :
  tracks_of m now items = [] -> tracks_of m now' items = [].
Proof.
  intros H. destruct (tracks_of m now' items) as [|t' ts] eqn:E; [reflexivity|].
  assert (Hin : In t' (tracks_of m now' items)) by (rewrite E; now left).
  apply in_tracks_of in Hin as (item & Hitem & Hex).
  destruct (extract_item_any_time m now' now item t' Hex) as [t Ht].
  assert (Hin' : In t (tracks_of m now items))
    by (apply in_tracks_of; now exists item).
  rewrite H in Hin'. contradiction.
Qed.

Lemma tracks_of_truthy m now items t :
  In t (tracks_of m now items) -> PyStr.truthy (song_id t) = true.
Proof.
  intros Hin. apply in_tracks_of in Hin as (item & _ & Hex).
  apply extract_item_valid in Hex as (tc & ex & _ & Hr & _).
  apply resolve_ok_inv in Hr. rewrite Hr. apply resolved_id_truthy.
Qed.

(** ** The pipeline run twice *)

Lemma process_items_first_run e name url d approved ctl items :
  Dict.uniq (table (songs_database d)) = true ->
  cancelled_from ctl = None ->
  let m0 := load_existing_database d in
  let o := process_items e name url m0 d approved ctl items in
  (tracks_of m0 (now e) items = [] /\ jo_disk o = d) \/
  (songs_database (jo_disk o) = Some (existing_songs (jo_manager o)) /\
   run_inv m0 name (jo_manager o) /\
   forall t, In t (tracks_of m0 (now e) items) ->
             has_playlist name (jo_manager o) (song_id t)).
Proof.
  intros Hu Hn m0 o.
  destruct (load_existing_database_spec d Hu) as (Hsongs & Hco & _). fold m0 in Hsongs, Hco.
  destruct (process_items_spec e name url m0 d approved ctl items)
    as [(Ht & msg & _ & _ & _ & _ & Hd & _)
       |(_ & c' & n & _ & _ & Hmap & _ & _ & Hlen & Hup & Hd)];
    fold o in Hd; [now left|right].
  fold o in Hmap, Hlen, Hup.
  rewrite (Hlen Hn), firstn_all in Hmap.
  assert (Hfst : jo_manager o =
                 fst (upserts (now e) (jo_download_log o) (m0, new_consolidator name)))
    by now rewrite <- Hup.
  destruct (upserts_inv (now e) m0 name (jo_download_log o) m0 (new_consolidator name))
    as (Hinv & _ & Hhas).
  - now apply run_inv_refl.
  - reflexivity.
  - apply Forall_forall. intros r Hr.
    apply (tracks_of_truthy m0 (now e) items). rewrite <- Hmap.
    now apply in_map.
  - rewrite <- Hfst in Hinv, Hhas. split; [|split; [exact Hinv|]].
    + rewrite Hd. cbn [save_consolidated_metadata songs_database]. f_equal.
      destruct Hinv as [[Huniq _] [extra Hkeys] _ _ _ _ _].
      apply (DictFacts.update_extends _ _ extra); [|assumption].
      now rewrite Hkeys, Hsongs.
    + intros t Ht. rewrite <- Hmap in Ht. apply in_map_iff in Ht as (r & <- & Hr).
      now apply Hhas.
Qed.

Lemma process_items_second_run e name url m0 m d approved ctl items now1 :
  run_inv m0 name m -> index_sound m0 ->
  songs_database d = Some (existing_songs m) ->
  (forall t, In t (tracks_of m0 now1 items) -> has_playlist name m (song_id t)) ->
  songs_database (jo_disk (process_items e name url m d approved ctl items)) =
  songs_database d.
Proof.
  intros Hinv Hsound Hd Hhas.
  destruct (process_items_spec e name url m d approved ctl items)
    as [(_ & msg & _ & _ & _ & _ & -> & _)
       |(_ & c' & n & _ & _ & Hmap & _ & _ & _ & Hup & ->)]; [reflexivity|].
  set (o := process_items e name url m d approved ctl items) in *.
  assert (Hm : jo_manager o = m).
  { replace (jo_manager o)
      with (fst (upserts (now e) (jo_download_log o) (m, new_consolidator name)))
      by now rewrite <- Hup.
    apply (upserts_noop (now e) name); [reflexivity|].
    intros r Hr.
    assert (Hin : In (r_metadata r) (tracks_of m (now e) items)).
    { apply (in_map r_metadata) in Hr. rewrite Hmap in Hr.
      revert Hr. generalize (List.length (jo_download_log o)).
      generalize (tracks_of m (now e) items).
      intros l k. revert l. induction k as [|k IH]; intros [|x l] H;
        cbn in H; try contradiction.
      destruct H as [->|H]; [now left|right; now apply IH]. }
    apply in_tracks_of in Hin as (item & Hitem & Hex).
    destruct (extract_item_rerun m0 name m now1 (now e) item _ Hinv Hsound Hex)
      as (t1 & Hex1 & [Heq|Hadd]).
    - rewrite Heq. apply Hhas. apply in_tracks_of. now exists item.
    - destruct Hinv as [_ _ Hadded _ _ _ _]. now apply Hadded. }
  cbn [save_consolidated_metadata songs_database]. rewrite Hm, Hd. cbn [table].
  f_equal. apply DictFacts.update_self. now destruct Hinv as [[Hu _] _ _ _ _ _ _].
Qed.

Lemma load_saved_manager d m :
  coherent m -> songs_database d = Some (existing_songs m) ->
  load_existing_database d = m.
Proof.
  intros Hco Hd. unfold load_existing_database. rewrite Hd.
  now apply coherent_load.
Qed.

(** two runs of [process_single_playlist] on the same playlist and the same
    intercepted requests, each on a manager loaded from the disk it starts
    from, the second from the disk the first has left: when the first run
    never sees a cancellation, the second leaves the songs table as it
    finds it *)
Lemma second_run_keeps_songs e1 e2 name url d0 approved1 approved2 ctl1 ctl2 :
  Dict.uniq (table (songs_database d0)) = true ->
  driver_requests e2 url = driver_requests e1 url ->
  cancelled_from ctl1 = None ->
  let o1 := process_single_playlist e1 name url (load_existing_database d0) d0
              approved1 ctl1 in
  let o2 := process_single_playlist e2 name url
              (load_existing_database (jo_disk o1)) (jo_disk o1) approved2 ctl2 in
  songs_database (jo_disk o2) = songs_database (jo_disk o1).
Proof.
  intros Hu Hreq Hn. cbv zeta.
  destruct (process_single_playlist_spec e2 name url
              (load_existing_database
                 (jo_disk (process_single_playlist e1 name url
                             (load_existing_database d0) d0 approved1 ctl1)))
              (jo_disk (process_single_playlist e1 name url
                          (load_existing_database d0) d0 approved1 ctl1))
              approved2 ctl2)
    as [(msg & _ & _ & _ & _ & -> & _)|(requests & ctl2' & Hreq2 & _ & ->)];
    [reflexivity|].
  rewrite Hreq in Hreq2.
  destruct (process_single_playlist_full e1 name url (load_existing_database d0)
              d0 approved1 ctl1 requests Hn Hreq2) as (ctl1' & Hn' & ->).
  destruct (load_existing_database_spec d0 Hu) as (_ & _ & Hsound).
  destruct (process_items_first_run e1 name url d0 approved1 ctl1'
              (capture_requests requests) Hu Hn')
    as [(Ht & Hd)|(Hsongs & Hinv & Hhas)].
  - rewrite Hd.
    destruct (process_items_spec e2 name url (load_existing_database d0) d0
                approved2 ctl2' (capture_requests requests))
      as [(_ & msg & _ & _ & _ & _ & -> & _)|(Hne & _)]; [reflexivity|].
    exfalso. apply Hne.
    now apply (tracks_of_nil_any_time (load_existing_database d0) (now e1)).
  - set (o := process_items e1 name url (load_existing_database d0) d0 approved1
                ctl1' (capture_requests requests)) in *.
    rewrite (load_saved_manager (jo_disk o) (jo_manager o));
      [|now destruct Hinv|assumption].
    now apply (process_items_second_run e2 name url (load_existing_database d0)
                 (jo_manager o) (jo_disk o) approved2 ctl2'
                 (capture_requests requests) (now e1)).
Qed.

(** C1: the pipeline run twice over the same raw event stream, the second
    run loading the catalog saved by the first: after the second run the
    songs table is the one the first run left, so it has the same song ids,
    the same number of songs, and every song has the playlists it had. *)
Theorem pipeline_is_idempotent :
  forall (e1 e2 : env) (name url : string) (d0 : disk),
    Dict.uniq (table (songs_database d0)) = true ->
    driver_requests e2 url = driver_requests e1 url ->
    let o1 := run_single_playlist_mode e1 name url d0 in
    let o2 := run_single_playlist_mode e2 name url (jo_disk o1) in
    let songs1 := table (songs_database (jo_disk o1)) in
    let songs2 := table (songs_database (jo_disk o2)) in
    songs2 = songs1 /\
    Dict.keys songs2 = Dict.keys songs1 /\
    List.length songs2 = List.length songs1 /\
    forall id,
      option_map playlists (Dict.get songs2 id) =
      option_map playlists (Dict.get songs1 id).
Proof.
  intros e1 e2 name url d0 Hu Hreq o1 o2 songs1 songs2.
  assert (Heq : songs_database (jo_disk o2) = songs_database (jo_disk o1)).
  { subst o1 o2. unfold run_single_playlist_mode.
    now apply second_run_keeps_songs. }
  unfold songs2, songs1. rewrite Heq. repeat split.
Qed.

Lemma pipeline_is_idempotent_witness :
  let url := "https://open.spotify.com/playlist/1" in
  let o1 := run_single_playlist_mode two_tracks_env "P1" url empty_disk in
  let o2 := run_single_playlist_mode two_tracks_env "P1" url (jo_disk o1) in
  Dict.keys (table (songs_database (jo_disk o1))) =
    ["song_945458a55977"; "song_152a8abc331a"] /\
  table (songs_database (jo_disk o2)) = table (songs_database (jo_disk o1)).
Proof.
  split; [vm_compute; reflexivity|].
  exact (proj1 (pipeline_is_idempotent two_tracks_env two_tracks_env "P1"
                  "https://open.spotify.com/playlist/1" empty_disk
                  eq_refl eq_refl)).
Defined.

(** ** The capture loop *)

Lemma mem_cons x y l : PyStr.mem x (y :: l) = String.eqb x y || PyStr.mem x l.
Proof. reflexivity. Qed.

Lemma mem_In x l : PyStr.mem x l = true <-> In x l.
Proof.
  unfold PyStr.mem. rewrite existsb_exists. split.
  - intros [y [Hy E]]. apply String.eqb_eq in E. now subst.
  - intros H. exists x. split; [exact H|apply String.eqb_refl].
Qed.

Lemma mem_false x l : PyStr.mem x l = false <-> ~ In x l.
Proof.
  rewrite <- mem_In. destruct (PyStr.mem x l); split; intros H.
  - discriminate H.
  - now exfalso; apply H.
  - discriminate.
  - reflexivity.
Qed.

Lemma capture_step_cases st request :
  capture_step st request =
    if targeted request && negb (PyStr.mem (request_id request) (fst st))
    then (request_id request :: fst st, snd st ++ page_items request)
    else st.
Proof.
  destruct st as [seen items]. unfold capture_step, targeted, page_items.
  cbn [fst snd].
  destruct (has_response request), (PyStr.mem (request_id request) seen),
    (is_substring Config.TARGET_API_URL (request_url request));
    cbn [andb negb]; try reflexivity.
  destruct (response request); [now rewrite app_nil_r|reflexivity].
Qed.

(** the set of seen ids only grows, and every request of the poll is
    afterwards either not targeted or seen *)
Lemma capture_seen l : forall st,
  (forall id, PyStr.mem id (fst st) = true ->
     PyStr.mem id (fst (fold_left capture_step l st)) = true) /\
  (forall request, In request l ->
     targeted request = false \/
     PyStr.mem (request_id request) (fst (fold_left capture_step l st)) = true).
Proof.
  induction l as [|e l IH]; intros st; cbn [fold_left].
  - split; [auto|intros ? []].
  - destruct (IH (capture_step st e)) as [Hmono Hseen].
    assert (Hstep : forall id, PyStr.mem id (fst st) = true ->
              PyStr.mem id (fst (capture_step st e)) = true).
    { intros id H. rewrite capture_step_cases.
      destruct (targeted e && negb (PyStr.mem (request_id e) (fst st)));
        [|exact H].
      cbn [fst]. rewrite mem_cons, H. apply orb_true_r. }
    split.
    + intros id H. apply Hmono, Hstep, H.
    + intros request [->|Hin]; [|now apply Hseen].
      destruct (targeted request) eqn:Et; [right|now left].
      apply Hmono. rewrite capture_step_cases, Et. cbn [andb].
      destruct (PyStr.mem (request_id request) (fst st)) eqn:Em;
        cbn [negb fst]; [exact Em|].
      rewrite mem_cons, String.eqb_refl. reflexivity.
Qed.

Lemma capture_ignores l : forall st,
  (forall request, In request l ->
     targeted request = false \/ PyStr.mem (request_id request) (fst st) = true) ->
  fold_left capture_step l st = st.
Proof.
  induction l as [|e l IH]; intros st H; cbn [fold_left]; [reflexivity|].
  assert (E : capture_step st e = st).
  { rewrite capture_step_cases.
    destruct (H e (or_introl eq_refl)) as [-> | ->]; cbn [andb negb];
      [reflexivity|now rewrite andb_false_r]. }
  rewrite E. apply IH. intros request Hin. apply H. now right.
Qed.

(** X1: a request that the loop has polled once is never counted again. *)
Theorem capture_requests_polls_once (requests again rest : list raw_event) :
  incl again requests ->
  capture_requests (requests ++ again ++ rest) = capture_requests (requests ++ rest).
Proof.
  intros Hincl. unfold capture_requests.
  rewrite !fold_left_app. f_equal. f_equal.
  apply capture_ignores. intros request Hin.
  apply (proj2 (capture_seen requests ([], []))), Hincl, Hin.
Qed.

Lemma capture_fresh l : forall st,
  NoDup (map request_id l) ->
  (forall request, In request l -> PyStr.mem (request_id request) (fst st) = false) ->
  snd (fold_left capture_step l st) =
    snd st ++ flat_map page_items (filter targeted l).
Proof.
  induction l as [|e l IH]; intros st Hnd Hfresh; cbn [fold_left].
  - cbn. now rewrite app_nil_r.
  - cbn [map] in Hnd. apply NoDup_cons_iff in Hnd as [Hnotin Hnd].
    rewrite IH; [|exact Hnd|].
    + rewrite capture_step_cases, (Hfresh e (or_introl eq_refl)).
      rewrite andb_true_r. cbn [filter].
      destruct (targeted e); cbn [snd flat_map]; [|reflexivity].
      symmetry; apply app_assoc.
    + intros request Hin. rewrite capture_step_cases.
      destruct (targeted e && negb (PyStr.mem (request_id e) (fst st)));
        [|apply Hfresh; now right].
      cbn [fst]. rewrite mem_cons, (Hfresh request (or_intror Hin)), orb_false_r.
      apply String.eqb_neq. intros E. apply Hnotin. rewrite <- E.
      now apply in_map.
Qed.

(** X2: with distinct request ids the captured items are the items of the
    answered requests to the target API, in the order of the requests. *)
Theorem capture_requests_collects_target_pages (requests : list raw_event) :
  NoDup (map request_id requests) ->
  capture_requests requests = flat_map page_items (filter targeted requests).
Proof.
  intros Hnd. unfold capture_requests.
  rewrite capture_fresh; [reflexivity|exact Hnd|reflexivity].
Qed.

Lemma capture_requests_polls_once_witness :
  incl two_tracks two_tracks /\
  capture_requests (two_tracks ++ two_tracks ++ []) =
    capture_requests (two_tracks ++ []).
Proof.
  split; [apply incl_refl|].
  apply (capture_requests_polls_once two_tracks two_tracks []).
  apply incl_refl.
Defined.

Lemma capture_requests_collects_target_pages_witness :
  NoDup (map request_id two_tracks) /\
  capture_requests two_tracks = flat_map page_items (filter targeted two_tracks).
Proof.
  assert (H : NoDup (map request_id two_tracks)).
  { cbn. constructor; [intros []|constructor]. }
  split; [exact H|].
  apply (capture_requests_collects_target_pages two_tracks H).
Defined.

(** ** Cover art and the batch summary *)

Lemma max_by_width_spec l : forall best,
  In (max_by_width best l) (best :: l) /\
  forall s, In s (best :: l) -> (width_key s <= width_key (max_by_width best l))%Z.
Proof.
  induction l as [|x l IH]; intros best; unfold max_by_width; cbn [fold_left].
  - split; [now left|]. intros s [->|[]]. apply Z.le_refl.
  - fold (max_by_width (if (width_key best <? width_key x)%Z then x else best) l).
    destruct (IH (if (width_key best <? width_key x)%Z then x else best))
      as [Hin Hmax].
    destruct (Z.ltb_spec (width_key best) (width_key x)) as [Hlt|Hge].
    + split.
      * destruct Hin as [<-|Hin]; [right; now left|right; now right].
      * intros s [->|[->|Hs]].
        -- apply Z.le_trans with (width_key x); [lia|apply Hmax; now left].
        -- apply Hmax; now left.
        -- apply Hmax; now right.
    + split.
      * destruct Hin as [<-|Hin]; [now left|right; now right].
      * intros s [->|[->|Hs]].
        -- apply Hmax; now left.
        -- apply Z.le_trans with (width_key best); [lia|apply Hmax; now left].
        -- apply Hmax; now right.
Qed.

(** X3: the cover URL is a non-empty URL of one of the sources: of a source
    of the preferred width when one has a URL, otherwise of a widest source
    among those with a width and a URL; there is none only when no source
    has both. *)
Theorem get_best_cover_art_url_spec (cover_sources : list image_source)
    (preferred_size : Z) :
  match get_best_cover_art_url cover_sources preferred_size with
  | Some url =>
      PyStr.truthy url = true /\
      exists s, In s cover_sources /\ src_url s = Some url /\
        (src_width s = Some preferred_size \/
         (has_width s = true /\
          (forall s', In s' cover_sources ->
             src_width s' = Some preferred_size -> has_url s' = false) /\
          (forall s', In s' cover_sources ->
             has_width s' = true -> has_url s' = true ->
             (width_key s' <= width_key s)%Z)))
  | None =>
      forall s, In s cover_sources ->
        has_url s = false \/
        (has_width s = false /\ src_width s <> Some preferred_size)
  end.
Proof.
  unfold get_best_cover_art_url.
  set (pref := fun s => match src_width s with
                        | Some w => (w =? preferred_size)%Z && has_url s
                        | None => false
                        end).
  set (valid := fun s => has_width s && has_url s).
  destruct (find pref cover_sources) as [s|] eqn:Ef.
  - apply find_some in Ef as [Hin Hp]. unfold pref in Hp.
    destruct (src_width s) as [w|] eqn:Ew; [|discriminate Hp].
    apply andb_prop in Hp as [Hw Hu]. apply Z.eqb_eq in Hw. subst w.
    unfold has_url in Hu. destruct (src_url s) as [u|] eqn:Eu; [|discriminate Hu].
    split; [exact Hu|]. exists s. repeat split; try assumption. now left.
  - assert (Hnone : forall s', In s' cover_sources ->
              src_width s' = Some preferred_size -> has_url s' = false).
    { intros s' Hin Hw. pose proof (find_none _ _ Ef s' Hin) as Hp.
      unfold pref in Hp. rewrite Hw, Z.eqb_refl in Hp. exact Hp. }
    destruct (filter valid cover_sources) as [|s0 l] eqn:Efl.
    + intros s Hin.
      destruct (has_url s) eqn:Eu; [right|now left].
      assert (Hv : valid s = false).
      { destruct (valid s) eqn:Ev; [|reflexivity].
        assert (Hs : In s (filter valid cover_sources))
          by (apply filter_In; now split).
        rewrite Efl in Hs. destruct Hs. }
      unfold valid in Hv. rewrite Eu, andb_true_r in Hv.
      split; [exact Hv|]. intros Hw. rewrite (Hnone s Hin Hw) in Eu.
      discriminate Eu.
    + destruct (max_by_width_spec l s0) as [Hin Hmax].
      set (best := max_by_width s0 l) in *.
      rewrite <- Efl in Hin. apply filter_In in Hin as [Hin Hv].
      unfold valid in Hv. apply andb_prop in Hv as [Hw Hu].
      pose proof Hu as Hu'. unfold has_url in Hu'.
      destruct (src_url best) as [u|] eqn:Eu; [|discriminate Hu'].
      split; [exact Hu'|]. exists best.
      split; [exact Hin|]. split; [exact Eu|]. right.
      split; [exact Hw|]. split; [exact Hnone|].
      intros s' Hin' Hw' Hurl'. apply Hmax. rewrite <- Efl.
      apply filter_In. split; [exact Hin'|]. unfold valid.
      now rewrite Hw', Hurl'.
Qed.

Lemma count_pending l : forall i,
  i <= List.length l ->
  (forall k j, nth_error l k = Some j -> (status j = pending <-> i <= k)) ->
  List.length (filter (has_status pending) l) = List.length l - i.
Proof.
  induction l as [|x l IH]; intros i Hle H; [reflexivity|].
  cbn [filter List.length].
  destruct i as [|i].
  - assert (Hx : status x = pending) by (apply (H 0 x eq_refl); lia).
    unfold has_status at 1. rewrite Hx. cbn [List.length].
    rewrite (IH 0); [lia|lia|].
    intros k j Hk. split; [lia|]. intros _. apply (H (S k) j Hk). lia.
  - assert (Hx : status x <> pending).
    { intros Hx. apply (H 0 x eq_refl) in Hx. lia. }
    unfold has_status at 1. destruct (status x); [congruence| |];
      (rewrite (IH i); [cbn; lia|cbn in Hle; lia|];
       intros k j Hk; rewrite (H (S k) j Hk); lia).
Qed.

Lemma count_statuses l :
  List.length l =
    List.length (filter (has_status completed) l)
    + List.length (filter (has_status failed) l)
    + List.length (filter (has_status pending) l).
Proof.
  induction l as [|x l IH]; [reflexivity|].
  cbn [filter List.length]. unfold has_status in *.
  destruct (status x); cbn [List.length]; lia.
Qed.

(** X4: in a batch file the program wrote, the jobs done (completed or
    failed) are as many as the cursor says and the others are pending. *)
Theorem get_batch_summary_counts (b : PlaylistBatch) :
  persisted b ->
  let s := get_batch_summary b in
  sum_total s = sum_completed s + sum_failed s + sum_pending s /\
  sum_completed s + sum_failed s = sum_current_index s /\
  sum_pending s = sum_total s - sum_current_index s.
Proof.
  intros Hb. apply persisted_wf in Hb. destruct Hb as [Hle Hwf].
  cbn. pose proof (count_statuses (batch_playlists b)) as Hsum.
  pose proof (count_pending _ _ Hle Hwf) as Hp.
  split; [exact Hsum|]. split; lia.
Qed.

Lemma get_batch_summary_counts_witness :
  let b := add_playlist "t2"
             (mark_playlist_completed "t1"
                (add_playlist "t0" new_batch "Done already" "u1") 3 3 None)
             "Next one" "u2" in
  get_batch_summary b =
    {| sum_total := 2; sum_completed := 1; sum_failed := 0; sum_pending := 1;
       sum_current_index := 1 |} /\
  sum_completed (get_batch_summary b) + sum_failed (get_batch_summary b)
    = sum_current_index (get_batch_summary b).
Proof.
  split; [vm_compute; reflexivity|].
  apply (get_batch_summary_counts
           (add_playlist "t2"
              (mark_playlist_completed "t1"
                 (add_playlist "t0" new_batch "Done already" "u1") 3 3 None)
              "Next one" "u2")
           (persisted_add _ _ _ _
              (persisted_mark _ _ _ _ _
                 (persisted_add _ _ _ _ persisted_new)))).
Defined.

(** ** Strings *)

Lemma dropwhile_head p l : head_out p (PyStr.dropwhile p l).
Proof.
  induction l as [|c l IH]; cbn; [exact I|].
  destruct (p c) eqn:E; [exact IH|exact E].
Qed.

Lemma dropwhile_fix p l : head_out p l -> PyStr.dropwhile p l = l.
Proof. destruct l as [|c l]; cbn; [reflexivity|]. now intros ->. Qed.

Lemma dropwhile_suffix p l : exists pre, l = pre ++ PyStr.dropwhile p l.
Proof.
  induction l as [|c l [pre IH]]; cbn; [now exists []|].
  destruct (p c); [|now exists []].
  exists (c :: pre). cbn. now f_equal.
Qed.

Lemma dropwhile_end_prefix p l : exists rest, l = PyStr.dropwhile_end p l ++ rest.
Proof.
  unfold PyStr.dropwhile_end.
  destruct (dropwhile_suffix p (rev l)) as [pre H].
  exists (rev pre). rewrite <- rev_app_distr, <- H. symmetry; apply rev_involutive.
Qed.

Lemma dropwhile_end_head p l :
  head_out p l -> head_out p (PyStr.dropwhile_end p l).
Proof.
  destruct l as [|c l]; [intros _; exact I|]. cbn [head_out]. intros Hc.
  unfold PyStr.dropwhile_end. cbn [rev].
  assert (H : forall x, exists y, PyStr.dropwhile p (x ++ [c]) = y ++ [c]).
  { induction x as [|a x [y IH]]; cbn.
    - rewrite Hc. now exists [].
    - destruct (p a); [now exists y|]. now exists (a :: x). }
  destruct (H (rev l)) as [y ->]. rewrite rev_app_distr. cbn. exact Hc.
Qed.

Lemma dropwhile_end_fix p l :
  PyStr.dropwhile_end p (PyStr.dropwhile_end p l) = PyStr.dropwhile_end p l.
Proof.
  unfold PyStr.dropwhile_end. rewrite rev_involutive.
  now rewrite (dropwhile_fix p _ (dropwhile_head p (rev l))).
Qed.

Lemma strip_by_fix p l : PyStr.strip_by p (PyStr.strip_by p l) = PyStr.strip_by p l.
Proof.
  unfold PyStr.strip_by.
  rewrite (dropwhile_fix p (PyStr.dropwhile_end p (PyStr.dropwhile p l))).
  - apply dropwhile_end_fix.
  - apply dropwhile_end_head, dropwhile_head.
Qed.

Lemma strip_by_head p l : head_out p (PyStr.strip_by p l).
Proof. apply dropwhile_end_head, dropwhile_head. Qed.

Lemma strip_strip s : PyStr.strip (PyStr.strip s) = PyStr.strip s.
Proof. unfold PyStr.strip. now rewrite chars_of_chars, strip_by_fix. Qed.

Lemma dropwhile_none p l :
  Forall (fun c => p c = false) l -> PyStr.dropwhile p l = l.
Proof. intros H. apply dropwhile_fix. destruct H; [exact I|assumption]. Qed.

Lemma strip_by_none p l :
  Forall (fun c => p c = false) l -> PyStr.strip_by p l = l.
Proof.
  intros H. unfold PyStr.strip_by, PyStr.dropwhile_end.
  rewrite (dropwhile_none p l H), dropwhile_none; [apply rev_involutive|].
  apply Forall_rev, H.
Qed.

Lemma filter_all {A : Type} (p : A -> bool) l :
  Forall (fun c => p c = true) l -> filter p l = l.
Proof.
  induction 1 as [|c l Hc _ IH]; cbn; [reflexivity|]. now rewrite Hc, IH.
Qed.

Lemma no_adjacent_app p l l' : no_adjacent p (l ++ l') -> no_adjacent p l.
Proof.
  induction l as [|a l IH]; cbn; [intros _; exact I|].
  intros [Ha H]. split; [|now apply IH].
  intros Hp. specialize (Ha Hp). destruct l as [|b l]; [exact I|exact Ha].
Qed.

Lemma no_adjacent_suffix p l l' : no_adjacent p (l ++ l') -> no_adjacent p l'.
Proof. induction l as [|a l IH]; cbn; [auto|]. intros [_ H]. now apply IH. Qed.

Lemma no_adjacent_strip_by p q l : no_adjacent p l -> no_adjacent p (PyStr.strip_by q l).
Proof.
  intros H. unfold PyStr.strip_by.
  destruct (dropwhile_suffix q l) as [pre E].
  rewrite E in H. apply no_adjacent_suffix in H.
  destruct (dropwhile_end_prefix q (PyStr.dropwhile q l)) as [rest E'].
  rewrite E' in H. now apply no_adjacent_app in H.
Qed.

Lemma no_adjacent_firstn p n l : no_adjacent p l -> no_adjacent p (firstn n l).
Proof.
  intros H. rewrite <- (firstn_skipn n l) in H. now apply no_adjacent_app in H.
Qed.

(** what [re.sub(cls+, rep, s)] leaves when [rep] is in the class: no two
    neighbours in the class *)
Lemma sub_runs_no_adjacent cls rep l : forall inrun,
  no_adjacent cls (PyStr.sub_runs cls rep inrun l) /\
  (inrun = true -> head_out cls (PyStr.sub_runs cls rep inrun l)).
Proof.
  induction l as [|c l IH]; intros inrun; cbn [PyStr.sub_runs].
  - split; [exact I|intros _; exact I].
  - destruct (cls c) eqn:Ec.
    + destruct inrun.
      * apply IH.
      * destruct (IH true) as [Hn Hh]. split; [|discriminate].
        cbn [no_adjacent]. split; [|exact Hn]. intros _.
        specialize (Hh eq_refl).
        destruct (PyStr.sub_runs cls rep true l); [exact I|exact Hh].
    + destruct (IH false) as [Hn _]. split.
      * cbn [no_adjacent]. split; [|exact Hn]. intros H. congruence.
      * intros _. exact Ec.
Qed.

(** the substitution changes nothing in a string where the class only
    occurs as single [rep]s *)
Lemma sub_runs_fix cls rep l : forall inrun,
  Forall (fun c => cls c = true -> c = rep) l ->
  no_adjacent cls l ->
  (inrun = true -> head_out cls l) ->
  PyStr.sub_runs cls rep inrun l = l.
Proof.
  induction l as [|c l IH]; intros inrun Hall Hn Hh; [reflexivity|].
  cbn [PyStr.sub_runs]. apply Forall_cons_iff in Hall as [Hc Hall].
  destruct Hn as [Hadj Hn].
  destruct (cls c) eqn:Ec.
  - destruct inrun.
    + specialize (Hh eq_refl). cbn in Hh. congruence.
    + rewrite (Hc eq_refl). f_equal. apply IH; [exact Hall|exact Hn|].
      intros _. specialize (Hadj eq_refl). destruct l; [exact I|exact Hadj].
  - f_equal. apply IH; [exact Hall|exact Hn|discriminate].
Qed.

Lemma clean_char_facts c :
  clean_char c = true ->
  PyStr.isspace c = false /\ negb (invalid_char c) = true /\
  (PyStr.isword c || PyStr.isspace c || is_dash c) = true /\
  ((is_dash c || PyStr.isspace c) = true -> c = "-"%char).
Proof.
  destruct c as [[] [] [] [] [] [] [] []]; vm_compute; intros H;
    try discriminate H; repeat split; try discriminate; reflexivity.
Qed.

Lemma no_adjacent_weaken (p q : ascii -> bool) l :
  (forall c, p c = true -> q c = true) -> no_adjacent q l -> no_adjacent p l.
Proof.
  intros Hpq. induction l as [|a l IH]; cbn; [auto|].
  intros [Ha H]. split; [|now apply IH].
  intros Hp. specialize (Ha (Hpq _ Hp)).
  destruct l as [|b l]; [exact I|].
  destruct (p b) eqn:Eb; [|reflexivity]. apply Hpq in Eb. congruence.
Qed.

Lemma sanitize_chars_no_adjacent l :
  no_adjacent (fun c => is_dash c || PyStr.isspace c) (sanitize_chars l).
Proof.
  unfold sanitize_chars.
  apply no_adjacent_firstn, no_adjacent_strip_by.
  apply (proj1 (sub_runs_no_adjacent _ _ _ false)).
Qed.

Lemma sanitize_chars_head l : head_out is_dash (sanitize_chars l).
Proof.
  unfold sanitize_chars.
  pose proof (strip_by_head is_dash
    (PyStr.sub_runs (fun c => is_dash c || PyStr.isspace c) "-"%char false
       (filter (fun c => PyStr.isword c || PyStr.isspace c || is_dash c)
          (filter (fun c => negb (invalid_char c))
             (PyStr.strip_by PyStr.isspace l))))) as H.
  destruct (PyStr.strip_by is_dash _) as [|c x]; [exact I|exact H].
Qed.

(** X5: a sanitized name never starts with a dash and never has two dashes
    in a row. *)
Theorem sanitize_filename_dashes (name : string) :
  head_out is_dash (PyStr.chars (sanitize_filename name)) /\
  no_adjacent is_dash (PyStr.chars (sanitize_filename name)).
Proof.
  destruct (sanitize_filename_cases name) as [->|[-> _]].
  - split; [reflexivity|]. cbn. repeat split; discriminate.
  - rewrite chars_of_chars. split; [apply sanitize_chars_head|].
    apply no_adjacent_weaken with (q := fun c => is_dash c || PyStr.isspace c);
      [|apply sanitize_chars_no_adjacent].
    intros c ->. reflexivity.
Qed.

Lemma sanitize_chars_fix l :
  List.length (sanitize_chars l) < 100 ->
  sanitize_chars (sanitize_chars l) = sanitize_chars l.
Proof.
  intros Hlen.
  pose proof (sanitize_chars_clean l) as Hclean.
  pose proof (sanitize_chars_no_adjacent l) as Hadj.
  assert (Hstrip : PyStr.strip_by is_dash (sanitize_chars l) = sanitize_chars l).
  { revert Hlen. unfold sanitize_chars.
    set (l4 := PyStr.strip_by is_dash _). intros Hlen.
    rewrite length_firstn in Hlen.
    rewrite (firstn_all2 (n := 100) l4) by lia.
    apply strip_by_fix. }
  set (r := sanitize_chars l) in *.
  unfold sanitize_chars at 1.
  rewrite (strip_by_none PyStr.isspace r).
  2:{ eapply Forall_impl; [|exact Hclean]. intros c Hc.
      apply (clean_char_facts c Hc). }
  rewrite (filter_all (fun c => negb (invalid_char c)) r).
  2:{ eapply Forall_impl; [|exact Hclean]. intros c Hc.
      apply (clean_char_facts c Hc). }
  rewrite (filter_all (fun c => PyStr.isword c || PyStr.isspace c || is_dash c) r).
  2:{ eapply Forall_impl; [|exact Hclean]. intros c Hc.
      apply (clean_char_facts c Hc). }
  rewrite sub_runs_fix; [| |exact Hadj|discriminate].
  2:{ eapply Forall_impl; [|exact Hclean]. intros c Hc.
      apply (clean_char_facts c Hc). }
  rewrite Hstrip. apply firstn_all2. lia.
Qed.

(** X6: sanitizing a sanitized name of fewer than 100 characters changes
    nothing. *)
Theorem sanitize_filename_idempotent (name : string) :
  String.length (sanitize_filename name) < 100 ->
  sanitize_filename (sanitize_filename name) = sanitize_filename name.
Proof.
  destruct (sanitize_filename_cases name) as [->|[-> Hne]]; [reflexivity|].
  rewrite length_of_chars. intros Hlen.
  set (r := sanitize_chars (PyStr.chars name)) in *.
  assert (Hr : PyStr.truthy (PyStr.of_chars r) = true).
  { destruct r; [contradiction|reflexivity]. }
  unfold sanitize_filename. rewrite Hr. cbn [negb orb].
  unfold PyStr.strip. rewrite chars_of_chars.
  rewrite (strip_by_none PyStr.isspace r).
  2:{ eapply Forall_impl; [|apply sanitize_chars_clean]. intros c Hc.
      apply (clean_char_facts c Hc). }
  rewrite Hr. cbn [negb]. unfold r. rewrite sanitize_chars_fix by exact Hlen.
  fold r. now rewrite Hr.
Qed.

Lemma sanitize_filename_idempotent_witness :
  sanitize_filename "My: Road  Trip - 2024 " = "My-Road-Trip-2024" /\
  sanitize_filename (sanitize_filename "My: Road  Trip - 2024 ")
    = sanitize_filename "My: Road  Trip - 2024 ".
Proof.
  split; [vm_compute; reflexivity|].
  apply (sanitize_filename_idempotent "My: Road  Trip - 2024 ").
  vm_compute. lia.
Defined.

(** the bound is needed: a name cut at 100 characters can end with a dash,
    which a second pass strips *)
Remark sanitize_filename_cut_at_dash :
  let name := (PyStr.of_chars (repeat "a"%char 99) ++ "-b")%string in
  sanitize_filename name = (PyStr.of_chars (repeat "a"%char 99) ++ "-")%string /\
  sanitize_filename (sanitize_filename name) = PyStr.of_chars (repeat "a"%char 99).
Proof. split; vm_compute; reflexivity. Qed.

(** ** The validation gate *)

Lemma validate_true name artists_str :
  fst (validate_track_data name artists_str) = true ->
  validate_track_data name artists_str = (true, "Valid").
Proof.
  unfold validate_track_data.
  repeat match goal with
         | |- context [if ?b then _ else _] => destruct b
         end; cbn; intros H; (discriminate H || reflexivity).
Qed.

Lemma add_artists_inv (l : list raw_artist) : forall acc,
  (NoDup (fst acc) /\ List.length (snd acc) = List.length (fst acc)) ->
  NoDup (fst (fold_left add_artist l acc)) /\
  List.length (snd (fold_left add_artist l acc))
    = List.length (fst (fold_left add_artist l acc)).
Proof.
  induction l as [|a l IH]; intros acc H; cbn [fold_left]; [exact H|].
  apply IH. destruct acc as [names uris]. unfold add_artist.
  set (n := PyStr.strip (safe_get (artist_profile_name a) "")).
  destruct (PyStr.truthy n); cbn [andb]; [|exact H].
  destruct (PyStr.mem n names) eqn:Em; cbn [negb]; [exact H|].
  cbn [fst snd] in *. destruct H as [Hnd Hlen]. split.
  - apply NoDup_app; [exact Hnd|constructor; [intros []|constructor]|].
    intros x Hx [<-|[]]. apply mem_false in Em. contradiction.
  - rewrite !length_app, Hlen. reflexivity.
Qed.

Lemma candidate_valid_inv now item tc :
  candidate now item = valid_track tc ->
  validate_track_data (track_name tc) (artists_string tc) = (true, "Valid") /\
  NoDup (artists tc) /\
  List.length (artist_uris tc) = List.length (artists tc) /\
  artists_string tc =
    match artists tc with
    | [] => "Unknown Artist"
    | _ => PyStr.join ", " (artists tc)
    end /\
  processed_at tc = now.
Proof.
  destruct item as [|typename data added]; [discriminate|].
  unfold candidate.
  destruct (negb (String.eqb (safe_get typename "Unknown") "TrackResponseWrapper"));
    [discriminate|].
  pose proof (add_artists_inv (rt_artists data) ([], [])
                (conj (NoDup_nil _) eq_refl)) as [Hnd Hlen].
  destruct (fold_left add_artist (rt_artists data) ([], [])) as [names uris].
  cbn [fst snd] in Hnd, Hlen.
  set (name := PyStr.strip (safe_get (rt_name data) "")).
  set (artists_str := match names with
                      | [] => "Unknown Artist"
                      | _ => PyStr.join ", " names
                      end).
  pose proof (validate_true name artists_str) as Hv.
  destruct (validate_track_data name artists_str) as [is_valid reason] eqn:Ev.
  destruct is_valid; cbn [negb andb Config.SKIP_INVALID_TRACKS];
    [|discriminate].
  intros E. injection E as <-.
  cbn [track_name artists_string artists artist_uris processed_at].
  split; [rewrite Ev; now apply Hv|]. repeat split; assumption.
Qed.

Lemma validate_unknown_artist name :
  fst (validate_track_data name "Unknown Artist") = false.
Proof.
  unfold validate_track_data.
  destruct (negb (PyStr.truthy (PyStr.strip name))
            || (String.length (PyStr.strip name) <? Config.MIN_TRACK_NAME_LENGTH)%nat);
    [reflexivity|].
  cbv beta iota delta [Config.MIN_TRACK_NAME_LENGTH].
  replace (PyStr.strip "Unknown Artist") with "Unknown Artist"
    by (vm_compute; reflexivity).
  replace (PyStr.lower "Unknown Artist") with "unknown artist"
    by (vm_compute; reflexivity).
  cbn -[PyStr.mem PyStr.lower PyStr.strip].
  destruct (PyStr.mem (PyStr.lower (PyStr.strip name)) _); reflexivity.
Qed.

(** X7: every track the extraction returns has passed the validation gate:
    it has a valid name, at least one artist, no artist twice, one artist
    URI for each artist, and a song id. *)
Theorem extracted_tracks_are_valid (m : SmartSongManager) (now : string)
    (items : list raw_item) (t : track_info) :
  In t (tracks_of m now items) ->
  validate_track_data (track_name t) (artists_string t) = (true, "Valid") /\
  artists t <> [] /\
  NoDup (artists t) /\
  List.length (artist_uris t) = List.length (artists t) /\
  artists_string t = PyStr.join ", " (artists t) /\
  PyStr.truthy (song_id t) = true /\
  skip_download t = existing_song_found t.
Proof.
  intros Hin. pose proof (tracks_of_truthy _ _ _ _ Hin) as Hid.
  apply in_tracks_of in Hin as [item [_ Hx]].
  apply extract_item_valid in Hx as [tc [existing [Hc [_ Ht]]]].
  apply candidate_valid_inv in Hc as [Hv [Hnd [Hlen [Hstr _]]]].
  assert (Hne : artists tc <> []).
  { intros E. rewrite E in Hstr. rewrite Hstr in Hv.
    pose proof (validate_unknown_artist (track_name tc)) as Hu.
    rewrite Hv in Hu. discriminate Hu. }
  rewrite Ht. cbn [with_identity track_name artists_string artists artist_uris
                     song_id skip_download existing_song_found].
  split; [exact Hv|]. split; [exact Hne|]. split; [exact Hnd|].
  split; [exact Hlen|]. split; [|split; [|reflexivity]].
  - rewrite Hstr. destruct (artists tc); [contradiction|reflexivity].
  - rewrite Ht in Hid. exact Hid.
Qed.

Lemma extracted_tracks_are_valid_witness :
  let t := {| track_name := "Song A"; track_uri := "spotify:track:1";
              artists := ["Artist X"]; artist_uris := [""];
              artists_string := "Artist X"; album_name := "Unknown Album";
              album_uri := ""; duration_ms := 0%N; added_at := "";
              processed_at := "t"; song_id := generate_song_id "Song A" "Artist X";
              skip_download := false; existing_song_found := false |} in
  In t (tracks_of new_manager "t" [track_item "Song A" "spotify:track:1" "Artist X"]) /\
  validate_track_data (track_name t) (artists_string t) = (true, "Valid").
Proof.
  assert (H : In {| track_name := "Song A"; track_uri := "spotify:track:1";
              artists := ["Artist X"]; artist_uris := [""];
              artists_string := "Artist X"; album_name := "Unknown Album";
              album_uri := ""; duration_ms := 0%N; added_at := "";
              processed_at := "t"; song_id := generate_song_id "Song A" "Artist X";
              skip_download := false; existing_song_found := false |}
            (tracks_of new_manager "t"
               [track_item "Song A" "spotify:track:1" "Artist X"])).
  { vm_compute. left. reflexivity. }
  split; [exact H|].
  exact (proj1 (extracted_tracks_are_valid _ _ _ _ H)).
Defined.

Lemma add_artists_blank (l : list raw_artist) : forall acc,
  Forall (fun a => PyStr.strip (safe_get (artist_profile_name a) "") = "") l ->
  fold_left add_artist l acc = acc.
Proof.
  induction l as [|a l IH]; intros acc H; cbn [fold_left]; [reflexivity|].
  apply Forall_cons_iff in H as [Ha H]. rewrite <- (IH acc H) at 2.
  f_equal. destruct acc as [names uris]. unfold add_artist. now rewrite Ha.
Qed.

Lemma truthy_length s :
  (String.length s <? 1)%nat = negb (PyStr.truthy s).
Proof. destruct s; reflexivity. Qed.

(** X8: a track item none of whose artists has a name is never returned: it
    goes to the skip log under the artist name [Unknown Artist], and, when
    its own name is acceptable, with the reason that the artist name is a
    placeholder. *)
Theorem track_without_artist_is_rejected (m : SmartSongManager) (now : string)
    (typename : option string) (data : raw_track) (added : option string) :
  safe_get typename "Unknown" = "TrackResponseWrapper" ->
  Forall (fun a => PyStr.strip (safe_get (artist_profile_name a) "") = "")
    (rt_artists data) ->
  let name := PyStr.strip (safe_get (rt_name data) "") in
  exists entry,
    extract_item m now (item_v2 typename data added) = rejected entry /\
    sk_track_name entry = name /\
    sk_artists entry = "Unknown Artist" /\
    sk_reason entry =
      if negb (PyStr.truthy name) then "Track name is empty or too short"
      else if PyStr.mem (PyStr.lower name) ["unknown track"; "unknown"; ""]
      then "Track name is placeholder value"
      else "Artist name is placeholder value".
Proof.
  intros Hty Hblank name.
  unfold extract_item, candidate. rewrite Hty. cbn [String.eqb negb].
  replace (String.eqb "TrackResponseWrapper" "TrackResponseWrapper") with true
    by (vm_compute; reflexivity).
  cbn [negb]. rewrite (add_artists_blank _ _ Hblank). fold name.
  assert (Hv : validate_track_data name "Unknown Artist" =
               (false,
                if negb (PyStr.truthy name) then "Track name is empty or too short"
                else if PyStr.mem (PyStr.lower name) ["unknown track"; "unknown"; ""]
                then "Track name is placeholder value"
                else "Artist name is placeholder value")).
  { unfold validate_track_data.
    replace (PyStr.strip name) with name by (symmetry; apply strip_strip).
    cbv beta iota delta [Config.MIN_TRACK_NAME_LENGTH].
    rewrite truthy_length, orb_diag.
    destruct (negb (PyStr.truthy name)); [reflexivity|].
    replace (PyStr.strip "Unknown Artist") with "Unknown Artist"
      by (vm_compute; reflexivity).
    replace (PyStr.lower "Unknown Artist") with "unknown artist"
      by (vm_compute; reflexivity).
    cbn -[PyStr.mem PyStr.lower PyStr.strip].
    destruct (PyStr.mem (PyStr.lower name) _); reflexivity. }
  rewrite Hv. cbn [negb andb Config.SKIP_INVALID_TRACKS].
  eexists. split; [reflexivity|]. cbn. repeat split; reflexivity.
Qed.

Lemma track_without_artist_is_rejected_witness :
  let data := {| rt_name := Some "Song A"; rt_uri := Some "spotify:track:1";
                 rt_artists := [{| artist_profile_name := Some "  ";
                                   artist_uri := Some "spotify:artist:1" |}];
                 rt_album_name := None; rt_album_uri := None;
                 rt_total_milliseconds := 0%N |} in
  exists entry,
    extract_item new_manager "t" (item_v2 (Some "TrackResponseWrapper") data None)
      = rejected entry /\
    sk_track_name entry = "Song A" /\
    sk_artists entry = "Unknown Artist" /\
    sk_reason entry = "Artist name is placeholder value".
Proof.
  apply (track_without_artist_is_rejected new_manager "t"
           (Some "TrackResponseWrapper")
           {| rt_name := Some "Song A"; rt_uri := Some "spotify:track:1";
              rt_artists := [{| artist_profile_name := Some "  ";
                                artist_uri := Some "spotify:artist:1" |}];
              rt_album_name := None; rt_album_uri := None;
              rt_total_milliseconds := 0%N |} None).
  - reflexivity.
  - repeat constructor.
Defined.

(** ** Song ids *)

Lemma chars_app s1 s2 : PyStr.chars (s1 ++ s2) = PyStr.chars s1 ++ PyStr.chars s2.
Proof. induction s1 as [|c s1 IH]; cbn; [reflexivity|]. now f_equal. Qed.

Lemma of_chars_app l1 l2 :
  PyStr.of_chars (l1 ++ l2) = (PyStr.of_chars l1 ++ PyStr.of_chars l2)%string.
Proof. induction l1 as [|c l1 IH]; cbn; [reflexivity|]. now f_equal. Qed.

Lemma id_chars_app s1 s2 : id_chars (s1 ++ s2) = id_chars s1 ++ id_chars s2.
Proof.
  unfold id_chars, PyStr.lower.
  now rewrite !chars_of_chars, chars_app, map_app, filter_app.
Qed.

Lemma generate_song_id_id_chars name artists_str :
  generate_song_id name artists_str =
    ("song_" ++ substring 0 12
       (MD5.hexdigest
          (PyStr.of_chars (id_chars name ++ "_"%char :: id_chars artists_str))))%string.
Proof.
  unfold generate_song_id. do 3 f_equal.
  change (filter id_char (PyStr.chars (PyStr.lower (name ++ "_" ++ artists_str))))
    with (id_chars (name ++ "_" ++ artists_str)).
  now rewrite !id_chars_app.
Qed.

(** X9: the song id reads only the letters a-z, the digits and the
    underscores of the lower-cased name and artists. *)
Theorem generate_song_id_reads_id_chars (name artists_str name' artists_str' : string) :
  id_chars name = id_chars name' ->
  id_chars artists_str = id_chars artists_str' ->
  generate_song_id name artists_str = generate_song_id name' artists_str'.
Proof.
  intros Hn Ha. rewrite !generate_song_id_id_chars. now rewrite Hn, Ha.
Qed.

Lemma generate_song_id_reads_id_chars_witness :
  id_chars "Don't Stop!" = id_chars "dontstop" /\
  generate_song_id "Don't Stop!" "AC/DC" = generate_song_id "dontstop" "acdc".
Proof.
  split; [vm_compute; reflexivity|].
  apply (generate_song_id_reads_id_chars "Don't Stop!" "AC/DC" "dontstop" "acdc");
    vm_compute; reflexivity.
Defined.

Lemma dropwhile_split p l :
  exists pre, l = pre ++ PyStr.dropwhile p l /\ Forall (fun c => p c = true) pre.
Proof.
  induction l as [|c l [pre [IH Hpre]]]; cbn; [now exists []|].
  destruct (p c) eqn:Ec; [|now exists []].
  exists (c :: pre). split; [cbn; now f_equal|now constructor].
Qed.

Lemma strip_by_split p l :
  exists pre post,
    l = pre ++ PyStr.strip_by p l ++ post /\
    Forall (fun c => p c = true) pre /\ Forall (fun c => p c = true) post.
Proof.
  unfold PyStr.strip_by, PyStr.dropwhile_end.
  destruct (dropwhile_split p l) as [pre [E Hpre]].
  destruct (dropwhile_split p (rev (PyStr.dropwhile p l))) as [post [E' Hpost]].
  exists pre, (rev post). split; [|split; [exact Hpre|now apply Forall_rev]].
  rewrite <- rev_app_distr, <- E', rev_involutive. exact E.
Qed.

Lemma filter_none {A : Type} (q : A -> bool) l :
  Forall (fun c => q c = false) l -> filter q l = [].
Proof. induction 1 as [|c l Hc _ IH]; cbn; [reflexivity|]. now rewrite Hc. Qed.

Lemma id_char_not_space c : PyStr.isspace c = true -> id_char c = false.
Proof.
  destruct c as [[] [] [] [] [] [] [] []]; vm_compute; intros H;
    (discriminate H || reflexivity).
Qed.

Lemma id_chars_strip_lower s :
  filter id_char (PyStr.chars (PyStr.strip (PyStr.lower s))) = id_chars s.
Proof.
  unfold id_chars, PyStr.strip. rewrite chars_of_chars.
  destruct (strip_by_split PyStr.isspace (PyStr.chars (PyStr.lower s)))
    as [pre [post [E [Hpre Hpost]]]].
  rewrite E at 2. rewrite !filter_app.
  rewrite (filter_none id_char pre), (filter_none id_char post).
  - now rewrite app_nil_r.
  - eapply Forall_impl; [|exact Hpost]. apply id_char_not_space.
  - eapply Forall_impl; [|exact Hpre]. apply id_char_not_space.
Qed.

(** X10: two records with the same lower-cased and stripped name and
    artists resolve alike: to the same registered song, or to the same new
    id. *)
Theorem resolve_reads_normalized_name (m : SmartSongManager)
    (uri name artists_str name' artists_str' : string) :
  PyStr.strip (PyStr.lower name) = PyStr.strip (PyStr.lower name') ->
  PyStr.strip (PyStr.lower artists_str) = PyStr.strip (PyStr.lower artists_str') ->
  resolve m uri name artists_str = resolve m uri name' artists_str'.
Proof.
  intros Hn Ha.
  assert (Hid : generate_song_id name artists_str
                = generate_song_id name' artists_str').
  { rewrite !generate_song_id_id_chars.
    rewrite <- !id_chars_strip_lower, Hn, Ha. reflexivity. }
  unfold resolve, find_existing_song, name_artist_key.
  rewrite Hn, Ha, Hid. reflexivity.
Qed.

Lemma resolve_reads_normalized_name_witness :
  PyStr.strip (PyStr.lower "Song A ") = PyStr.strip (PyStr.lower " SONG a") /\
  resolve new_manager "" "Song A " "Artist X"
    = resolve new_manager "" " SONG a" "artist x".
Proof.
  split; [vm_compute; reflexivity|].
  apply (resolve_reads_normalized_name new_manager "" "Song A " "Artist X"
           " SONG a" "artist x"); vm_compute; reflexivity.
Defined.

Lemma length_le_bytes n x : List.length (MD5.le_bytes n x) = n.
Proof. revert x. induction n as [|n IH]; intros x; cbn; [reflexivity|]. now rewrite IH. Qed.

Lemma length_digest msg : List.length (MD5.digest msg) = 16.
Proof.
  unfold MD5.digest.
  destruct (MD5.blocks _ _ _) as [[[A B] C] D].
  now rewrite !length_app, !length_le_bytes.
Qed.

Lemma hex_digit_is_hex d : is_hex (MD5.hex_digit d) = true.
Proof.
  unfold MD5.hex_digit.
  assert (H : forall n, is_hex (nth n (PyStr.chars "0123456789abcdef") "0"%char) = true).
  { intros n. do 17 (destruct n as [|n]; [reflexivity|]). reflexivity. }
  apply H.
Qed.

Lemma hex_bytes l :
  List.length (flat_map MD5.hex_byte l) = 2 * List.length l /\
  Forall (fun c => is_hex c = true) (flat_map MD5.hex_byte l).
Proof.
  induction l as [|b l [IHl IHf]]; cbn [flat_map]; [split; [reflexivity|constructor]|].
  split.
  - cbn [MD5.hex_byte app List.length]. rewrite IHl. lia.
  - unfold MD5.hex_byte at 1. cbn [app].
    constructor; [apply hex_digit_is_hex|].
    constructor; [apply hex_digit_is_hex|exact IHf].
Qed.

Lemma substring_firstn n : forall l,
  substring 0 n (PyStr.of_chars l) = PyStr.of_chars (firstn n l).
Proof.
  induction n as [|n IH]; intros [|c l]; cbn; try reflexivity.
  now rewrite <- IH.
Qed.

(** X11: a song id is the word song, an underscore and twelve lower-case
    hexadecimal digits. *)
Theorem generate_song_id_format (name artists_str : string) :
  exists hex,
    generate_song_id name artists_str = ("song_" ++ PyStr.of_chars hex)%string /\
    List.length hex = 12 /\
    Forall (fun c => is_hex c = true) hex.
Proof.
  unfold generate_song_id, MD5.hexdigest. rewrite substring_firstn.
  set (bytes := MD5.digest _).
  destruct (hex_bytes bytes) as [Hlen Hhex].
  exists (firstn 12 (flat_map MD5.hex_byte bytes)).
  split; [reflexivity|]. split.
  - rewrite length_firstn, Hlen. unfold bytes. rewrite length_digest. reflexivity.
  - apply Forall_firstn, Hhex.
Qed.

(** ** The catalog across the jobs of a run *)

Lemma upserts_ind (P : SmartSongManager -> Prop) now :
  (forall m c id t r, P m -> P (fst (add_song_to_playlist now m c id t r))) ->
  forall results m c, P m -> P (fst (upserts now results (m, c))).
Proof.
  intros Hstep. induction results as [|r results IH]; intros m c Hm; [exact Hm|].
  rewrite upserts_cons. cbn [fst snd].
  destruct (add_song_to_playlist now m c (song_id (r_metadata r)) (r_metadata r) r)
    as [m' c'] eqn:E.
  apply IH. replace m' with (fst (add_song_to_playlist now m c
    (song_id (r_metadata r)) (r_metadata r) r)) by now rewrite E.
  now apply Hstep.
Qed.

Lemma add_song_index_sound now m c id t r :
  index_sound m -> index_sound (fst (add_song_to_playlist now m c id t r)).
Proof.
  intros Hm k X H. rewrite add_song_contains.
  destruct (add_song_index now m c id t r) as [[_ [Eu En]]|[_ [Eu En]]];
    rewrite Eu, En in H.
  - rewrite (Hm k X H). apply orb_true_r.
  - unfold register_uri, register_name in H. destruct H as [H|H].
    + destruct (PyStr.truthy (track_uri t)).
      * rewrite DictFacts.get_set in H.
        destruct (String.eqb_spec (track_uri t) k).
        -- injection H as <-. now rewrite String.eqb_refl.
        -- rewrite (Hm k X) by now left. apply orb_true_r.
      * rewrite (Hm k X) by now left. apply orb_true_r.
    + destruct (name_artist_key _ _) as [nk|].
      * rewrite DictFacts.get_set in H.
        destruct (String.eqb_spec nk k).
        -- injection H as <-. now rewrite String.eqb_refl.
        -- rewrite (Hm k X) by now right. apply orb_true_r.
      * rewrite (Hm k X) by now right. apply orb_true_r.
Qed.

Lemma new_manager_index_sound : index_sound new_manager.
Proof. intros k X [H|H]; discriminate H. Qed.

Lemma managed_index_sound d m : managed d m -> index_sound m.
Proof.
  induction 1 as [|now m c id t r _ IH].
  - unfold load_existing_database. destruct (songs_database d).
    + apply load_index_sound, new_manager_index_sound.
    + apply new_manager_index_sound.
  - now apply add_song_index_sound.
Qed.

Lemma managed_upserts d now results m c :
  managed d m -> managed d (fst (upserts now results (m, c))).
Proof.
  apply (upserts_ind (managed d) now). intros. now apply managed_add.
Qed.

Lemma validate_false name artists_str :
  fst (validate_track_data name artists_str) = false ->
  In (snd (validate_track_data name artists_str)) validation_reasons.
Proof.
  unfold validate_track_data, validation_reasons.
  repeat match goal with
         | |- context [if ?b then _ else _] => destruct b
         end; cbn [fst snd]; intros H; try discriminate H; cbn; tauto.
Qed.

Lemma candidate_rejected_inv now item entry :
  candidate now item = rejected entry ->
  In (sk_reason entry) validation_reasons.
Proof.
  destruct item as [|typename data added]; [discriminate|].
  unfold candidate.
  destruct (negb (String.eqb (safe_get typename "Unknown") "TrackResponseWrapper"));
    [discriminate|].
  destruct (fold_left add_artist (rt_artists data) ([], [])) as [names uris].
  set (name := PyStr.strip (safe_get (rt_name data) "")).
  set (artists_str := match names with
                      | [] => "Unknown Artist"
                      | _ => PyStr.join ", " names
                      end).
  pose proof (validate_false name artists_str) as Hv.
  destruct (validate_track_data name artists_str) as [is_valid reason].
  destruct is_valid; cbn [negb andb Config.SKIP_INVALID_TRACKS];
    [discriminate|].
  intros E. injection E as <-. cbn [sk_reason]. now apply Hv.
Qed.

Lemma in_skips_of m now items entry :
  In entry (skips_of m now items) <->
  exists item, In item items /\ extract_item m now item = rejected entry.
Proof.
  unfold skips_of. rewrite in_flat_map. split.
  - intros [item [Hin H]]. exists item. split; [exact Hin|].
    destruct (extract_item m now item); try destruct H as [<-|[]]; try destruct H.
    reflexivity.
  - intros [item [Hin H]]. exists item. split; [exact Hin|]. rewrite H. now left.
Qed.

(** X12: on the manager of a run the lookup of a record never raises, so
    every entry that the extraction adds to the skip log carries one of the
    four reasons of the validation gate. *)
Theorem managed_lookup_never_raises (d : disk) (m : SmartSongManager) :
  managed d m ->
  (forall uri name artists_str,
      exists found, find_existing_song m uri name artists_str = Ok found) /\
  (forall now items entry,
      In entry (snd (extract_enhanced_track_info items m now)) ->
      In (sk_reason entry) validation_reasons).
Proof.
  intros Hm. pose proof (managed_index_sound d m Hm) as Hs. split.
  - intros uri name artists_str.
    destruct (resolve_sound m uri name artists_str Hs) as [existing Hr].
    unfold resolve in Hr.
    destruct (find_existing_song m uri name artists_str) as [found|msg];
      [now exists found|discriminate Hr].
  - intros now items entry. rewrite extract_enhanced_track_info_eq. cbn [snd].
    intros Hin. apply in_skips_of in Hin as [item [_ Hx]].
    unfold extract_item in Hx.
    destruct (candidate now item) as [|entry'|tc] eqn:Ec; [discriminate| |].
    + injection Hx as <-. now apply candidate_rejected_inv in Ec.
    + destruct (resolve_sound m (track_uri tc) (track_name tc) (artists_string tc) Hs)
        as [existing Hr].
      rewrite Hr in Hx. discriminate Hx.
Qed.

Lemma managed_lookup_never_raises_witness :
  managed empty_disk new_manager /\
  exists found,
    find_existing_song new_manager "spotify:track:1" "Song A" "Artist X" = Ok found.
Proof.
  split; [exact (managed_load empty_disk)|].
  exact (proj1 (managed_lookup_never_raises empty_disk new_manager
                  (managed_load empty_disk))
           "spotify:track:1" "Song A" "Artist X").
Defined.

(** the lookup does raise on a catalog whose tables name a missing song *)
Remark find_existing_song_raises :
  find_existing_song
    {| existing_songs := []; uri_to_song_id := [("spotify:track:1", "song_1")];
       name_artist_to_song_id := [] |}
    "spotify:track:1" "Song A" "Artist X" = Raise "KeyError".
Proof. reflexivity. Qed.

Lemma get_update {V : Type} (e : dict V) : forall d k,
  Dict.uniq e = true ->
  Dict.get (Dict.update d e) k =
    match Dict.get e k with
    | Some v => Some v
    | None => Dict.get d k
    end.
Proof.
  unfold Dict.update.
  induction e as [|[k' v] e IH]; intros d k Hu; [reflexivity|].
  cbn [fold_left fst snd Dict.get].
  apply DictFacts.uniq_NoDup in Hu. cbn in Hu. apply NoDup_cons_iff in Hu as [Hk Hu].
  rewrite IH by now apply DictFacts.uniq_NoDup.
  destruct (String.eqb_spec k' k) as [->|Hne].
  - apply DictFacts.get_None in Hk. rewrite Hk. apply DictFacts.get_set_eq.
  - destruct (Dict.get e k); [reflexivity|]. now apply DictFacts.get_set_neq.
Qed.

Lemma keys_update {V : Type} (e : dict V) : forall d k,
  In k (Dict.keys d) -> In k (Dict.keys (Dict.update d e)).
Proof.
  unfold Dict.update.
  induction e as [|[k' v] e IH]; intros d k Hin; [exact Hin|].
  cbn [fold_left fst snd]. apply IH.
  rewrite DictFacts.keys_set. destruct (Dict.contains d k'); [exact Hin|].
  apply in_or_app. now left.
Qed.

(** X13: the save merges into the catalog: a song of the manager replaces
    the stored record of its id, every other stored song and every other
    stored playlist record stays as it is. *)
Theorem save_merges_into_catalog (m : SmartSongManager) (c : PlaylistConsolidator)
    (d : disk) :
  Dict.uniq (existing_songs m) = true ->
  let d' := save_consolidated_metadata m c d in
  (forall id,
      Dict.get (table (songs_database d')) id =
        match Dict.get (existing_songs m) id with
        | Some info => Some info
        | None => Dict.get (table (songs_database d)) id
        end) /\
  (forall id, In id (Dict.keys (table (songs_database d))) ->
              In id (Dict.keys (table (songs_database d')))) /\
  Dict.get (table (playlists_database d')) (playlist_name c)
    = Some (playlist_metadata_of c) /\
  (forall P, P <> playlist_name c ->
             Dict.get (table (playlists_database d')) P
               = Dict.get (table (playlists_database d)) P).
Proof.
  intros Hu d'. subst d'. rewrite save_playlists.
  cbn [save_consolidated_metadata songs_database table].
  split; [intros id; now apply get_update|].
  split; [intros id; apply keys_update|].
  split; [apply DictFacts.get_set_eq|].
  intros P HP. apply DictFacts.get_set_neq. congruence.
Qed.

Lemma save_merges_into_catalog_witness :
  let m := fst (add_song_to_playlist "t" new_manager (new_consolidator "P1")
                  "song_1" empty_track (not_fetched empty_track)) in
  let d' := save_consolidated_metadata m (new_consolidator "P1") empty_disk in
  Dict.uniq (existing_songs m) = true /\
  Dict.get (table (playlists_database d')) "P1" = Some empty_metadata.
Proof.
  split; [vm_compute; reflexivity|].
  apply (save_merges_into_catalog
           (fst (add_song_to_playlist "t" new_manager (new_consolidator "P1")
                   "song_1" empty_track (not_fetched empty_track)))
           (new_consolidator "P1") empty_disk).
  vm_compute. reflexivity.
Defined.

Lemma load_in_sync d :
  Dict.uniq (table (songs_database d)) = true ->
  in_sync (load_existing_database d) d.
Proof.
  intros Hu. destruct (load_existing_database_spec d Hu) as [Hs [Hc _]].
  split; [exact Hc|]. exists []. now rewrite Hs, app_nil_r.
Qed.

Lemma upserts_coherent now results m c :
  coherent m -> coherent (fst (upserts now results (m, c))).
Proof. apply (upserts_ind coherent now). intros. now apply add_song_coherent. Qed.

Lemma upserts_keys now results m c :
  exists extra,
    Dict.keys (existing_songs (fst (upserts now results (m, c)))) =
    Dict.keys (existing_songs m) ++ extra.
Proof.
  apply (upserts_ind
           (fun m' => exists extra,
              Dict.keys (existing_songs m') = Dict.keys (existing_songs m) ++ extra)
           now).
  - intros m' c' id t r [extra H].
    destruct (add_song_keys now m' c' id t r) as [extra' H'].
    exists (extra ++ extra'). now rewrite H', H, app_assoc.
  - exists []. now rewrite app_nil_r.
Qed.

(** a job that returns an error leaves the manager and the catalog as they
    were; a job that saves leaves the catalog holding the songs of the
    manager *)
Lemma process_single_playlist_sync e name url m d approved ctl :
  in_sync m d ->
  let o := process_single_playlist e name url m d approved ctl in
  (jr_error (jo_result o) <> None /\ jo_manager o = m /\ jo_disk o = d) \/
  (jr_error (jo_result o) = None /\
   coherent (jo_manager o) /\
   songs_database (jo_disk o) = Some (existing_songs (jo_manager o))).
Proof.
  intros Hsync o.
  pose proof (process_single_playlist_spec e name url m d approved ctl) as Hspec.
  cbv zeta in Hspec. fold o in Hspec.
  destruct Hspec as [[msg [_ [Hres [_ [Hm [Hd _]]]]]]|[requests [ctl2 [_ [_ Ho]]]]].
  { left. rewrite Hres. repeat split; [discriminate|assumption|assumption]. }
  pose proof (process_items_spec e name url m d approved ctl2
                (capture_requests requests)) as Hitems.
  cbv zeta in Hitems. rewrite <- Ho in Hitems.
  destruct Hitems as [[_ [msg [_ [Hres [_ [Hm [Hd _]]]]]]]
                     |[_ [c' [n [Herr [_ [_ [_ [_ [_ [Hup Hdisk]]]]]]]]]]].
  { left. rewrite Hres. repeat split; [discriminate|assumption|assumption]. }
  right. destruct Hsync as [Hco [extra Hkeys]].
  assert (HM : jo_manager o = fst (upserts (now e) (jo_download_log o)
                                     (m, new_consolidator name)))
    by now rewrite <- Hup.
  assert (Hco' : coherent (jo_manager o))
    by (rewrite HM; now apply upserts_coherent).
  split; [exact Herr|]. split; [exact Hco'|].
  rewrite Hdisk. cbn [save_consolidated_metadata songs_database]. f_equal.
  destruct (upserts_keys (now e) (jo_download_log o) m (new_consolidator name))
    as [extra' Hk].
  rewrite <- HM in Hk.
  apply DictFacts.update_extends with (extra := extra ++ extra').
  - now rewrite Hk, Hkeys, app_assoc.
  - apply Hco'.
Qed.

Lemma saved_in_sync m d :
  coherent m -> songs_database d = Some (existing_songs m) -> in_sync m d.
Proof.
  intros Hco Hs. split; [exact Hco|]. exists []. now rewrite Hs, app_nil_r.
Qed.

(** X14: a job leaves the catalog and the manager in step: when it has
    saved, the songs table of the catalog is the table of the manager, and
    loading the catalog gives the manager the job ended with. *)
Theorem job_keeps_catalog_in_sync (e : env) (name url : string)
    (m : SmartSongManager) (d : disk) (approved : bool) (ctl : DownloadController) :
  in_sync m d ->
  let o := process_single_playlist e name url m d approved ctl in
  in_sync (jo_manager o) (jo_disk o) /\
  (jr_error (jo_result o) = None ->
   songs_database (jo_disk o) = Some (existing_songs (jo_manager o)) /\
   load_existing_database (jo_disk o) = jo_manager o).
Proof.
  intros Hsync o.
  destruct (process_single_playlist_sync e name url m d approved ctl Hsync)
    as [[Herr [Hm Hd]]|[Herr [Hco Hs]]]; fold o in Herr |- *.
  - fold o in Hm, Hd. rewrite Hm, Hd. split; [exact Hsync|]. intros H. contradiction.
  - fold o in Hco, Hs. split; [now apply saved_in_sync|].
    intros _. split; [exact Hs|]. now apply load_saved_manager.
Qed.

Lemma job_keeps_catalog_in_sync_witness :
  let o := process_single_playlist two_tracks_env "P1" "u" new_manager empty_disk
             true new_controller in
  in_sync new_manager empty_disk /\
  load_existing_database (jo_disk o) = jo_manager o.
Proof.
  assert (H : in_sync new_manager empty_disk).
  { apply (load_in_sync empty_disk). reflexivity. }
  split; [exact H|].
  apply (proj2 (job_keeps_catalog_in_sync two_tracks_env "P1" "u" new_manager
                  empty_disk true new_controller H)).
  vm_compute. reflexivity.
Defined.

Lemma batch_loop_inv (Q : batch_state -> Prop) e approval :
  (forall s ctl, Q s -> Q (with_batch_controller s ctl)) ->
  (forall s ctl, Q s ->
     Q (mark e s 0 0 (Some "Skipped by user") (bs_manager s) (bs_disk s) ctl [])) ->
  (forall s i playlist ctl,
     Q s -> nth_error (batch_playlists (bs_batch s)) i = Some playlist ->
     Q (fst (run_job e approval i playlist s ctl))) ->
  forall indices s, Q s -> Q (batch_loop e approval indices s).
Proof.
  intros Hctl Hskip Hjob.
  induction indices as [|i rest IH]; intros s Hs; [exact Hs|].
  cbn [batch_loop].
  destruct (is_cancelled (bs_controller s)) as [stop ctl1].
  destruct stop; [now apply Hctl|].
  destruct (nth_error (batch_playlists (bs_batch s)) i) as [playlist|] eqn:En;
    [|now apply Hctl].
  destruct (status playlist); try (apply IH; now apply Hctl).
  destruct (check_pause ctl1) as [go ctl2].
  destruct go; cbn [negb]; [|now apply Hctl].
  destruct (Config.PAUSE_BETWEEN_PLAYLISTS
            && (current_playlist_index (bs_batch s) <? i)%nat
            && String.eqb (PyStr.lower (PyStr.strip (pause_prompt e i))) "skip").
  - apply IH. now apply Hskip.
  - pose proof (Hjob s i playlist ctl2 Hs En) as Hq.
    destruct (run_job e approval i playlist s ctl2) as [s' continue].
    cbn [fst] in Hq. destruct continue; [now apply IH|exact Hq].
Qed.

(** X15: all along a batch run the manager in memory is the one that
    loading the catalog would give, so that the jobs of a batch see the
    songs that the jobs before them saved. *)
Theorem batch_manager_is_the_saved_catalog (e : env) (approval : bool)
    (b : PlaylistBatch) (d : disk) (ctl : DownloadController) :
  Dict.uniq (table (songs_database d)) = true ->
  let s := run_batch_processing_mode e approval b d ctl in
  load_existing_database (bs_disk s) = bs_manager s.
Proof.
  intros Hu s.
  set (Q := fun s : batch_state =>
              in_sync (bs_manager s) (bs_disk s) /\
              load_existing_database (bs_disk s) = bs_manager s).
  assert (H0 : Q {| bs_batch := b; bs_manager := load_existing_database d;
                    bs_disk := d; bs_controller := ctl; bs_events := [] |}).
  { split; [now apply load_in_sync|reflexivity]. }
  enough (HQ : Q s) by apply HQ.
  subst s. unfold run_batch_processing_mode.
  destruct (existsb is_pending (batch_playlists b)); [|exact H0].
  apply batch_loop_inv; [| | |exact H0].
  - intros s ctl' Hs. exact Hs.
  - intros s ctl' Hs. exact Hs.
  - intros s i playlist ctl' [Hsync Hload] _.
    pose proof (run_job_spec e approval i playlist s ctl') as Hspec.
    cbv zeta in Hspec.
    destruct Hspec as [tc [sc [err [_ [_ [_ [Hm [Hd _]]]]]]]].
    unfold Q. rewrite Hm, Hd.
    destruct (process_single_playlist_sync e (job_name playlist) (job_url playlist)
                (bs_manager s) (bs_disk s) approval ctl' Hsync)
      as [[_ [Em Ed]]|[_ [Hco Hs]]].
    + rewrite Em, Ed. now split.
    + split; [now apply saved_in_sync|now apply load_saved_manager].
Qed.

Lemma batch_manager_is_the_saved_catalog_witness :
  let s := run_batch_processing_mode two_tracks_env true
             (add_playlist "t0" new_batch "P1" "u1") empty_disk new_controller in
  Dict.uniq (table (songs_database empty_disk)) = true /\
  bs_events s = [processed 0; marked 0 completed] /\
  load_existing_database (bs_disk s) = bs_manager s.
Proof.
  split; [reflexivity|]. split; [vm_compute; reflexivity|].
  apply (batch_manager_is_the_saved_catalog two_tracks_env true
           (add_playlist "t0" new_batch "P1" "u1") empty_disk new_controller).
  reflexivity.
Defined.

Lemma add_song_consolidator now m c id t r :
  snd (add_song_to_playlist now m c id t r) =
    if PyStr.mem id (playlist_songs c) then c
    else {| playlist_name := playlist_name c;
            playlist_songs := playlist_songs c ++ [id];
            playlist_metadata_of := playlist_metadata_of c |}.
Proof. reflexivity. Qed.

Lemma upserts_consolidator now results : forall m c,
  playlist_name (snd (upserts now results (m, c))) = playlist_name c /\
  (NoDup (playlist_songs c) ->
   NoDup (playlist_songs (snd (upserts now results (m, c))))) /\
  (forall id,
      In id (playlist_songs (snd (upserts now results (m, c)))) <->
      In id (playlist_songs c) \/
      exists r, In r results /\ song_id (r_metadata r) = id).
Proof.
  induction results as [|r results IH]; intros m c.
  - cbn. split; [reflexivity|]. split; [auto|]. intros id. split; [now left|].
    intros [H|[r [[] _]]]. exact H.
  - rewrite upserts_cons. cbn [fst snd].
    pose proof (add_song_consolidator now m c (song_id (r_metadata r))
                  (r_metadata r) r) as Hc.
    destruct (add_song_to_playlist now m c (song_id (r_metadata r))
                (r_metadata r) r) as [m1 c1].
    cbn [snd] in Hc. destruct (IH m1 c1) as [Hname [Hnd Hin]].
    assert (Hc1 : playlist_name c1 = playlist_name c /\
                  (NoDup (playlist_songs c) -> NoDup (playlist_songs c1)) /\
                  forall id, In id (playlist_songs c1) <->
                             In id (playlist_songs c) \/ song_id (r_metadata r) = id).
    { destruct (PyStr.mem (song_id (r_metadata r)) (playlist_songs c)) eqn:Em;
        subst c1; cbn [playlist_name playlist_songs].
      - split; [reflexivity|]. split; [auto|]. intros id. split; [now left|].
        intros [H|<-]; [exact H|now apply mem_In].
      - split; [reflexivity|]. split.
        + intros H. apply NoDup_app; [exact H|constructor; [intros []|constructor]|].
          intros x Hx [<-|[]]. apply mem_false in Em. contradiction.
        + intros id. rewrite in_app_iff. cbn. tauto. }
    destruct Hc1 as [Hn1 [Hnd1 Hin1]].
    split; [congruence|]. split; [auto|].
    intros id. rewrite Hin, Hin1. split.
    + intros [[H|H]|[r' [Hr' E]]].
      * now left.
      * right. exists r. split; [now left|exact H].
      * right. exists r'. split; [now right|exact E].
    + intros [H|[r' [[<-|Hr'] E]]].
      * left. now left.
      * left. now right.
      * right. now exists r'.
Qed.

Lemma upserts_has_playlist now results : forall m c r,
  In r results ->
  has_playlist (playlist_name c) (fst (upserts now results (m, c)))
    (song_id (r_metadata r)).
Proof.
  induction results as [|r0 results IH]; intros m c r Hin; [destruct Hin|].
  rewrite upserts_cons. cbn [fst snd].
  pose proof (add_song_has_playlist now m c (song_id (r_metadata r0))
                (r_metadata r0) r0) as Hhas.
  pose proof (add_song_playlist_name now m c (song_id (r_metadata r0))
                (r_metadata r0) r0) as Hname.
  destruct (add_song_to_playlist now m c (song_id (r_metadata r0))
              (r_metadata r0) r0) as [m1 c1].
  cbn [fst snd] in Hhas, Hname.
  destruct Hin as [<-|Hin].
  - apply (upserts_ind
             (fun m' => has_playlist (playlist_name c) m' (song_id (r_metadata r0)))
             now); [|exact Hhas].
    intros. now apply add_song_keeps_playlist.
  - rewrite <- Hname. now apply IH.
Qed.

Lemma add_song_uniq now m c id t r :
  Dict.uniq (existing_songs m) = true ->
  Dict.uniq (existing_songs (fst (add_song_to_playlist now m c id t r))) = true.
Proof.
  intros Hu. destruct (Dict.get (existing_songs m) id) as [info|] eqn:E.
  - rewrite (add_song_existing now m c id t r info E).
    destruct (PyStr.mem (playlist_name c) (playlists info)); [exact Hu|].
    cbn [with_songs existing_songs]. now apply DictFacts.uniq_set.
  - rewrite (add_song_new now m c id t r E).
    cbn [register_lookup with_songs existing_songs]. now apply DictFacts.uniq_set.
Qed.

(** X16: the playlist record a job saves lists, once each, the song ids of
    the tracks the job went through, and each of them is a song of the saved
    songs table that names this playlist. *)
Theorem saved_playlist_record (e : env) (name url : string)
    (m : SmartSongManager) (d : disk) (approved : bool) (ctl : DownloadController) :
  Dict.uniq (existing_songs m) = true ->
  let o := process_single_playlist e name url m d approved ctl in
  jr_error (jo_result o) = None ->
  exists pm,
    Dict.get (table (playlists_database (jo_disk o))) name = Some pm /\
    pm_name pm = name /\ pm_source_url pm = url /\
    pm_total_tracks pm = jr_tracks_count (jo_result o) /\
    NoDup (pm_songs pm) /\
    pm_unique_song_count pm = List.length (pm_songs pm) /\
    (forall id,
        In id (pm_songs pm) <->
        exists r, In r (jo_download_log o) /\ song_id (r_metadata r) = id) /\
    (forall id,
        In id (pm_songs pm) ->
        exists info,
          Dict.get (table (songs_database (jo_disk o))) id = Some info /\
          In name (playlists info)).
Proof.
  intros Hu o Herr.
  pose proof (process_single_playlist_spec e name url m d approved ctl) as Hspec.
  cbv zeta in Hspec. fold o in Hspec.
  destruct Hspec as [[msg [_ [Hres _]]]|[requests [ctl2 [_ [_ Ho]]]]].
  { rewrite Hres in Herr. discriminate Herr. }
  pose proof (process_items_spec e name url m d approved ctl2
                (capture_requests requests)) as Hitems.
  cbv zeta in Hitems. rewrite <- Ho in Hitems.
  destruct Hitems as [[_ [msg [_ [Hres _]]]]
                     |[_ [c' [n [_ [Hcount [_ [_ [_ [_ [Hup Hdisk]]]]]]]]]]].
  { rewrite Hres in Herr. discriminate Herr. }
  destruct (upserts_consolidator (now e) (jo_download_log o) m (new_consolidator name))
    as [Hname [Hnd Hin]].
  pose proof (upserts_has_playlist (now e) (jo_download_log o) m
                (new_consolidator name)) as Hhas.
  assert (HuM : Dict.uniq (existing_songs
                  (fst (upserts (now e) (jo_download_log o)
                          (m, new_consolidator name)))) = true).
  { apply (upserts_ind (fun m' => Dict.uniq (existing_songs m') = true) (now e));
      [|exact Hu].
    intros. now apply add_song_uniq. }
  rewrite <- Hup in Hname, Hnd, Hin, Hhas, HuM. cbn [fst snd] in *.
  cbn [new_consolidator playlist_name playlist_songs] in Hname, Hnd, Hin, Hhas.
  exists (playlist_metadata_of
            (set_playlist_metadata (now e) c' (List.length (tracks_of m (now e)
               (capture_requests requests))) n url)).
  rewrite Hdisk, save_playlists.
  cbn [set_playlist_metadata playlist_name playlist_metadata_of pm_name
         pm_source_url pm_total_tracks pm_songs pm_unique_song_count].
  rewrite Hname.
  split; [apply DictFacts.get_set_eq|]. split; [reflexivity|]. split; [reflexivity|].
  split; [now rewrite Hcount|]. split; [apply Hnd; constructor|].
  split; [reflexivity|]. split.
  - intros id. rewrite Hin. split; [intros [[]|H]; exact H|now right].
  - intros id Hid. apply Hin in Hid as [[]|[r [Hr <-]]].
    destruct (Hhas r Hr) as [info [Hget Hmem]]. exists info.
    split; [|now apply mem_In].
    cbn [save_consolidated_metadata songs_database table].
    rewrite get_update by exact HuM. now rewrite Hget.
Qed.

Lemma saved_playlist_record_witness :
  let o := process_single_playlist two_tracks_env "P1" "u" new_manager empty_disk
             true new_controller in
  exists pm,
    Dict.get (table (playlists_database (jo_disk o))) "P1" = Some pm /\
    pm_name pm = "P1" /\ pm_source_url pm = "u" /\
    pm_total_tracks pm = 2 /\
    NoDup (pm_songs pm) /\
    pm_unique_song_count pm = List.length (pm_songs pm).
Proof.
  destruct (saved_playlist_record two_tracks_env "P1" "u" new_manager empty_disk
              true new_controller eq_refl) as [pm [H1 [H2 [H3 [H4 [H5 [H6 _]]]]]]].
  - vm_compute. reflexivity.
  - exists pm. split; [exact H1|]. split; [exact H2|]. split; [exact H3|].
    split; [|split; [exact H5|exact H6]].
    rewrite H4. vm_compute. reflexivity.
Defined.

Lemma In_set {V : Type} (d : dict V) k v k' v' :
  In (k', v') (Dict.set d k v) -> (k', v') = (k, v) \/ In (k', v') d.
Proof.
  induction d as [|[k0 v0] d IH]; cbn.
  - intros [H|[]]. now left.
  - destruct (String.eqb k0 k); cbn.
    + intros [H|H]; [now left|right; now right].
    + intros [H|H]; [right; now left|].
      destruct (IH H) as [E|E]; [now left|right; now right].
Qed.

Lemma In_update {V : Type} (e : dict V) : forall d kv,
  In kv (Dict.update d e) -> In kv d \/ In kv e.
Proof.
  unfold Dict.update.
  induction e as [|[k v] e IH]; intros d kv H; [now left|].
  cbn [fold_left fst snd] in H. apply IH in H as [H|H]; [|right; now right].
  destruct kv as [k' v']. apply In_set in H as [H|H]; [|now left].
  right. left. now symmetry.
Qed.

Lemma add_song_memberships now m c id t r :
  memberships_distinct (existing_songs m) ->
  memberships_distinct (existing_songs (fst (add_song_to_playlist now m c id t r))).
Proof.
  intros Hm. destruct (Dict.get (existing_songs m) id) as [info|] eqn:E.
  - rewrite (add_song_existing now m c id t r info E).
    destruct (PyStr.mem (playlist_name c) (playlists info)) eqn:Em; [exact Hm|].
    cbn [with_songs existing_songs]. intros id' info' H.
    apply In_set in H as [H|H]; [|now apply (Hm id')].
    injection H as _ ->. cbn [add_playlist_to_song playlists].
    apply NoDup_app.
    + apply (Hm id). now apply DictFacts.get_In.
    + constructor; [intros []|constructor].
    + intros x Hx [<-|[]]. apply mem_false in Em. contradiction.
  - rewrite (add_song_new now m c id t r E).
    cbn [register_lookup with_songs existing_songs]. intros id' info' H.
    apply In_set in H as [H|H]; [|now apply (Hm id')].
    injection H as _ ->. cbn [new_song_info playlists].
    constructor; [intros []|constructor].
Qed.

(** X17: a job never puts a song twice into the same playlist: when no song
    of the manager and of the catalog names a playlist twice before the job,
    none does after it. *)
Theorem job_keeps_memberships_distinct (e : env) (name url : string)
    (m : SmartSongManager) (d : disk) (approved : bool) (ctl : DownloadController) :
  memberships_distinct (existing_songs m) ->
  memberships_distinct (table (songs_database d)) ->
  let o := process_single_playlist e name url m d approved ctl in
  memberships_distinct (existing_songs (jo_manager o)) /\
  memberships_distinct (table (songs_database (jo_disk o))).
Proof.
  intros Hm Hd o.
  pose proof (process_single_playlist_spec e name url m d approved ctl) as Hspec.
  cbv zeta in Hspec. fold o in Hspec.
  destruct Hspec as [[msg [_ [_ [_ [Em [Ed _]]]]]]|[requests [ctl2 [_ [_ Ho]]]]].
  { rewrite Em, Ed. now split. }
  pose proof (process_items_spec e name url m d approved ctl2
                (capture_requests requests)) as Hitems.
  cbv zeta in Hitems. rewrite <- Ho in Hitems.
  destruct Hitems as [[_ [msg [_ [_ [_ [Em [Ed _]]]]]]]
                     |[_ [c' [n [_ [_ [_ [_ [_ [_ [Hup Hdisk]]]]]]]]]]].
  { rewrite Em, Ed. now split. }
  assert (HM : memberships_distinct (existing_songs (jo_manager o))).
  { replace (jo_manager o) with
      (fst (upserts (now e) (jo_download_log o) (m, new_consolidator name)))
      by now rewrite <- Hup.
    apply (upserts_ind (fun m' => memberships_distinct (existing_songs m')) (now e));
      [|exact Hm].
    intros. now apply add_song_memberships. }
  split; [exact HM|].
  rewrite Hdisk. cbn [save_consolidated_metadata songs_database table].
  intros id info H. apply In_update in H as [H|H]; [now apply (Hd id)|now apply (HM id)].
Qed.

Lemma job_keeps_memberships_distinct_witness :
  let o := process_single_playlist two_tracks_env "P1" "u" new_manager empty_disk
             true new_controller in
  memberships_distinct (existing_songs new_manager) /\
  memberships_distinct (table (songs_database (jo_disk o))).
Proof.
  assert (H : memberships_distinct (@nil (string * song_info)))
    by (intros id info []).
  split; [exact H|].
  exact (proj2 (job_keeps_memberships_distinct two_tracks_env "P1" "u" new_manager
                  empty_disk true new_controller H H)).
Defined.

(** ** Downloads *)

Lemma check_pause_none c :
  cancelled_from c = None ->
  check_pause c = (true, {| cancelled_from := None; reads := S (reads c) |}).
Proof. unfold check_pause, is_cancelled. now intros ->. Qed.

Lemma is_cancelled_none c :
  cancelled_from c = None ->
  is_cancelled c = (false, {| cancelled_from := None; reads := S (reads c) |}).
Proof. unfold is_cancelled. now intros ->. Qed.

(** the retry loop under a controller that is never cancelled: it stops at
    the first attempt that downloads the file *)
Lemma download_attempts_retries e t query base n : forall k err title ctl,
  cancelled_from ctl = None ->
  let r := fst (download_attempts e t query base n k err title ctl) in
  (exists j ttl,
      j < n /\ ytdlp e query (k + j) = downloaded ttl /\
      (forall i, i < j -> is_downloaded (ytdlp e query (k + i)) = false) /\
      r_status r = success /\ r_filename r = Some (base ++ ".mp3")%string /\
      r_video_title r = Some ttl) \/
  ((forall j, j < n -> is_downloaded (ytdlp e query (k + j)) = false) /\
   r_status r = dl_failed /\ r_filename r = None).
Proof.
  induction n as [|n IH]; intros k err title ctl Hctl; cbn [download_attempts].
  - right. split; [intros j Hj; lia|]. split; reflexivity.
  - rewrite (check_pause_none ctl Hctl). cbn [negb].
    set (ctl1 := {| cancelled_from := None; reads := S (reads ctl) |}).
    assert (Hctl1 : cancelled_from ctl1 = None) by reflexivity.
    rewrite (check_pause_none ctl1 Hctl1). cbn [negb].
    set (ctl2 := {| cancelled_from := None; reads := S (reads ctl1) |}).
    assert (Hctl2 : cancelled_from ctl2 = None) by reflexivity.
    assert (Hnext : forall err' title' c,
              cancelled_from c = None ->
              is_downloaded (ytdlp e query k) = false ->
              let r := fst (download_attempts e t query base n (S k) err' title' c) in
              (exists j ttl,
                  j < S n /\ ytdlp e query (k + j) = downloaded ttl /\
                  (forall i, i < j -> is_downloaded (ytdlp e query (k + i)) = false) /\
                  r_status r = success /\
                  r_filename r = Some (base ++ ".mp3")%string /\
                  r_video_title r = Some ttl) \/
              ((forall j, j < S n -> is_downloaded (ytdlp e query (k + j)) = false) /\
               r_status r = dl_failed /\ r_filename r = None)).
    { intros err' title' c Hc Hk r.
      destruct (IH (S k) err' title' c Hc) as [[j [ttl [Hj [Hd [Hbefore Hr]]]]]|[Hall Hr]].
      - left. exists (S j), ttl. split; [lia|].
        split; [now rewrite Nat.add_succ_r|]. split; [|exact Hr].
        intros [|i] Hi; [now rewrite Nat.add_0_r|].
        rewrite Nat.add_succ_r. apply Hbefore. lia.
      - right. split; [|exact Hr].
        intros [|j] Hj; [now rewrite Nat.add_0_r|].
        rewrite Nat.add_succ_r. apply Hall. lia. }
    destruct (ytdlp e query k) as [ex| |ttl ex|ttl|ttl] eqn:Ek;
      try (apply Hnext; [assumption|reflexivity]).
    left. exists 0, ttl. split; [lia|]. rewrite Nat.add_0_r.
    split; [exact Ek|]. split; [intros i Hi; lia|]. cbn. repeat split.
Qed.

(** X18: under a controller that is never cancelled, the fetch of a valid
    new track makes up to three attempts and stops at the first one that
    downloads the file, which it names after the song id; when none does,
    the result is a failure without a file. *)
Theorem fetch_retries_until_downloaded (e : env) (t : track_info)
    (ctl : DownloadController) :
  cancelled_from ctl = None ->
  skip_download t = false ->
  validate_track_data (track_name t) (artists_string t) = (true, "Valid") ->
  sanitize_filename (track_name t ++ " - " ++ artists_string t) <> "unknown_file" ->
  PyStr.truthy (song_id t) = true ->
  song_id t <> "unknown_song" ->
  let query := PyStr.strip (track_name t ++ " " ++ artists_string t) in
  let r := fst (search_and_download_audio_smart e t ctl) in
  (exists j ttl,
      j < Config.MAX_RETRIES /\ ytdlp e query j = downloaded ttl /\
      (forall i, i < j -> is_downloaded (ytdlp e query i) = false) /\
      r_status r = success /\ r_filename r = Some (song_id t ++ ".mp3")%string /\
      r_video_title r = Some ttl) \/
  ((forall j, j < Config.MAX_RETRIES -> is_downloaded (ytdlp e query j) = false) /\
   r_status r = dl_failed /\ r_filename r = None).
Proof.
  intros Hctl Hskip Hvalid Hname Hid Hunknown query r. subst r.
  unfold search_and_download_audio_smart.
  rewrite (check_pause_none ctl Hctl), Hskip, Hvalid. cbn [negb andb].
  fold query.
  destruct (sanitize_filename_spec (track_name t ++ " - " ++ artists_string t))
    as [Hne _].
  destruct (sanitize_filename (track_name t ++ " - " ++ artists_string t))
    as [|c s] eqn:Es; [contradiction|].
  cbn [PyStr.truthy negb orb].
  destruct (String.eqb_spec (String c s) "unknown_file") as [E|_];
    [contradiction|].
  rewrite Hid. cbn [andb].
  destruct (String.eqb_spec (song_id t) "unknown_song") as [E|_];
    [contradiction|]. cbn [negb].
  apply (download_attempts_retries e t query (song_id t) Config.MAX_RETRIES 0 None None).
  reflexivity.
Qed.

Lemma fetch_retries_until_downloaded_witness :
  ytdlp flaky_env "Song A Artist X" 0 = no_search_results /\
  r_status (fst (search_and_download_audio_smart flaky_env sample_track new_controller))
    = success /\
  r_filename (fst (search_and_download_audio_smart flaky_env sample_track new_controller))
    = Some "song_0123456789ab.mp3".
Proof.
  split; [reflexivity|].
  destruct (fetch_retries_until_downloaded flaky_env sample_track new_controller)
    as [[j [ttl [_ [_ [_ [Hs [Hf _]]]]]]]|[Hall _]].
  - reflexivity.
  - reflexivity.
  - vm_compute. reflexivity.
  - vm_compute. discriminate.
  - reflexivity.
  - vm_compute. discriminate.
  - split; [exact Hs|exact Hf].
  - specialize (Hall 1). cbn in Hall. exfalso.
    assert (H : 1 < Config.MAX_RETRIES) by (vm_compute; lia).
    specialize (Hall H). discriminate Hall.
Defined.

Lemma download_attempts_not_existing e t query base n : forall k err title ctl,
  r_status (fst (download_attempts e t query base n k err title ctl)) <> existing.
Proof.
  induction n as [|n IH]; intros k err title ctl; cbn [download_attempts].
  - discriminate.
  - destruct (check_pause ctl) as [go c1]. destruct go; cbn [negb]; [|discriminate].
    destruct (ytdlp e query k); try apply IH;
      destruct (check_pause c1) as [go c2]; destruct go; cbn [negb];
      try apply IH; discriminate.
Qed.

Lemma search_not_existing e t ctl :
  skip_download t = false ->
  r_status (fst (search_and_download_audio_smart e t ctl)) <> existing.
Proof.
  intros Hskip. unfold search_and_download_audio_smart.
  destruct (check_pause ctl) as [go c1]. destruct go; cbn [negb]; [|discriminate].
  rewrite Hskip. cbn [andb].
  destruct (validate_track_data (track_name t) (artists_string t)) as [v reason].
  destruct (negb v); [discriminate|].
  destruct (negb _ || _); [discriminate|].
  apply download_attempts_not_existing.
Qed.

Lemma count_status_app st l l' :
  count_status st (l ++ l') = count_status st l + count_status st l'.
Proof. unfold count_status. now rewrite filter_app, length_app. Qed.

(** what one iteration of the loop over the tracks adds to the counters *)
Lemma download_track_counters e approved track s ctl :
  let s' := fst (download_track e approved track s ctl) in
  exists r,
    download_log s' = download_log s ++ [r] /\
    successful_downloads s' = successful_downloads s + count_status success [r] /\
    existing_reused s' = existing_reused s + 2 * count_status existing [r] /\
    skipped_downloads s' = skipped_downloads s + count_status skipped [r] /\
    cancelled_downloads s' = cancelled_downloads s + count_status cancelled [r] /\
    failed_downloads s' =
      failed_downloads s + count_status dl_failed [r] + count_status dl_error [r].
Proof.
  unfold download_track.
  destruct (skip_download track) eqn:Hskip.
  - destruct (add_song_to_playlist _ _ _ _ _ _) as [m c]. cbn.
    eexists. split; [reflexivity|]. cbn. repeat split; lia.
  - destruct approved.
    + pose proof (search_not_existing e track ctl Hskip) as Hne.
      destruct (search_and_download_audio_smart e track ctl) as [r ctl'].
      cbn [fst] in Hne.
      destruct (add_song_to_playlist _ _ _ _ _ _) as [m c]. cbn [fst].
      exists r. cbn [download_log successful_downloads existing_reused
                       skipped_downloads cancelled_downloads failed_downloads].
      split; [reflexivity|]. unfold count_status. cbn [filter].
      destruct (r_status r); try contradiction; cbn; repeat split; lia.
    + destruct (add_song_to_playlist _ _ _ _ _ _) as [m c]. cbn.
      eexists. split; [reflexivity|]. cbn. repeat split; lia.
Qed.

Lemma download_loop_counters e approved tracks : forall s,
  let s' := download_loop e approved tracks s in
  exists new,
    download_log s' = download_log s ++ new /\
    successful_downloads s' = successful_downloads s + count_status success new /\
    existing_reused s' = existing_reused s + 2 * count_status existing new /\
    skipped_downloads s' = skipped_downloads s + count_status skipped new /\
    cancelled_downloads s' = cancelled_downloads s + count_status cancelled new /\
    failed_downloads s' =
      failed_downloads s + count_status dl_failed new + count_status dl_error new.
Proof.
  assert (Hnil : forall s ctl,
            exists new,
              download_log (with_controller s ctl) = download_log s ++ new /\
              successful_downloads (with_controller s ctl)
                = successful_downloads s + count_status success new /\
              existing_reused (with_controller s ctl)
                = existing_reused s + 2 * count_status existing new /\
              skipped_downloads (with_controller s ctl)
                = skipped_downloads s + count_status skipped new /\
              cancelled_downloads (with_controller s ctl)
                = cancelled_downloads s + count_status cancelled new /\
              failed_downloads (with_controller s ctl) =
                failed_downloads s + count_status dl_failed new
                + count_status dl_error new).
  { intros s ctl. exists []. cbn. rewrite app_nil_r. repeat split; lia. }
  induction tracks as [|track rest IH]; intros s; cbn [download_loop].
  - exists []. cbn. rewrite app_nil_r. repeat split; lia.
  - destruct (is_cancelled (ls_controller s)) as [stop c1].
    destruct stop; [apply Hnil|].
    destruct (check_pause c1) as [go c2].
    destruct go; cbn [negb]; [|apply Hnil].
    pose proof (download_track_counters e approved track s c2) as Hstep.
    cbv zeta in Hstep.
    destruct (download_track e approved track s c2) as [s1 continue].
    cbn [fst] in Hstep.
    destruct Hstep as [r [Hlog [Hs [He [Hk [Hc Hf]]]]]].
    destruct continue.
    + destruct (IH s1) as [new [Hlog' [Hs' [He' [Hk' [Hc' Hf']]]]]].
      exists (r :: new).
      change (r :: new) with ([r] ++ new). rewrite !count_status_app.
      rewrite Hlog', Hlog, Hs', He', Hk', Hc', Hf', Hs, He, Hk, Hc, Hf.
      split; [symmetry; apply app_assoc|]. repeat split; lia.
    + exists [r]. repeat split; assumption.
Qed.

(** X19: the counts a job reports are those of its download log, but for
    the songs already in the catalog, which the success count takes twice
    each. *)
Theorem job_counts_reused_songs_twice (e : env) (name url : string)
    (m : SmartSongManager) (d : disk) (approved : bool) (ctl : DownloadController) :
  let o := process_single_playlist e name url m d approved ctl in
  jr_error (jo_result o) = None ->
  jr_success_count (jo_result o) =
    count_status success (jo_download_log o)
    + 2 * count_status existing (jo_download_log o) /\
  jr_failed_count (jo_result o) =
    count_status dl_failed (jo_download_log o)
    + count_status dl_error (jo_download_log o) /\
  jr_cancelled_count (jo_result o) = count_status cancelled (jo_download_log o).
Proof.
  intros o Herr. subst o. revert Herr.
  unfold process_single_playlist.
  destruct (is_cancelled ctl) as [stop c1]. destruct stop; [discriminate|].
  destruct (driver_requests e url) as [requests|ex]; [|discriminate].
  destruct (is_cancelled c1) as [stop c2]. destruct stop; [discriminate|].
  unfold process_items.
  destruct (capture_requests requests) as [|item items]; [discriminate|].
  destruct (extract_enhanced_track_info (item :: items) m (now e)) as [tracks skips].
  destruct tracks as [|t tracks]; [discriminate|].
  intros _. cbn [jo_result jo_download_log jr_success_count jr_failed_count
                   jr_cancelled_count].
  match goal with
  | |- context [download_loop e approved ?ts ?s0] =>
      destruct (download_loop_counters e approved ts s0)
        as [new [Hlog [Hs [He [_ [Hc Hf]]]]]]
  end.
  cbn [download_log successful_downloads existing_reused cancelled_downloads
         failed_downloads app] in Hlog, Hs, He, Hc, Hf.
  rewrite Hlog, Hs, He, Hc, Hf. repeat split; lia.
Qed.

Lemma job_counts_reused_songs_twice_witness :
  let o1 := process_single_playlist two_tracks_env "P1" "u" new_manager empty_disk
              true new_controller in
  let o2 := process_single_playlist two_tracks_env "P2" "u" (jo_manager o1)
              (jo_disk o1) true new_controller in
  jr_tracks_count (jo_result o2) = 2 /\
  count_status existing (jo_download_log o2) = 2 /\
  jr_success_count (jo_result o2) = 4.
Proof.
  intros o1 o2.
  assert (Herr : jr_error (jo_result o2) = None) by (vm_compute; reflexivity).
  split; [vm_compute; reflexivity|]. split; [vm_compute; reflexivity|].
  subst o2.
  rewrite (proj1 (job_counts_reused_songs_twice two_tracks_env "P2" "u"
                    (jo_manager o1) (jo_disk o1) true new_controller Herr)).
  vm_compute. reflexivity.
Defined.

(** ** The jobs of a batch *)

Lemma map_update_nth {A B : Type} (g : A -> B) (f : A -> A) (l : list A) :
  (forall x, g (f x) = g x) -> forall i, map g (update_nth i f l) = map g l.
Proof.
  intros Hg. induction l as [|x l IH]; intros [|i]; cbn; try reflexivity.
  - now rewrite Hg.
  - now rewrite IH.
Qed.

(** what [mark_playlist_completed] changes: the entry at the cursor and the
    cursor *)
Lemma mark_playlist_completed_shape now b tc sc err :
  let b' := mark_playlist_completed now b tc sc err in
  map job_name (batch_playlists b') = map job_name (batch_playlists b) /\
  map job_url (batch_playlists b') = map job_url (batch_playlists b) /\
  current_playlist_index b <= current_playlist_index b' /\
  (forall x, x < current_playlist_index b ->
             nth_error (batch_playlists b') x = nth_error (batch_playlists b) x) /\
  (forall x, current_playlist_index b' <= x ->
             nth_error (batch_playlists b') x = nth_error (batch_playlists b) x).
Proof.
  unfold mark_playlist_completed.
  destruct (current_playlist_index b <? List.length (batch_playlists b))%nat;
    cbn [batch_playlists current_playlist_index].
  - split; [now apply map_update_nth|]. split; [now apply map_update_nth|].
    split; [lia|].
    split; intros x Hx; apply nth_error_update_nth_other; lia.
  - repeat split; auto.
Qed.

(** X20: a job that ends with an error changes neither the manager nor the
    catalog; the batch records it as failed with that error and no counts,
    and goes on with the next job. *)
Theorem failed_job_leaves_catalog (e : env) (approval : bool) (i : nat)
    (playlist : CaptureJob) (s : batch_state) (ctl : DownloadController)
    (msg : string) :
  jr_error (jo_result
              (process_single_playlist e (job_name playlist) (job_url playlist)
                 (bs_manager s) (bs_disk s) approval ctl)) = Some msg ->
  let out := run_job e approval i playlist s ctl in
  snd out = true /\
  bs_manager (fst out) = bs_manager s /\
  bs_disk (fst out) = bs_disk s /\
  bs_batch (fst out) = mark_playlist_completed (now e) (bs_batch s) 0 0 (Some msg).
Proof.
  intros Herr out. subst out.
  pose proof (process_single_playlist_spec e (job_name playlist) (job_url playlist)
                (bs_manager s) (bs_disk s) approval ctl) as Hspec.
  cbv zeta in Hspec.
  assert (Hsame : msg <> "" /\
            jo_manager (process_single_playlist e (job_name playlist)
                          (job_url playlist) (bs_manager s) (bs_disk s) approval ctl)
              = bs_manager s /\
            jo_disk (process_single_playlist e (job_name playlist)
                       (job_url playlist) (bs_manager s) (bs_disk s) approval ctl)
              = bs_disk s).
  { destruct Hspec as [[msg' [Hne [Hres [_ [Hm [Hd _]]]]]]|[requests [ctl2 [_ [_ Ho]]]]].
    - rewrite Hres in Herr. injection Herr as <-. now split.
    - pose proof (process_items_spec e (job_name playlist) (job_url playlist)
                    (bs_manager s) (bs_disk s) approval ctl2
                    (capture_requests requests)) as Hitems.
      cbv zeta in Hitems. rewrite <- Ho in Hitems.
      destruct Hitems as [[_ [msg' [Hne [Hres [_ [Hm [Hd _]]]]]]]
                         |[_ [c' [n [Hnone _]]]]].
      + rewrite Hres in Herr. injection Herr as <-. now split.
      + rewrite Hnone in Herr. discriminate Herr. }
  destruct Hsame as [Hne [Hm Hd]].
  unfold run_job. rewrite Herr.
  destruct msg as [|c msg]; [contradiction|].
  cbn [fst snd mark bs_manager bs_disk bs_batch]. now split.
Qed.

Lemma failed_job_leaves_catalog_witness :
  let job := playlist_entry "t" "P1" "https://open.spotify.com/playlist/1" in
  let out := run_job broken_env true 0 job one_job_state new_controller in
  snd out = true /\
  bs_manager (fst out) = new_manager /\
  bs_disk (fst out) = empty_disk /\
  map status (batch_playlists (bs_batch (fst out))) = [failed].
Proof.
  intros job out.
  destruct (failed_job_leaves_catalog broken_env true 0 job one_job_state
              new_controller "Error processing playlist 'P1': no browser")
    as [H1 [H2 [H3 H4]]].
  - vm_compute. reflexivity.
  - fold out in H1, H2, H3, H4.
    split; [exact H1|]. split; [exact H2|]. split; [exact H3|].
    rewrite H4. vm_compute. reflexivity.
Defined.

Lemma batch_advanced_refl b : batch_advanced b b.
Proof. repeat split; auto. Qed.

Lemma batch_advanced_mark now b b1 tc sc err :
  batch_advanced b b1 ->
  batch_advanced b (mark_playlist_completed now b1 tc sc err).
Proof.
  intros [Hn [Hu [Hle [Hlo Hhi]]]].
  destruct (mark_playlist_completed_shape now b1 tc sc err)
    as [Hn' [Hu' [Hle' [Hlo' Hhi']]]].
  split; [congruence|]. split; [congruence|]. split; [lia|]. split.
  - intros x Hx. rewrite Hlo' by lia. now apply Hlo.
  - intros x Hx. rewrite Hhi' by exact Hx. apply Hhi. lia.
Qed.

(** X21: a batch run keeps the jobs of the batch file, their names and
    their URLs; it moves the cursor forward only, touches no entry before
    the old cursor and none from the new cursor on, and leaves a file in
    which the jobs before the cursor are done and the others pending. *)
Theorem batch_run_advances_the_cursor (e : env) (approval : bool)
    (b : PlaylistBatch) (d : disk) (ctl : DownloadController) :
  persisted b ->
  let b' := bs_batch (run_batch_processing_mode e approval b d ctl) in
  batch_wf b' /\ batch_advanced b b'.
Proof.
  intros Hb b'.
  set (Q := fun s : batch_state =>
              persisted (bs_batch s) /\ batch_advanced b (bs_batch s)).
  enough (HQ : Q (run_batch_processing_mode e approval b d ctl)).
  { destruct HQ as [Hp Ha]. split; [now apply persisted_wf|exact Ha]. }
  assert (H0 : Q {| bs_batch := b; bs_manager := load_existing_database d;
                    bs_disk := d; bs_controller := ctl; bs_events := [] |}).
  { split; [exact Hb|apply batch_advanced_refl]. }
  unfold run_batch_processing_mode.
  destruct (existsb is_pending (batch_playlists b)); [|exact H0].
  apply batch_loop_inv; [| | |exact H0].
  - intros s ctl' Hs. exact Hs.
  - intros s ctl' [Hp Ha]. split; cbn [mark bs_batch].
    + now apply persisted_mark.
    + now apply batch_advanced_mark.
  - intros s i playlist ctl' [Hp Ha] _.
    pose proof (run_job_spec e approval i playlist s ctl') as Hspec.
    cbv zeta in Hspec. destruct Hspec as [tc [sc [err [Hbatch _]]]].
    unfold Q. rewrite Hbatch. split.
    + now apply persisted_mark.
    + now apply batch_advanced_mark.
Qed.

Lemma batch_run_advances_the_cursor_witness :
  let b := add_playlist "t2"
             (mark_playlist_completed "t1"
                (add_playlist "t0" new_batch "Done already" "u1") 3 3 None)
             "Next one" "u2" in
  let b' := bs_batch (run_batch_processing_mode two_tracks_env false b empty_disk
                        new_controller) in
  current_playlist_index b = 1 /\ current_playlist_index b' = 2 /\
  batch_wf b' /\ batch_advanced b b'.
Proof.
  split; [reflexivity|]. split; [vm_compute; reflexivity|].
  apply (batch_run_advances_the_cursor two_tracks_env false
           (add_playlist "t2"
              (mark_playlist_completed "t1"
                 (add_playlist "t0" new_batch "Done already" "u1") 3 3 None)
              "Next one" "u2")
           empty_disk new_controller
           (persisted_add _ _ _ _
              (persisted_mark _ _ _ _ _
                 (persisted_add _ _ _ _ persisted_new)))).
Defined.

Lemma is_cancelled_seen c n :
  cancelled_from c = Some n -> n <= reads c ->
  is_cancelled c = (true, {| cancelled_from := Some n; reads := S (reads c) |}).
Proof.
  intros Hc Hn. unfold is_cancelled. rewrite Hc.
  now rewrite (proj2 (Nat.leb_le n (reads c)) Hn).
Qed.

(** X22: once the cancellation is seen nothing is started: a batch run
    processes and marks no job, and a job returns the error that the batch
    was cancelled before it opens the page, with the manager and the catalog
    as they were. *)
Theorem nothing_starts_after_cancellation (e : env) (approval : bool)
    (b : PlaylistBatch) (d : disk) (ctl : DownloadController) (n : nat)
    (name url : string) (m : SmartSongManager) :
  cancelled_from ctl = Some n -> n <= reads ctl ->
  (let s := run_batch_processing_mode e approval b d ctl in
   bs_events s = [] /\ bs_batch s = b /\ bs_disk s = d) /\
  (let o := process_single_playlist e name url m d approval ctl in
   jr_error (jo_result o) = Some "Batch process cancelled" /\
   jo_download_log o = [] /\ jo_manager o = m /\ jo_disk o = d).
Proof.
  intros Hc Hn. split.
  - unfold run_batch_processing_mode.
    destruct (existsb is_pending (batch_playlists b)); [|now repeat split].
    destruct (seq _ _) as [|i rest]; [now repeat split|].
    cbn [batch_loop bs_controller]. rewrite (is_cancelled_seen ctl n Hc Hn).
    now repeat split.
  - unfold process_single_playlist. rewrite (is_cancelled_seen ctl n Hc Hn).
    now repeat split.
Qed.

Lemma nothing_starts_after_cancellation_witness :
  let ctl := {| cancelled_from := Some 0; reads := 0 |} in
  bs_events (run_batch_processing_mode two_tracks_env true
               (add_playlist "t0" new_batch "P1" "u1") empty_disk ctl) = [] /\
  jo_download_log (process_single_playlist two_tracks_env "P1" "u1" new_manager
                     empty_disk true ctl) = [].
Proof.
  destruct (nothing_starts_after_cancellation two_tracks_env true
              (add_playlist "t0" new_batch "P1" "u1") empty_disk
              {| cancelled_from := Some 0; reads := 0 |} 0 "P1" "u1" new_manager
              eq_refl (Nat.le_refl 0)) as [[H1 _] [_ [H2 _]]].
  split; [exact H1|exact H2].
Defined.

(** ** What a job records *)

(** X23: under a controller that is never cancelled a job records every
    valid track of the playlist, whatever became of its download: the song
    of each track is in the saved songs table and names the playlist. *)
Theorem job_records_every_track (e : env) (name url : string)
    (m : SmartSongManager) (d : disk) (approved : bool) (ctl : DownloadController)
    (requests : list raw_event) :
  Dict.uniq (existing_songs m) = true ->
  cancelled_from ctl = None ->
  driver_requests e url = Ok requests ->
  let o := process_single_playlist e name url m d approved ctl in
  let tracks := fst (extract_enhanced_track_info (capture_requests requests) m (now e)) in
  map r_metadata (jo_download_log o) = tracks /\
  forall t, In t tracks ->
    exists info,
      Dict.get (table (songs_database (jo_disk o))) (song_id t) = Some info /\
      In name (playlists info).
Proof.
  intros Hu Hctl Hreq o tracks. subst tracks.
  rewrite extract_enhanced_track_info_eq. cbn [fst].
  destruct (process_single_playlist_full e name url m d approved ctl requests
              Hctl Hreq) as [ctl2 [Hctl2 Ho]].
  fold o in Ho.
  pose proof (process_items_spec e name url m d approved ctl2
                (capture_requests requests)) as Hitems.
  cbv zeta in Hitems. rewrite <- Ho in Hitems.
  destruct Hitems as [[Hnil [msg [_ [_ [Hlog _]]]]]
                     |[_ [c' [n [_ [_ [Hmeta [_ [_ [Hlen [Hup Hdisk]]]]]]]]]]].
  { rewrite Hnil, Hlog. split; [reflexivity|]. intros t []. }
  specialize (Hlen Hctl2). rewrite Hlen, firstn_all in Hmeta.
  split; [exact Hmeta|]. intros t Ht. rewrite <- Hmeta in Ht.
  apply in_map_iff in Ht as [r [<- Hr]].
  pose proof (upserts_has_playlist (now e) (jo_download_log o) m
                (new_consolidator name) r Hr) as Hhas.
  assert (HuM : Dict.uniq (existing_songs
                  (fst (upserts (now e) (jo_download_log o)
                          (m, new_consolidator name)))) = true).
  { apply (upserts_ind (fun m' => Dict.uniq (existing_songs m') = true) (now e));
      [|exact Hu].
    intros. now apply add_song_uniq. }
  rewrite <- Hup in Hhas, HuM. cbn [fst new_consolidator playlist_name] in Hhas, HuM.
  destruct Hhas as [info [Hget Hmem]]. exists info. split; [|now apply mem_In].
  rewrite Hdisk. cbn [save_consolidated_metadata songs_database table].
  rewrite get_update by exact HuM. now rewrite Hget.
Qed.

Lemma job_records_every_track_witness :
  let o := process_single_playlist broken_fetch_env "P1" "u" new_manager empty_disk
             false new_controller in
  map r_status (jo_download_log o) = [skipped; skipped] /\
  map (fun t => Dict.contains (table (songs_database (jo_disk o))) (song_id t))
    (map r_metadata (jo_download_log o)) = [true; true] /\
  map r_metadata (jo_download_log o) =
    fst (extract_enhanced_track_info (capture_requests two_tracks) new_manager "t").
Proof.
  split; [vm_compute; reflexivity|]. split; [vm_compute; reflexivity|].
  exact (proj1 (job_records_every_track broken_fetch_env "P1" "u" new_manager
                  empty_disk false new_controller two_tracks
                  eq_refl eq_refl eq_refl)).
Defined.

(** ** Lookup after a reload *)

Lemma get_of_In {V : Type} (d : dict V) k v :
  Dict.uniq d = true -> In (k, v) d -> Dict.get d k = Some v.
Proof.
  intros Hu. apply DictFacts.uniq_NoDup in Hu.
  induction d as [|[k' v'] d IH]; intros Hin; [destruct Hin|].
  cbn in Hu. apply NoDup_cons_iff in Hu as [Hk Hu]. cbn [Dict.get].
  destruct Hin as [E|Hin].
  - injection E as -> ->. now rewrite String.eqb_refl.
  - destruct (String.eqb_spec k' k) as [->|_]; [|now apply IH].
    exfalso. apply Hk. change k with (fst (k, v)). now apply in_map.
Qed.

Lemma get_index_uri_other (l : list (string * track_info)) uri : forall acc,
  Forall (fun km => track_uri (snd km) <> uri) l ->
  Dict.get (fold_left index_uri l acc) uri = Dict.get acc uri.
Proof.
  induction l as [|km l IH]; intros acc H; [reflexivity|].
  apply Forall_cons_iff in H as [Hkm H]. cbn [fold_left]. rewrite IH by exact H.
  unfold index_uri, register_uri.
  destruct (PyStr.truthy (track_uri (snd km))); [|reflexivity].
  now apply DictFacts.get_set_neq.
Qed.

(** X24: after a reload of the catalog a stored song is found again by its
    track URI; when several stored songs have the same URI, the lookup gives
    the last of them. *)
Theorem reloaded_song_is_found_by_uri (d : disk)
    (before after : dict song_info) (id : string) (info : song_info)
    (name artists_str : string) :
  songs_database d = Some (before ++ (id, info) :: after) ->
  Dict.uniq (before ++ (id, info) :: after) = true ->
  PyStr.truthy (track_uri (si_metadata info)) = true ->
  Forall (fun entry =>
            track_uri (si_metadata (snd entry)) <> track_uri (si_metadata info))
    after ->
  find_existing_song (load_existing_database d) (track_uri (si_metadata info))
    name artists_str = Ok (Some (id, info)).
Proof.
  intros Hd Hu Huri Hafter. unfold load_existing_database. rewrite Hd.
  rewrite load_fold. unfold find_existing_song.
  cbn [existing_songs uri_to_song_id name_artist_to_song_id new_manager].
  rewrite Huri, map_app, fold_left_app. cbn [map fold_left].
  rewrite get_index_uri_other.
  2:{ apply Forall_map. eapply Forall_impl; [|exact Hafter].
      intros entry H. exact H. }
  unfold index_uri at 1, register_uri, key_meta. cbn [fst snd].
  rewrite Huri, DictFacts.get_set_eq.
  rewrite DictFacts.update_nil by exact Hu.
  rewrite (get_of_In _ id info Hu); [reflexivity|].
  apply in_or_app. right. now left.
Qed.

Lemma reloaded_song_is_found_by_uri_witness :
  let info1 := new_song_info "P1" "t" "song_1" sample_track (not_fetched sample_track) in
  let info2 := new_song_info "P2" "t" "song_2" sample_track (not_fetched sample_track) in
  let d := {| songs_database := Some [("song_1", info1); ("song_2", info2)];
              playlists_database := None; song_playlist_mapping := None |} in
  find_existing_song (load_existing_database d) "spotify:track:1" "" ""
    = Ok (Some ("song_2", info2)).
Proof.
  apply (reloaded_song_is_found_by_uri
           {| songs_database :=
                Some [("song_1", new_song_info "P1" "t" "song_1" sample_track
                                   (not_fetched sample_track));
                      ("song_2", new_song_info "P2" "t" "song_2" sample_track
                                   (not_fetched sample_track))];
              playlists_database := None; song_playlist_mapping := None |}
           [("song_1", new_song_info "P1" "t" "song_1" sample_track
                         (not_fetched sample_track))]
           []
           "song_2"
           (new_song_info "P2" "t" "song_2" sample_track (not_fetched sample_track))
           "" "").
  - reflexivity.
  - reflexivity.
  - reflexivity.
  - constructor.
Defined.

(** ** The cursor of a batch *)

(** X25: in a batch file the program wrote, the job at the cursor is the
    first pending job, and there is no job at the cursor only when no job is
    pending. *)
Theorem get_current_playlist_is_first_pending (b : PlaylistBatch) :
  persisted b ->
  match get_current_playlist b with
  | Some job =>
      status job = pending /\ first_pending b = Some (current_playlist_index b)
  | None => forall job, In job (batch_playlists b) -> status job <> pending
  end.
Proof.
  intros Hb. apply persisted_wf in Hb. pose proof Hb as [Hle Hwf].
  unfold get_current_playlist.
  destruct (nth_error (batch_playlists b) (current_playlist_index b))
    as [job|] eqn:En.
  - assert (Hp : status job = pending) by (apply (Hwf _ _ En); lia).
    split; [exact Hp|].
    destruct (first_pending b) as [i0|] eqn:Ef.
    + destruct (first_pending_wf b i0 Hb Ef) as [-> _]. reflexivity.
    + unfold first_pending in Ef.
      pose proof (find_index_spec is_pending (batch_playlists b)) as Hspec.
      rewrite Ef in Hspec. specialize (Hspec _ _ En).
      apply is_pending_true in Hp. congruence.
  - apply nth_error_None in En. intros job Hin Hp.
    apply In_nth_error in Hin as [k Hk].
    assert (Hlt : k < List.length (batch_playlists b)).
    { apply nth_error_Some. congruence. }
    apply (Hwf _ _ Hk) in Hp. lia.
Qed.

Lemma get_current_playlist_is_first_pending_witness :
  let b := add_playlist "t2"
             (mark_playlist_completed "t1"
                (add_playlist "t0" new_batch "Done already" "u1") 3 3 None)
             "Next one" "u2" in
  option_map job_name (get_current_playlist b) = Some "Next-one" /\
  first_pending b = Some (current_playlist_index b).
Proof.
  split; [vm_compute; reflexivity|].
  exact (proj2 (get_current_playlist_is_first_pending
                  (add_playlist "t2"
                     (mark_playlist_completed "t1"
                        (add_playlist "t0" new_batch "Done already" "u1") 3 3 None)
                     "Next one" "u2")
                  (persisted_add _ _ _ _
                     (persisted_mark _ _ _ _ _
                        (persisted_add _ _ _ _ persisted_new))))).
Defined.

(** ** Tracks without a file name *)

(** X26: a valid track whose name and artists leave nothing to build a file
    name from is not fetched: the result is a failure, whatever the fetch
    tool would have found. *)
Theorem unnameable_track_is_not_fetched (e : env) (t : track_info)
    (ctl : DownloadController) :
  cancelled_from ctl = None ->
  skip_download t = false ->
  validate_track_data (track_name t) (artists_string t) = (true, "Valid") ->
  sanitize_chars (PyStr.chars (track_name t ++ " - " ++ artists_string t)) = [] ->
  fst (search_and_download_audio_smart e t ctl) =
    mk_result t (PyStr.strip (track_name t ++ " " ++ artists_string t)) dl_failed
      (Some "Could not create valid filename") None None.
Proof.
  intros Hctl Hskip Hvalid Hname.
  unfold search_and_download_audio_smart.
  rewrite (check_pause_none ctl Hctl), Hskip, Hvalid. cbn [negb andb].
  rewrite (sanitize_filename_nothing_remains _ Hname). reflexivity.
Qed.

Lemma unnameable_track_is_not_fetched_witness :
  let t := {| track_name := "???"; track_uri := ""; artists := ["!!!"];
              artist_uris := [""]; artists_string := "!!!";
              album_name := "Unknown Album"; album_uri := ""; duration_ms := 0%N;
              added_at := ""; processed_at := "t"; song_id := "song_0123456789ab";
              skip_download := false; existing_song_found := false |} in
  validate_track_data (track_name t) (artists_string t) = (true, "Valid") /\
  r_error (fst (search_and_download_audio_smart two_tracks_env t new_controller))
    = Some "Could not create valid filename".
Proof.
  intros t. split; [vm_compute; reflexivity|].
  rewrite (unnameable_track_is_not_fetched two_tracks_env t new_controller);
    [reflexivity|reflexivity|reflexivity|vm_compute; reflexivity
    |vm_compute; reflexivity].
Defined.
